(** * field-note-app: map control abstraction and overlay store

  A shallow embedding of the TypeScript sources
    - [components/map/MapView.web.tsx]: the handle over the in-process
      renderer;
    - [map-html.ts] and [MapView.tsx]: the page injected in the WebView
      and the bridge that drives it;
    - [MapScreen]: the screen controller;
    - [overlay-store.ts]: the IndexedDB persistence;
    - [hooks/use-location.ts]: the location hook;
    - the Google Drive wrapper: token state, folder lookup, upload body.

  Conventions.
    - The numbers of the pulse loop, whose steps of 0.3 accumulate
      rounding, are IEEE binary64 doubles ([float]), computed as
      JavaScript computes them.  Elsewhere a JavaScript [number] that is
      only stored, copied and compared is an exact rational ([Q]), and
      what comes out of [Math.cos] and [Math.pow] is a real ([R]); there
      rounding and [NaN] are outside the model.
    - A string is held as the bytes of its UTF-8 encoding; what the code
      does by Unicode code point ([trim]) or by UTF-16 code unit (the
      key order of IndexedDB) is computed on the decoded string.
    - An object used as a dictionary (the renderer's sources, an
      IndexedDB object store) is a [gmap] keyed by the id string; the
      layers, whose order matters, are a list.
    - Where the camera of a map comes to rest after [flyTo] or
      [fitBounds] is decided by the engine, from the size of the
      viewport and its limits; the map carries the engine's answers as
      functions ([Engine]) and every statement holds for every engine.
    - Code that mutates a state and may throw, or a promise that may
      reject, is a function from the state to a result or [None],
      together with the state it leaves.  An asynchronous handler is one
      atomic transition; [Date.now()] and the outcome of calls into
      collaborators (renderer, PMTiles reader) are arguments. *)

From Stdlib Require Import Floats.
From Stdlib Require Import ZArith QArith Lia Lqa Lra Reals Ascii String.
From Stdlib Require Import Sorting.Sorted Permutation.
From stdpp Require Import gmap strings list fin_maps pretty.

Open Scope Z_scope.

(** A decimal literal of type [float] is the nearest double, as in
    JavaScript. *)
#[global] Set Warnings "-inexact-float".

(* ===================================================================== *)
(** * The pulsing halo ([animatePulse])                                   *)
(* ===================================================================== *)

Module Pulse.

(** [let pulseDir = 1; let pulseR = 18;]: two doubles. *)
Record PulseState := { pulseR : float; pulseDir : float }.

Definition init : PulseState := {| pulseR := 18; pulseDir := 1 |}.

(** Paint properties of the layer ['user-location-pulse']. *)
Record PulsePaint := { circle_radius : float; circle_opacity : option float }.

(** The layer as registered on load: radius 18, no opacity set. *)
Definition layer0 : PulsePaint :=
  {| circle_radius := 18; circle_opacity := None |}.

(** [0.4 - ((pulseR - 16) / (24 - 16)) * 0.3] *)
Definition pulseOpacity (r : float) : float :=
  (0.4 - ((r - 16) / (24 - 16)) * 0.3)%float.

(** [pulseR += pulseDir * 0.3; if (pulseR >= 24) pulseDir = -1;
    if (pulseR <= 16) pulseDir = 1;] *)
Definition advance (s : PulseState) : PulseState :=
  let r := (pulseR s + pulseDir s * 0.3)%float in
  let d1 := if (24 <=? r)%float then (-1)%float else pulseDir s in
  let d2 := if (r <=? 16)%float then 1%float else d1 in
  {| pulseR := r; pulseDir := d2 |}.

(** One animation frame.  [layer] is [map.getLayer('user-location-pulse')]:
    the paint properties are written only when the layer exists. *)
Definition animatePulse (st : PulseState * option PulsePaint)
  : PulseState * option PulsePaint :=
  let s' := advance (fst st) in
  (s',
   match snd st with
   | Some _ => Some {| circle_radius := pulseR s';
                       circle_opacity := Some (pulseOpacity (pulseR s')) |}
   | None => None
   end).

(** The state after [n] frames, the layer being present from the start. *)
Fixpoint frames (n : nat) : PulseState * option PulsePaint :=
  match n with
  | O => (init, Some layer0)
  | S k => animatePulse (frames k)
  end.

End Pulse.

(* ===================================================================== *)
(** * Code that mutates a state and may throw                             *)
(* ===================================================================== *)

(** A computation over a mutable state [S] that returns an [A] or throws
    ([None]).  The state reached when the exception is raised is kept:
    nothing is rolled back unless the code does it. *)
Definition Js (S A : Type) : Type := S -> option A * S.

#[global] Instance js_ret {S} : MRet (Js S) :=
  fun A (a : A) s => (Some a, s).

#[global] Instance js_bind {S} : MBind (Js S) :=
  fun A B (f : A -> Js S B) (m : Js S A) s =>
    match m s with
    | (Some a, s') => f a s'
    | (None, s') => (None, s')
    end.

Definition throw {S A} : Js S A := fun s => (None, s).

(** [try { body } catch { handler }] *)
Definition try_catch {S A} (body handler : Js S A) : Js S A :=
  fun s =>
    match body s with
    | (Some a, s') => (Some a, s')
    | (None, s') => handler s'
    end.

Definition get_state {S} : Js S S := fun s => (Some s, s).
Definition modify {S} (f : S -> S) : Js S unit := fun s => (Some tt, f s).

(** A call whose rejection is only logged: [op(...).catch(console.error)]. *)
Definition fire_and_forget {S A} (op : Js S A) (s : S) : S := snd (op s).

(* ===================================================================== *)
(** * The renderer and the in-process map handle ([MapView.web.tsx])      *)
(* ===================================================================== *)

Module Renderer.

(** [west, south, east, north] *)
Definition Bounds : Type := (Q * Q * Q * Q)%type.

(** The data of the GeoJSON source ['user-location']: a point and its
    [accuracyRadius] property ([properties: {}] is [None]). *)
Record Feature := { coordinates : Q * Q; accuracyRadius : option R }.

Inductive Source :=
| GeoJSON (data : Feature)
| RasterUrl (url : string) (tileSize : Z)     (* [{type:'raster', url, tileSize}] *)
| StyleSource.                                (* a source of the initial style *)

Record Layer := {
  layer_id : string;
  layer_source : option string;               (* [None] for a background layer *)
  visibility : bool;                          (* layout visibility: visible / none *)
  raster_opacity : option Q;                  (* paint ['raster-opacity'] *)
}.

(** A camera: the centre [lng, lat] and the zoom. *)
Definition Camera : Type := ((Q * Q) * Q)%type.

(** Where the camera comes to rest.  The handle asks for a camera; what
    the engine grants depends on the size of the viewport and on its
    limits of zoom and latitude, which the handle does not see.  Both
    answers are given with the map, as functions of the camera the map
    has and of what is asked. *)
Record Engine := {
  (* [map.flyTo({center, zoom})]: the camera at the end of the flight;
     [None]: the call throws (the engine refuses the centre) *)
  flyTo_lands : Camera -> Camera -> option Camera;
  (* [map.fitBounds(bounds, {padding: 20})]: the camera framing [bounds] *)
  fitBounds_lands : Camera -> Bounds -> Camera;
}.

(** The part of a [maplibregl.Map] the handle touches.  [center] and
    [zoom] are [map.getCenter()] and [map.getZoom()] with the camera at
    rest.  [layers] is in paint order, bottom first.  [fitted] is the
    target of the last [fitBounds]. *)
Record Map := {
  center : Q * Q;
  zoom : Q;
  sources : gmap string Source;
  layers : list Layer;
  fitted : option Bounds;
  engine : Engine;
}.

Definition camera (m : Map) : Camera := (center m, zoom m).

Definition set_sources (f : gmap string Source -> gmap string Source) (m : Map) : Map :=
  {| center := center m; zoom := zoom m; sources := f (sources m);
     layers := layers m; fitted := fitted m; engine := engine m |}.

Definition set_layers (f : list Layer -> list Layer) (m : Map) : Map :=
  {| center := center m; zoom := zoom m; sources := sources m;
     layers := f (layers m); fitted := fitted m; engine := engine m |}.

(** The camera moved to [c]. *)
Definition set_camera (c : Camera) (m : Map) : Map :=
  {| center := fst c; zoom := snd c; sources := sources m;
     layers := layers m; fitted := fitted m; engine := engine m |}.

Definition getSource (m : Map) (id : string) : option Source := sources m !! id.

Definition getLayer (m : Map) (id : string) : option Layer :=
  List.find (fun l => String.eqb (layer_id l) id) (layers m).

Definition hasLayer (m : Map) (id : string) : bool :=
  match getLayer m id with Some _ => true | None => false end.

Definition removeLayer (id : string) (m : Map) : Map :=
  set_layers (List.filter (fun l => negb (String.eqb (layer_id l) id))) m.

Definition removeSource (id : string) (m : Map) : Map :=
  set_sources (delete id) m.

(** Outcome of the calls of [addRasterOverlay] that can throw.  The
    engine and the PMTiles reader are collaborators: whether a call
    throws is given with the input. *)
Record Outcome := {
  header : option Bounds;        (* [await p.getHeader()]; [None]: it throws *)
  addSource_throws : bool;
  addLayer_throws : bool;
  fitBounds_throws : bool;
}.

Definition all_fine (b : Bounds) : Outcome :=
  {| header := Some b; addSource_throws := false;
     addLayer_throws := false; fitBounds_throws := false |}.

(** [map.addSource(id, spec)]: throws when asked to, and when a source
    with that id exists. *)
Definition addSource (throws : bool) (id : string) (s : Source) : Js Map unit :=
  fun m =>
    if throws then (None, m)
    else match sources m !! id with
         | Some _ => (None, m)
         | None => (Some tt, set_sources (<[id := s]>) m)
         end.

(** Insert [l] just below the layer [before]. *)
Fixpoint insert_before (before : string) (l : Layer) (ls : list Layer) : list Layer :=
  match ls with
  | [] => []
  | x :: xs => if String.eqb (layer_id x) before then l :: x :: xs
               else x :: insert_before before l xs
  end.

(** [map.addLayer(layer, beforeId)]: an id already in use, or a missing
    [beforeId], is reported on the error channel and nothing is added. *)
Definition addLayer (throws : bool) (l : Layer) (before : option string) : Js Map unit :=
  fun m =>
    if throws then (None, m)
    else if hasLayer m (layer_id l) then (Some tt, m)
    else match before with
         | Some b => (Some tt, set_layers (insert_before b l) m)
         | None => (Some tt, set_layers (fun ls => ls ++ [l]) m)
         end.

(** [map.fitBounds(bounds, {padding: 20, duration: 1500})]: the camera
    goes where the engine frames the bounds; the model lands at once. *)
Definition fitBounds (throws : bool) (b : Bounds) : Js Map unit :=
  fun m =>
    if throws then (None, m)
    else let c := fitBounds_lands (engine m) (camera m) b in
         (Some tt, {| center := fst c; zoom := snd c; sources := sources m;
                      layers := layers m; fitted := Some b; engine := engine m |}).

Definition setLayoutVisibility (id : string) (v : bool) (m : Map) : Map :=
  set_layers (List.map (fun l =>
    if String.eqb (layer_id l) id
    then {| layer_id := layer_id l; layer_source := layer_source l;
            visibility := v; raster_opacity := raster_opacity l |}
    else l)) m.

Definition setRasterOpacity (id : string) (o : Q) (m : Map) : Map :=
  set_layers (List.map (fun l =>
    if String.eqb (layer_id l) id
    then {| layer_id := layer_id l; layer_source := layer_source l;
            visibility := visibility l; raster_opacity := Some o |}
    else l)) m.

(** [`overlay-${id}`] and [`overlay-${id}-layer`] *)
Definition sourceId (id : string) : string := "overlay-" +:+ id.
Definition layerId (id : string) : string := "overlay-" +:+ id +:+ "-layer".

(** What [addRasterOverlay] returns: [{ id, name, bounds, opacity }]. *)
Record OverlayDescriptor := {
  d_id : string; d_name : string; d_bounds : Bounds; d_opacity : Q;
}.

(** The body of the [try] block of [addRasterOverlay]. *)
Definition addRasterOverlay_try (oc : Outcome) (id pmtilesUrl : string)
  : Js Map (option OverlayDescriptor) :=
  bounds ← (fun m => (header oc, m));
  _ ← modify (fun m => if hasLayer m (layerId id) then removeLayer (layerId id) m else m);
  _ ← modify (fun m => match getSource m (sourceId id) with
                       | Some _ => removeSource (sourceId id) m
                       | None => m end);
  _ ← addSource (addSource_throws oc) (sourceId id)
        (RasterUrl ("pmtiles://" +:+ pmtilesUrl) 256);
  m ← get_state;
  let beforeLayerId :=
    if hasLayer m "user-location-accuracy" then Some "user-location-accuracy"
    else None in
  _ ← addLayer (addLayer_throws oc)
        {| layer_id := layerId id; layer_source := Some (sourceId id);
           visibility := true; raster_opacity := Some 0.8%Q |}
        beforeLayerId;
  _ ← fitBounds (fitBounds_throws oc) bounds;
  mret (Some {| d_id := id; d_name := id; d_bounds := bounds; d_opacity := 0.8%Q |}).

(** [async addRasterOverlay(id, pmtilesUrl)] on the map [mapRef.current]:
    [catch (e) { console.error(...); return null; }]. *)
Definition addRasterOverlay (oc : Outcome) (id pmtilesUrl : string)
  (mapRef : option Map) : option OverlayDescriptor * option Map :=
  match mapRef with
  | None => (None, None)
  | Some m =>
      match try_catch (addRasterOverlay_try oc id pmtilesUrl) (mret None) m with
      | (Some r, m') => (r, Some m')
      | (None, m') => (None, Some m')
      end
  end.

Definition removeRasterOverlay (id : string) (mapRef : option Map) : option Map :=
  match mapRef with
  | None => None
  | Some m =>
      let m1 := if hasLayer m (layerId id) then removeLayer (layerId id) m else m in
      Some (match getSource m1 (sourceId id) with
            | Some _ => removeSource (sourceId id) m1
            | None => m1 end)
  end.

Definition setOverlayOpacity (id : string) (opacity : Q) (mapRef : option Map)
  : option Map :=
  match mapRef with
  | None => None
  | Some m => Some (if hasLayer m (layerId id)
                    then setRasterOpacity (layerId id) opacity m else m)
  end.

(** Modelled from the spec: [toggleOverlayVisibility] is declared in the
    handle type and called by the screen, but this revision of
    [MapView.web.tsx] does not define it.  Spec: "mutate paint/layout
    properties of the existing layer; no-op if absent". *)
Definition toggleOverlayVisibility (id : string) (visible : bool)
  (mapRef : option Map) : option Map :=
  match mapRef with
  | None => None
  | Some m => Some (if hasLayer m (layerId id)
                    then setLayoutVisibility (layerId id) visible m else m)
  end.

(** ** The position marker *)

Definition location_layers : list string :=
  ["user-location-accuracy"; "user-location-pulse"; "user-location-dot"].

(** [ids.forEach(id => { if (map.getLayer(id)) map.setLayoutProperty(id,
    'visibility', v) })] *)
Definition setLocationLayersVisibility (v : bool) (m : Map) : Map :=
  List.fold_left (fun m id => if hasLayer m id then setLayoutVisibility id v m else m)
                 location_layers m.

(** [156543.03392 * Math.cos(lat * Math.PI / 180) / Math.pow(2, map.getZoom())],
    with the real cosine and power.  At the poles the real cosine is 0
    where the double of the code is a small number that is not: there
    the model does not follow the code, and what is stated about the
    radius is stated where the cosine does not vanish. *)
Definition metersPerPixel (lat zoom : Q) : R :=
  ((156543.03392 * cos ((Q2R lat * PI) / 180)) / Rpower 2 (Q2R zoom))%R.

(** [accuracy ? Math.min(Math.max(accuracy / metersPerPixel, 10), 100) : 0];
    [null] and [0] are the falsy accuracies. *)
Definition accuracyRadiusOf (accuracy : option Q) (lat zoom : Q) : R :=
  match accuracy with
  | Some a =>
      if Qeq_bool a 0 then 0%R
      else Rmin (Rmax (Q2R a / metersPerPixel lat zoom) 10) 100
  | None => 0%R
  end.

(** [updateUserLocation(lng, lat, accuracy)] of the injected page, and the
    body of [updateLocation] once [mapRef.current] is known to be set. *)
Definition updateUserLocation (lng lat : Q) (accuracy : option Q) (m : Map) : Map :=
  match getSource m "user-location" with
  | Some (GeoJSON _) =>
      let f := {| coordinates := (lng, lat);
                  accuracyRadius := Some (accuracyRadiusOf accuracy lat (zoom m)) |} in
      setLocationLayersVisibility true
        (set_sources (<["user-location" := GeoJSON f]>) m)
  | _ => m
  end.

Definition updateLocation (lng lat : Q) (accuracy : option Q)
  (mapRef : option Map) : option Map :=
  match mapRef with
  | None => None
  | Some m => Some (updateUserLocation lng lat accuracy m)
  end.

(** [map.flyTo({center: [lng, lat], zoom, duration: 1500})]: the camera
    goes where the engine lands the flight, or the call throws and the
    map is as it was; the model lands at once. *)
Definition flyTo (lng lat zoomLevel : Q) : Js Map unit :=
  fun m =>
    match flyTo_lands (engine m) (camera m) ((lng, lat), zoomLevel) with
    | Some c => (Some tt, set_camera c m)
    | None => (None, m)
    end.

(** [mapRef.current?.flyTo({..., zoom: zoomLevel ?? 16, ...})]; what is
    returned is the map behind [mapRef] afterwards, also when the call
    has thrown. *)
Definition flyToLocation (lng lat : Q) (zoomLevel : option Q)
  (mapRef : option Map) : option Map :=
  match mapRef with
  | None => None
  | Some m => Some (snd (flyTo lng lat (default 16%Q zoomLevel) m))
  end.

Definition hideLocation (mapRef : option Map) : option Map :=
  match mapRef with
  | None => None
  | Some m => Some (setLocationLayersVisibility false m)
  end.

Definition allRasterLayers : list string :=
  ["osm-raster-layer"; "gsi-pale-layer"; "gsi-photo-layer"; "gsi-hillshade-layer"].

Definition PMTILES_LAYER_IDS : list string :=
  ["pm-background"; "pm-earth"; "pm-water"; "pm-landuse-park";
   "pm-landuse-residential"; "pm-buildings"; "pm-roads-minor";
   "pm-roads-major"; "pm-roads-highway"; "pm-transit-rail";
   "pm-boundaries"; "pm-labels-places"; "pm-labels-roads"].

Definition setVisibilityOfAll (ids : list string) (v : bool) (m : Map) : Map :=
  List.fold_left (fun m id => if hasLayer m id then setLayoutVisibility id v m else m)
                 ids m.

(** The property names an object literal inherits from
    [Object.prototype]. *)
Definition inherited : list string :=
  ["constructor"; "hasOwnProperty"; "isPrototypeOf"; "propertyIsEnumerable";
   "toLocaleString"; "toString"; "valueOf"; "__proto__";
   "__defineGetter__"; "__defineSetter__"; "__lookupGetter__"; "__lookupSetter__"].

(** [layerMap[source] ?? 'osm-raster-layer'] ([||] in the page), [layerMap]
    being an object literal with the four raster sources as keys.  A key
    the literal does not have gives [undefined] and so the default,
    unless it is an inherited name: then the lookup gives the function
    or object that [Object.prototype] holds, which is neither nullish
    nor falsy and is the id of no layer ([None]). *)
Definition layerMap (source : string) : option string :=
  if String.eqb source "osm" then Some "osm-raster-layer"
  else if String.eqb source "gsi-pale" then Some "gsi-pale-layer"
  else if String.eqb source "gsi-photo" then Some "gsi-photo-layer"
  else if String.eqb source "gsi-hillshade" then Some "gsi-hillshade-layer"
  else if List.existsb (String.eqb source) inherited then None
  else Some "osm-raster-layer".

Definition setTileSourceOn (source : string) (m : Map) : Map :=
  let m1 := setVisibilityOfAll allRasterLayers false m in
  let m2 := setVisibilityOfAll PMTILES_LAYER_IDS false m1 in
  if String.eqb source "pmtiles" then setVisibilityOfAll PMTILES_LAYER_IDS true m2
  else match layerMap source with
       | Some layerId =>
           if hasLayer m2 layerId then setLayoutVisibility layerId true m2 else m2
       | None => m2                 (* [map.getLayer] finds no such layer *)
       end.

Definition setTileSource (source : string) (mapRef : option Map) : option Map :=
  match mapRef with
  | None => None
  | Some m => Some (setTileSourceOn source m)
  end.

(** ** The map as it is built *)

Definition hidden_layer (id : string) (source : option string) : Layer :=
  {| layer_id := id; layer_source := source;
     visibility := false; raster_opacity := None |}.

(** [new maplibregl.Map({ container, style, center, zoom })] with the
    default options: five sources, the OSM raster layer visible, the
    other basemap layers hidden.  The container fixes the viewport and
    with it the engine [e]. *)
Definition initial_map (e : Engine) : Map :=
  {| center := (139.6917, 35.6895)%Q;
     zoom := 13%Q;
     sources := list_to_map
       [("osm-raster", StyleSource); ("pmtiles", StyleSource);
        ("gsi-pale", StyleSource); ("gsi-photo", StyleSource);
        ("gsi-hillshade", StyleSource)];
     layers :=
       {| layer_id := "osm-raster-layer"; layer_source := Some "osm-raster";
          visibility := true; raster_opacity := None |}
       :: hidden_layer "gsi-pale-layer" (Some "gsi-pale")
       :: hidden_layer "gsi-photo-layer" (Some "gsi-photo")
       :: hidden_layer "gsi-hillshade-layer" (Some "gsi-hillshade")
       :: hidden_layer "pm-background" None
       :: List.map (fun id => hidden_layer id (Some "pmtiles")) (List.tl PMTILES_LAYER_IDS);
     fitted := None;
     engine := e |}.

Definition circle_layer (id : string) : Layer :=
  hidden_layer id (Some "user-location").

(** The registrations of [map.on('load', ...)]. *)
Definition register_location : Js Map unit :=
  _ ← addSource false "user-location"
        (GeoJSON {| coordinates := (0, 0)%Q; accuracyRadius := None |});
  _ ← addLayer false (circle_layer "user-location-accuracy") None;
  _ ← addLayer false (circle_layer "user-location-pulse") None;
  addLayer false (circle_layer "user-location-dot") None.

(** The map once its [load] event has been handled. *)
Definition loaded_map (e : Engine) : Map := snd (register_location (initial_map e)).

End Renderer.

(* ===================================================================== *)
(** * The WebView variant: injected page ([map-html.ts]) and bridge
      ([MapView.tsx])                                                     *)
(* ===================================================================== *)

Module Bridge.
Import Renderer.

(** The envelopes [sendCommand] serialises, one per handle method.
    Numbers cross the boundary as JSON decimals. *)
Inductive Command :=
| UpdateLocation (longitude latitude accuracy : Q)
| FlyToLocation (longitude latitude zoom : Q)
| HideLocation
| SetTileSource (source : string)
| AddRasterOverlay (id url : string)
| RemoveRasterOverlay (id : string)
| SetOverlayOpacity (id : string) (opacity : Q).

(** The [type] field of the envelope. *)
Definition cmd_type (c : Command) : string :=
  match c with
  | UpdateLocation _ _ _ => "updateLocation"
  | FlyToLocation _ _ _ => "flyToLocation"
  | HideLocation => "hideLocation"
  | SetTileSource _ => "setTileSource"
  | AddRasterOverlay _ _ => "addRasterOverlay"
  | RemoveRasterOverlay _ => "removeRasterOverlay"
  | SetOverlayOpacity _ _ => "setOverlayOpacity"
  end.

(** Parsed inbound messages [{type, ...payload}]. *)
Inductive Message :=
| MapMoved (center : Q * Q) (zoom : Q)
| MapLoaded
| OverlayAdded (info : option OverlayDescriptor)
| OtherMessage (type : string).

Definition msg_type (m : Message) : string :=
  match m with
  | MapMoved _ _ => "mapMoved"
  | MapLoaded => "mapLoaded"
  | OverlayAdded _ => "overlayAdded"
  | OtherMessage t => t
  end.

(** ** The injected page *)

Record Page := { page_map : Map; currentTileSource : string }.

Definition on_map (f : Map -> Map) (pg : Page) : Page :=
  {| page_map := f (page_map pg); currentTileSource := currentTileSource pg |}.

(** [function handleCommand(cmd) { switch (cmd.type) { ... } }]: four
    cases and no default. *)
Definition handleCommand (cmd : Command) (pg : Page) : Page :=
  match cmd with
  | UpdateLocation lng lat acc => on_map (updateUserLocation lng lat (Some acc)) pg
  | FlyToLocation lng lat z =>
      on_map (fun m => snd (flyTo lng lat (if Qeq_bool z 0 then 16%Q else z) m)) pg
  | HideLocation => on_map (setLocationLayersVisibility false) pg
  | SetTileSource source =>
      {| page_map := setTileSourceOn source (page_map pg);
         currentTileSource := source |}
  | _ => pg
  end.

(** Events of the page's map; the only places that call [postMessage]. *)
Inductive PageEvent := PageLoad | PageMoveEnd.

Definition page_event (e : PageEvent) (pg : Page) : Page * list Message :=
  match e with
  | PageLoad =>
      match register_location (page_map pg) with
      | (Some _, m) => (on_map (fun _ => m) pg, [MapLoaded])
      | (None, m) => (on_map (fun _ => m) pg, [])
      end
  | PageMoveEnd =>
      (pg, [MapMoved (center (page_map pg)) (zoom (page_map pg))])
  end.

(** ** The bridge on the React Native side *)

(** A call of the [resolve] function of promise [promise]. *)
Record Resolution := {
  at_time : Z;
  promise : nat;
  value : option OverlayDescriptor;        (* [None] is [null] *)
}.

Inductive Callback :=
| OnMapMoved (center : Q * Q) (zoom : Q)
| OnMapLoaded.

Record Bridge := {
  clock : Z;                               (* milliseconds *)
  webView : bool;                          (* [webViewRef.current] is set *)
  overlayResolveRef : option nat;          (* whose [resolve] the ref holds *)
  timers : list (Z * nat);                 (* pending [setTimeout]s: due time, promise *)
  created : nat;                           (* promises handed out so far *)
  resolved : list Resolution;              (* calls of [resolve], oldest first *)
  injected : list Command;                 (* what went through [injectJavaScript] *)
  notified : list Callback;                (* calls of the two props *)
}.

Definition initial : Bridge :=
  {| clock := 0; webView := true; overlayResolveRef := None; timers := [];
     created := O; resolved := []; injected := []; notified := [] |}.

(** A promise settles with the first call of its [resolve]. *)
Definition settled (b : Bridge) (p : nat) : option Resolution :=
  List.find (fun r => Nat.eqb (promise r) p) (resolved b).

(** [webViewRef.current?.injectJavaScript(...)] *)
Definition sendCommand (cmd : Command) (b : Bridge) : Bridge :=
  if webView b then
    {| clock := clock b; webView := webView b;
       overlayResolveRef := overlayResolveRef b; timers := timers b;
       created := created b; resolved := resolved b;
       injected := injected b ++ [cmd]; notified := notified b |}
  else b.

Definition updateLocation (lng lat : Q) (accuracy : option Q) : Bridge -> Bridge :=
  sendCommand (UpdateLocation lng lat (default 0%Q accuracy)).

Definition flyToLocation (lng lat : Q) (zoom : option Q) : Bridge -> Bridge :=
  sendCommand (FlyToLocation lng lat (default 16%Q zoom)).

Definition hideLocation : Bridge -> Bridge := sendCommand HideLocation.

Definition setTileSource (source : string) : Bridge -> Bridge :=
  sendCommand (SetTileSource source).

Definition removeRasterOverlay (id : string) : Bridge -> Bridge :=
  sendCommand (RemoveRasterOverlay id).

Definition setOverlayOpacity (id : string) (opacity : Q) : Bridge -> Bridge :=
  sendCommand (SetOverlayOpacity id opacity).

(** [addRasterOverlay]: a new promise; its [resolve] goes into the ref,
    the command is sent, a 10000 ms timer is armed.  Returns the promise. *)
Definition addRasterOverlay (id pmtilesUrl : string) (b : Bridge) : nat * Bridge :=
  let p := created b in
  let b1 :=
    {| clock := clock b; webView := webView b;
       overlayResolveRef := Some p; timers := timers b;
       created := S p; resolved := resolved b;
       injected := injected b; notified := notified b |} in
  let b2 := sendCommand (AddRasterOverlay id pmtilesUrl) b1 in
  (p, {| clock := clock b2; webView := webView b2;
         overlayResolveRef := overlayResolveRef b2;
         timers := timers b2 ++ [(clock b2 + 10000, p)];
         created := created b2; resolved := resolved b2;
         injected := injected b2; notified := notified b2 |}).

(** The timer callback of promise [p], run at time [due]:
    [if (overlayResolveRef.current) { overlayResolveRef.current = null;
    resolve(null); }] *)
Definition fire (due : Z) (p : nat) (b : Bridge) : Bridge :=
  match overlayResolveRef b with
  | Some _ =>
      {| clock := clock b; webView := webView b;
         overlayResolveRef := None; timers := timers b;
         created := created b;
         resolved := resolved b ++ [{| at_time := due; promise := p; value := None |}];
         injected := injected b; notified := notified b |}
  | None => b
  end.

(** The clock reaches [t]: the timers due by then run, oldest first. *)
Definition tick (t : Z) (b : Bridge) : Bridge :=
  let t' := Z.max (clock b) t in
  let due := List.filter (fun '(d, _) => d <=? t') (timers b) in
  let rest := List.filter (fun '(d, _) => negb (d <=? t')) (timers b) in
  List.fold_left (fun b '(d, p) => fire d p b) due
    {| clock := t'; webView := webView b;
       overlayResolveRef := overlayResolveRef b; timers := rest;
       created := created b; resolved := resolved b;
       injected := injected b; notified := notified b |}.

Record Props := { onMapMoved : bool; onMapLoaded : bool }.   (* prop given? *)

(** [handleMessage]; [data] is [None] when [JSON.parse] throws. *)
Definition handleMessage (props : Props) (data : option Message) (b : Bridge) : Bridge :=
  match data with
  | None => b
  | Some (MapMoved c z) =>
      if onMapMoved props then
        {| clock := clock b; webView := webView b;
           overlayResolveRef := overlayResolveRef b; timers := timers b;
           created := created b; resolved := resolved b;
           injected := injected b; notified := notified b ++ [OnMapMoved c z] |}
      else b
  | Some MapLoaded =>
      if onMapLoaded props then
        {| clock := clock b; webView := webView b;
           overlayResolveRef := overlayResolveRef b; timers := timers b;
           created := created b; resolved := resolved b;
           injected := injected b; notified := notified b ++ [OnMapLoaded] |}
      else b
  | Some (OverlayAdded info) =>
      match overlayResolveRef b with
      | Some p =>
          {| clock := clock b; webView := webView b;
             overlayResolveRef := None; timers := timers b;
             created := created b;
             resolved := resolved b
                         ++ [{| at_time := clock b; promise := p; value := info |}];
             injected := injected b; notified := notified b |}
      | None => b
      end
  | Some (OtherMessage _) => b
  end.

(** What can happen to the bridge. *)
Inductive Event :=
| Call (cmd : Command)                  (* a handle method is called *)
| Receive (data : option Message)       (* [onMessage] *)
| Tick (t : Z).                         (* time passes *)

Definition call (cmd : Command) (b : Bridge) : Bridge :=
  match cmd with
  | AddRasterOverlay id url => snd (addRasterOverlay id url b)
  | _ => sendCommand cmd b
  end.

Definition step (props : Props) (e : Event) (b : Bridge) : Bridge :=
  match e with
  | Call cmd => call cmd b
  | Receive data => handleMessage props data b
  | Tick t => tick t b
  end.

Definition run (props : Props) (es : list Event) (b : Bridge) : Bridge :=
  List.fold_left (fun b e => step props e b) es b.

(** An event that neither starts another [addRasterOverlay] nor carries
    an [overlayAdded] response. *)
Definition quiet (e : Event) : bool :=
  match e with
  | Call (AddRasterOverlay _ _) => false
  | Receive (Some (OverlayAdded _)) => false
  | _ => true
  end.

(** ** Bridge and page together *)

Record System := {
  rn : Bridge;
  page : Page;
  delivered : nat;            (* injected commands the page has run *)
}.

Inductive SysEvent :=
| SysCall (cmd : Command)
| SysDeliver                  (* the page runs the next injected script *)
| SysPage (e : PageEvent)     (* load / moveend; its messages reach [onMessage] *)
| SysTick (t : Z).

Definition sys_step (props : Props) (e : SysEvent) (s : System) : System :=
  match e with
  | SysCall cmd => {| rn := call cmd (rn s); page := page s; delivered := delivered s |}
  | SysDeliver =>
      match List.nth_error (injected (rn s)) (delivered s) with
      | Some cmd => {| rn := rn s; page := handleCommand cmd (page s);
                       delivered := S (delivered s) |}
      | None => s
      end
  | SysPage e =>
      let '(pg, msgs) := page_event e (page s) in
      {| rn := List.fold_left (fun b m => handleMessage props (Some m) b) msgs (rn s);
         page := pg; delivered := delivered s |}
  | SysTick t => {| rn := tick t (rn s); page := page s; delivered := delivered s |}
  end.

Definition sys_run (props : Props) (es : list SysEvent) (s : System) : System :=
  List.fold_left (fun s e => sys_step props e s) es s.

Definition sys_quiet (e : SysEvent) : bool :=
  match e with
  | SysCall (AddRasterOverlay _ _) => false
  | _ => true
  end.

End Bridge.

(* ===================================================================== *)
(** * [Array.prototype.sort] and strings                                  *)
(* ===================================================================== *)

Module JsArray.

(** Put [x] in front of the first element it does not sort after. *)
Fixpoint insert_sorted {A} (cmp : A -> A -> Z) (x : A) (l : list A) : list A :=
  match l with
  | [] => [x]
  | y :: ys => if cmp x y <=? 0 then x :: y :: ys
               else y :: insert_sorted cmp x ys
  end.

(** [l.sort(cmp)]: a stable sort, here by insertion from the right.
    [cmp a b > 0] puts [a] after [b]. *)
Definition sort {A} (cmp : A -> A -> Z) (l : list A) : list A :=
  List.fold_right (insert_sorted cmp) [] l.

Definition lower (a : ascii) : ascii :=
  let n := nat_of_ascii a in
  if ((65 <=? n)%nat && (n <=? 90)%nat)%bool then ascii_of_nat (n + 32) else a.

Fixpoint lowercase (s : string) : string :=
  match s with
  | EmptyString => EmptyString
  | String a r => String (lower a) (lowercase r)
  end.

(** [name.replace(/\.pmtiles$/i, '')] *)
Definition strip_pmtiles (name : string) : string :=
  let n := String.length name in
  if ((8 <=? n)%nat
      && String.eqb (lowercase (String.substring (n - 8) 8 name)) ".pmtiles")%bool
  then String.substring 0 (n - 8) name
  else name.

(** ** Strings by code point and by code unit

    A string of the model is the UTF-8 encoding of the JavaScript string. *)

Definition bytes (s : string) : list N :=
  List.map N_of_ascii (list_ascii_of_string s).

Definition of_bytes (bs : list N) : string :=
  string_of_list_ascii (List.map ascii_of_N bs).

(** The UTF-8 encoding of a code point. *)
Definition utf8 (cp : N) : list N :=
  (if cp <? 0x80 then [cp]
   else if cp <? 0x800 then [0xC0 + cp / 0x40; 0x80 + cp mod 0x40]
   else if cp <? 0x10000
        then [0xE0 + cp / 0x1000; 0x80 + (cp / 0x40) mod 0x40; 0x80 + cp mod 0x40]
   else [0xF0 + cp / 0x40000; 0x80 + (cp / 0x1000) mod 0x40;
         0x80 + (cp / 0x40) mod 0x40; 0x80 + cp mod 0x40])%N.

(** The code points of a UTF-8 byte sequence.  A byte that does not start
    a complete sequence stands for itself. *)
Fixpoint code_points (bs : list N) : list N :=
  match bs with
  | [] => []
  | b :: r =>
      if (b <? 0xC0)%N then b :: code_points r
      else if (b <? 0xE0)%N then
        match r with
        | c1 :: r1 => ((b mod 0x20) * 0x40 + c1 mod 0x40)%N :: code_points r1
        | _ => b :: code_points r
        end
      else if (b <? 0xF0)%N then
        match r with
        | c1 :: c2 :: r2 =>
            ((b mod 0x10) * 0x1000 + (c1 mod 0x40) * 0x40 + c2 mod 0x40)%N
            :: code_points r2
        | _ => b :: code_points r
        end
      else
        match r with
        | c1 :: c2 :: c3 :: r3 =>
            ((b mod 0x8) * 0x40000 + (c1 mod 0x40) * 0x1000
             + (c2 mod 0x40) * 0x40 + c3 mod 0x40)%N
            :: code_points r3
        | _ => b :: code_points r
        end
  end.

(** The UTF-16 code units of a code point: itself, or a surrogate pair. *)
Definition code_units (cp : N) : list N :=
  (if cp <? 0x10000 then [cp]
   else [0xD800 + (cp - 0x10000) / 0x400; 0xDC00 + (cp - 0x10000) mod 0x400])%N.

(** The string as JavaScript holds it: a sequence of UTF-16 code units. *)
Definition utf16 (s : string) : list N :=
  List.flat_map code_units (code_points (bytes s)).

(** The order of sequences of code units: by the first unit that
    differs, a proper prefix first. *)
Fixpoint compare_units (a b : list N) : comparison :=
  match a, b with
  | [], [] => Eq
  | [], _ :: _ => Lt
  | _ :: _, [] => Gt
  | x :: a', y :: b' =>
      match N.compare x y with
      | Eq => compare_units a' b'
      | c => c
      end
  end.

(** [WhiteSpace] and [LineTerminator] of ECMAScript, the code points
    [trim] strips: tab to carriage return, space, no-break space, the
    Unicode space separators, line and paragraph separator, and the byte
    order mark. *)
Definition white_space : list N :=
  [0x9; 0xA; 0xB; 0xC; 0xD; 0x20; 0xA0; 0x1680;
   0x2000; 0x2001; 0x2002; 0x2003; 0x2004; 0x2005; 0x2006; 0x2007; 0x2008;
   0x2009; 0x200A; 0x2028; 0x2029; 0x202F; 0x205F; 0x3000; 0xFEFF]%N.

(** [bs] without the prefix [p], if it starts with [p]. *)
Fixpoint strip_prefix (p bs : list N) : option (list N) :=
  match p, bs with
  | [], _ => Some bs
  | x :: p', y :: bs' => if (x =? y)%N then strip_prefix p' bs' else None
  | _ :: _, [] => None
  end.

(** [bs] without the first of [pats] it starts with. *)
Fixpoint strip_one (pats : list (list N)) (bs : list N) : option (list N) :=
  match pats with
  | [] => None
  | p :: ps => match strip_prefix p bs with
               | Some r => Some r
               | None => strip_one ps bs
               end
  end.

(** Strip as long as one of [pats] is in front; [fuel] bounds the number
    of rounds, and the length of the sequence is enough. *)
Fixpoint strip_all (fuel : nat) (pats : list (list N)) (bs : list N) : list N :=
  match fuel with
  | O => bs
  | S k => match strip_one pats bs with
           | Some r => strip_all k pats r
           | None => bs
           end
  end.

Definition trim_start (bs : list N) : list N :=
  strip_all (length bs) (List.map utf8 white_space) bs.

Definition trim_end (bs : list N) : list N :=
  List.rev (strip_all (length bs)
              (List.map (fun cp => List.rev (utf8 cp)) white_space) (List.rev bs)).

(** [s.trim()] *)
Definition trim (s : string) : string :=
  of_bytes (trim_end (trim_start (bytes s))).

End JsArray.

(* ===================================================================== *)
(** * The overlay store ([lib/overlay-store.ts])                          *)
(* ===================================================================== *)

Module Store.

Definition DB_VERSION : nat := 2.

(** A record as it lies in the [overlays] object store ([record: any]):
    records written before schema version 2 lack the later fields. *)
Record RawOverlay := {
  raw_id : string;
  raw_filename : string;
  raw_data : list Byte.byte;
  raw_opacity : option Q;
  raw_visible : option bool;
  raw_groupId : option string;
  raw_timestamp : option Z;
  raw_url : option string;
}.

Record StoredOverlay := {
  id : string;
  filename : string;
  data : list Byte.byte;
  opacity : Q;
  visible : bool;
  groupId : string;
  timestamp : Z;
  url : option string;
}.

Record StoredGroup := {
  g_id : string;
  g_name : string;
  g_expanded : bool;
  g_order : Z;
}.

(** The database [FieldNoteApp].  Both object stores have key path [id].
    A store that has not been created yet is the empty map; [version] is
    0 for a database that does not exist yet. *)
Record IDB := {
  version : nat;
  overlays : gmap string RawOverlay;
  groups : gmap string StoredGroup;
}.

(** Every record lies under its own id (the key path). *)
Definition wf (db : IDB) : Prop :=
  (forall k r, overlays db !! k = Some r -> raw_id r = k) /\
  (forall k g, groups db !! k = Some g -> g_id g = k).

Definition fresh : IDB := {| version := 0; overlays := ∅; groups := ∅ |}.

(** [indexedDB.open(DB_NAME, DB_VERSION)]: a database of a later version
    cannot be opened; an older one is upgraded, which creates the missing
    stores and leaves the records as they are. *)
Definition openDB : Js IDB unit :=
  fun db =>
    if (DB_VERSION <? version db)%nat then (None, db)
    else (Some tt, {| version := DB_VERSION; overlays := overlays db;
                      groups := groups db |}).

Definition put_overlay (r : RawOverlay) (db : IDB) : IDB :=
  {| version := version db; overlays := <[raw_id r := r]> (overlays db);
     groups := groups db |}.

Definition delete_overlay (k : string) (db : IDB) : IDB :=
  {| version := version db; overlays := delete k (overlays db);
     groups := groups db |}.

Definition put_group (g : StoredGroup) (db : IDB) : IDB :=
  {| version := version db; overlays := overlays db;
     groups := <[g_id g := g]> (groups db) |}.

Definition delete_group (k : string) (db : IDB) : IDB :=
  {| version := version db; overlays := overlays db;
     groups := delete k (groups db) |}.

(** The order of IndexedDB on string keys: by UTF-16 code units. *)
Definition key_cmp {V} (a b : string * V) : Z :=
  match JsArray.compare_units (JsArray.utf16 (fst a)) (JsArray.utf16 (fst b)) with
  | Lt => -1 | Eq => 0 | Gt => 1
  end.

(** [store.getAll()]: the records in ascending key order. *)
Definition getAll {V} (m : gmap string V) : list V :=
  List.map snd (JsArray.sort key_cmp (map_to_list m)).

(** [normalizeOverlay(record)]; [now] is what [Date.now()] returns. *)
Definition normalizeOverlay (now : Z) (record : RawOverlay) : StoredOverlay :=
  {| id := raw_id record;
     filename := raw_filename record;
     data := raw_data record;
     opacity := default 0.8%Q (raw_opacity record);
     visible := default true (raw_visible record);
     groupId := default "default" (raw_groupId record);
     timestamp := default now (raw_timestamp record);
     url := raw_url record |}.

(** A normalised record as [store.put] writes it back. *)
Definition to_raw (o : StoredOverlay) : RawOverlay :=
  {| raw_id := id o; raw_filename := filename o; raw_data := data o;
     raw_opacity := Some (opacity o); raw_visible := Some (visible o);
     raw_groupId := Some (groupId o); raw_timestamp := Some (timestamp o);
     raw_url := url o |}.

(** [saveOverlay(id, filename, data, opacity, visible, groupId)];
    [now] is the [Date.now()] read when the record is built. *)
Definition saveOverlay (id filename : string) (data : list Byte.byte)
  (opacity : Q) (visible : bool) (groupId : string) (now : Z) : Js IDB unit :=
  _ ← openDB;
  modify (put_overlay
    {| raw_id := id; raw_filename := filename; raw_data := data;
       raw_opacity := Some opacity; raw_visible := Some visible;
       raw_groupId := Some groupId; raw_timestamp := Some now;
       raw_url := None |}).

Definition saveUrlOverlay (id filename url : string)
  (opacity : Q) (visible : bool) (groupId : string) (now : Z) : Js IDB unit :=
  _ ← openDB;
  modify (put_overlay
    {| raw_id := id; raw_filename := filename; raw_data := [];
       raw_opacity := Some opacity; raw_visible := Some visible;
       raw_groupId := Some groupId; raw_timestamp := Some now;
       raw_url := Some url |}).

Definition loadAllOverlays (now : Z) : Js IDB (list StoredOverlay) :=
  _ ← openDB;
  db ← get_state;
  mret (List.map (normalizeOverlay now) (getAll (overlays db))).

Definition deleteOverlay (id : string) : Js IDB unit :=
  _ ← openDB;
  modify (delete_overlay id).

(** The transaction the four field helpers share: [store.get(id)], and
    in its [onsuccess], when a record came back, [normalizeOverlay], one
    assignment, [store.put(updated)]. *)
Definition update_field (now : Z) (id : string)
  (assign : StoredOverlay -> StoredOverlay) : Js IDB unit :=
  _ ← openDB;
  modify (fun db =>
    match overlays db !! id with
    | Some record => put_overlay (to_raw (assign (normalizeOverlay now record))) db
    | None => db
    end).

Definition updateOverlayOpacity (now : Z) (id : string) (o : Q) : Js IDB unit :=
  update_field now id (fun u =>
    {| id := Store.id u; filename := filename u; data := data u; opacity := o;
       visible := visible u; groupId := groupId u; timestamp := timestamp u;
       url := url u |}).

Definition updateOverlayVisibility (now : Z) (id : string) (v : bool) : Js IDB unit :=
  update_field now id (fun u =>
    {| id := Store.id u; filename := filename u; data := data u;
       opacity := opacity u; visible := v; groupId := groupId u;
       timestamp := timestamp u; url := url u |}).

Definition updateOverlayGroup (now : Z) (id : string) (g : string) : Js IDB unit :=
  update_field now id (fun u =>
    {| id := Store.id u; filename := filename u; data := data u;
       opacity := opacity u; visible := visible u; groupId := g;
       timestamp := timestamp u; url := url u |}).

Definition updateOverlayFilename (now : Z) (id : string) (f : string) : Js IDB unit :=
  update_field now id (fun u =>
    {| id := Store.id u; filename := f; data := data u;
       opacity := opacity u; visible := visible u; groupId := groupId u;
       timestamp := timestamp u; url := url u |}).

Definition saveGroup (g : StoredGroup) : Js IDB unit :=
  _ ← openDB;
  modify (put_group g).

(** [getAll()] then [.sort((a, b) => a.order - b.order)] *)
Definition loadAllGroups : Js IDB (list StoredGroup) :=
  _ ← openDB;
  db ← get_state;
  mret (JsArray.sort (fun a b => g_order a - g_order b) (getAll (groups db))).

Definition deleteGroup (id : string) : Js IDB unit :=
  _ ← openDB;
  modify (delete_group id).

End Store.

(* ===================================================================== *)
(** * The screen controller ([MapScreen], on the web platform)            *)
(* ===================================================================== *)

Module Screen.
Import Renderer.

Record OverlayInfo := {
  id : string;
  name : string;
  bounds : Bounds;
  opacity : Q;
  visible : bool;
  groupId : string;
}.

Record OverlayGroup := {
  gid : string;                (* [id] *)
  gname : string;              (* [name] *)
  expanded : bool;
  order : Z;
}.

Definition DEFAULT_GROUP : OverlayGroup :=
  {| gid := "default"; gname := "未分類"; expanded := true; order := 9999 |}.

Definition to_stored (g : OverlayGroup) : Store.StoredGroup :=
  {| Store.g_id := gid g; Store.g_name := gname g;
     Store.g_expanded := expanded g; Store.g_order := order g |}.

Definition of_stored (g : Store.StoredGroup) : OverlayGroup :=
  {| gid := Store.g_id g; gname := Store.g_name g;
     expanded := Store.g_expanded g; order := Store.g_order g |}.

(** The state the handlers read and write: the map behind [mapRef], the
    two [useState] lists, and the database. *)
Record App := {
  mapRef : option Map;
  overlays : list OverlayInfo;
  overlayGroups : list OverlayGroup;
  idb : Store.IDB;
}.

Definition initial (m : option Map) (db : Store.IDB) : App :=
  {| mapRef := m; overlays := []; overlayGroups := [DEFAULT_GROUP]; idb := db |}.

(** What the environment decides when an overlay is put on the map: the
    URL [URL.createObjectURL] hands out, and how the calls go. *)
Record AddEnv := { blobUrl : string; outcome : Outcome }.

Definition is_default (g : OverlayGroup) : bool := String.eqb (gid g) "default".

Definition without (id' : string) (l : list OverlayInfo) : list OverlayInfo :=
  List.filter (fun o => negb (String.eqb (id o) id')) l.

(** One turn of the loop of the restore effect. *)
Definition restore_entry (env : string -> AddEnv) (s : App) (entry : Store.StoredOverlay)
  : App :=
  let e := env (Store.id entry) in
  let '(info, m1) :=
    addRasterOverlay (outcome e) (Store.id entry) (blobUrl e) (mapRef s) in
  match info with
  | Some d =>
      let m2 := setOverlayOpacity (Store.id entry) (Store.opacity entry) m1 in
      let m3 := if Store.visible entry then m2
                else toggleOverlayVisibility (Store.id entry) false m2 in
      {| mapRef := m3;
         overlays := without (Store.id entry) (overlays s)
                     ++ [{| id := d_id d; name := Store.filename entry;
                            bounds := d_bounds d; opacity := Store.opacity entry;
                            visible := Store.visible entry;
                            groupId := Store.groupId entry |}];
         overlayGroups := overlayGroups s; idb := idb s |}
  | None =>
      {| mapRef := m1; overlays := overlays s;
         overlayGroups := overlayGroups s; idb := idb s |}
  end.

(** The effect that restores groups and overlays once the map is loaded;
    a rejected load ends it ([catch (e) { console.error(...) }]). *)
Definition restore (now : Z) (env : string -> AddEnv) (s : App) : App :=
  match mapRef s with
  | None => s
  | Some _ =>
      match Store.loadAllGroups (idb s) with
      | (None, db1) =>
          {| mapRef := mapRef s; overlays := overlays s;
             overlayGroups := overlayGroups s; idb := db1 |}
      | (Some storedGroups, db1) =>
          let groups1 :=
            if (0 <? length storedGroups)%nat then
              let hasDefault :=
                List.existsb (fun g => String.eqb (Store.g_id g) "default") storedGroups in
              List.map of_stored
                (if hasDefault then storedGroups
                 else storedGroups ++ [to_stored DEFAULT_GROUP])
            else overlayGroups s in
          match Store.loadAllOverlays now db1 with
          | (None, db2) =>
              {| mapRef := mapRef s; overlays := overlays s;
                 overlayGroups := groups1; idb := db2 |}
          | (Some stored, db2) =>
              List.fold_left (restore_entry env) stored
                {| mapRef := mapRef s; overlays := overlays s;
                   overlayGroups := groups1; idb := db2 |}
          end
      end
  end.

(** The [change] listener [handleAddOverlay] installs on the file input;
    [file] is [files?.[0]] with its name and bytes. *)
Definition handleAddOverlay (file : option (string * list Byte.byte))
  (env : AddEnv) (now : Z) (s : App) : App :=
  match file with
  | None => s
  | Some (fname, arrayBuffer) =>
      let id' := JsArray.strip_pmtiles fname in
      let '(info, m1) := addRasterOverlay (outcome env) id' (blobUrl env) (mapRef s) in
      match info with
      | Some d =>
          let name' := JsArray.strip_pmtiles fname in
          {| mapRef := m1;
             overlays := without id' (overlays s)
                         ++ [{| id := d_id d; name := name'; bounds := d_bounds d;
                                opacity := 0.8%Q; visible := true;
                                groupId := "default" |}];
             overlayGroups := overlayGroups s;
             idb := fire_and_forget
                      (Store.saveOverlay id' name' arrayBuffer 0.8%Q true "default" now)
                      (idb s) |}
      | None =>
          {| mapRef := m1; overlays := overlays s;
             overlayGroups := overlayGroups s; idb := idb s |}
      end
  end.

Definition handleRemoveOverlay (id' : string) (s : App) : App :=
  {| mapRef := removeRasterOverlay id' (mapRef s);
     overlays := without id' (overlays s);
     overlayGroups := overlayGroups s;
     idb := fire_and_forget (Store.deleteOverlay id') (idb s) |}.

Definition handleOverlayOpacityChange (now : Z) (id' : string) (o : Q) (s : App) : App :=
  {| mapRef := setOverlayOpacity id' o (mapRef s);
     overlays := List.map (fun x =>
       if String.eqb (id x) id'
       then {| id := id x; name := name x; bounds := bounds x; opacity := o;
               visible := visible x; groupId := groupId x |}
       else x) (overlays s);
     overlayGroups := overlayGroups s;
     idb := fire_and_forget (Store.updateOverlayOpacity now id' o) (idb s) |}.

(** The calls made from inside the [setOverlays] updater run once for
    each overlay the updater matches. *)
Definition handleToggleOverlayVisibility (now : Z) (id' : string) (s : App) : App :=
  let hits := List.filter (fun x => String.eqb (id x) id') (overlays s) in
  {| mapRef := List.fold_left
                 (fun m x => toggleOverlayVisibility id' (negb (visible x)) m)
                 hits (mapRef s);
     overlays := List.map (fun x =>
       if String.eqb (id x) id'
       then {| id := id x; name := name x; bounds := bounds x;
               opacity := opacity x; visible := negb (visible x);
               groupId := groupId x |}
       else x) (overlays s);
     overlayGroups := overlayGroups s;
     idb := List.fold_left
              (fun db x => fire_and_forget
                 (Store.updateOverlayVisibility now id' (negb (visible x))) db)
              hits (idb s) |}.

Definition handleToggleGroupExpanded (groupId' : string) (s : App) : App :=
  let flip g := {| gid := gid g; gname := gname g;
                   expanded := negb (expanded g); order := order g |} in
  let hits := List.filter (fun g => String.eqb (gid g) groupId') (overlayGroups s) in
  {| mapRef := mapRef s; overlays := overlays s;
     overlayGroups := List.map (fun g =>
       if String.eqb (gid g) groupId' then flip g else g) (overlayGroups s);
     idb := List.fold_left
              (fun db g => fire_and_forget (Store.saveGroup (to_stored (flip g))) db)
              hits (idb s) |}.

(** [Math.max(0, ...orders)] *)
Definition maxOrder (gs : list OverlayGroup) : Z :=
  List.fold_right Z.max 0
    (List.map order (List.filter (fun g => negb (is_default g)) gs)).

(** [handleCreateGroup]; [newGroupName] is the text of the dialog and
    [now] the [Date.now()] the id is made of. *)
Definition handleCreateGroup (newGroupName : string) (now : Z) (s : App) : App :=
  let name' := JsArray.trim newGroupName in
  if String.eqb name' "" then s
  else
    let newGroup :=
      {| gid := "group-" +:+ pretty now; gname := name'; expanded := true;
         order := maxOrder (overlayGroups s) + 1 |} in
    let withoutDefault :=
      List.filter (fun g => negb (is_default g)) (overlayGroups s) in
    let defaultGroup :=
      default DEFAULT_GROUP (List.find is_default (overlayGroups s)) in
    {| mapRef := mapRef s; overlays := overlays s;
       overlayGroups := withoutDefault ++ [newGroup; defaultGroup];
       idb := fire_and_forget (Store.saveGroup (to_stored newGroup)) (idb s) |}.

(** [handleRenameGroup]; [renameGroupId] is [null] when no dialog is open. *)
Definition handleRenameGroup (renameGroupId : option string) (renameGroupName : string)
  (s : App) : App :=
  match renameGroupId with
  | None => s
  | Some rid =>
      let name' := JsArray.trim renameGroupName in
      if String.eqb name' "" then s
      else
        let rename g := {| gid := gid g; gname := name';
                           expanded := expanded g; order := order g |} in
        let hits := List.filter (fun g => String.eqb (gid g) rid) (overlayGroups s) in
        {| mapRef := mapRef s; overlays := overlays s;
           overlayGroups := List.map (fun g =>
             if String.eqb (gid g) rid then rename g else g) (overlayGroups s);
           idb := List.fold_left
                    (fun db g => fire_and_forget (Store.saveGroup (to_stored (rename g))) db)
                    hits (idb s) |}
  end.

Definition reparent (from : string) (o : OverlayInfo) : OverlayInfo :=
  if String.eqb (groupId o) from
  then {| id := id o; name := name o; bounds := bounds o; opacity := opacity o;
          visible := visible o; groupId := "default" |}
  else o.

(** [handleDeleteGroup(groupId)] *)
Definition handleDeleteGroup (now : Z) (groupId' : string) (s : App) : App :=
  if String.eqb groupId' "default" then s
  else
    let members := List.filter (fun o => String.eqb (groupId o) groupId') (overlays s) in
    let db1 := List.fold_left
                 (fun db o => fire_and_forget
                    (Store.updateOverlayGroup now (id o) "default") db)
                 members (idb s) in
    {| mapRef := mapRef s;
       overlays := List.map (reparent groupId') (overlays s);
       overlayGroups :=
         List.filter (fun g => negb (String.eqb (gid g) groupId')) (overlayGroups s);
       idb := fire_and_forget (Store.deleteGroup groupId') db1 |}.

Definition handleMoveOverlayToGroup (now : Z) (overlayId groupId' : string) (s : App)
  : App :=
  let hits := List.filter (fun o => String.eqb (id o) overlayId) (overlays s) in
  {| mapRef := mapRef s;
     overlays := List.map (fun o =>
       if String.eqb (id o) overlayId
       then {| id := id o; name := name o; bounds := bounds o;
               opacity := opacity o; visible := visible o; groupId := groupId' |}
       else o) (overlays s);
     overlayGroups := overlayGroups s;
     idb := List.fold_left
              (fun db _ => fire_and_forget
                 (Store.updateOverlayGroup now overlayId groupId') db)
              hits (idb s) |}.

Definition on_mapRef (f : option Map -> option Map) (s : App) : App :=
  {| mapRef := f (mapRef s); overlays := overlays s;
     overlayGroups := overlayGroups s; idb := idb s |}.

(** The comparator of [sortedGroups]. *)
Definition group_cmp (a b : OverlayGroup) : Z :=
  if String.eqb (gid a) "default" then 1
  else if String.eqb (gid b) "default" then -1
  else order a - order b.

(** [[...overlayGroups].sort(...)] *)
Definition sortedGroups (gs : list OverlayGroup) : list OverlayGroup :=
  JsArray.sort group_cmp gs.

(** What the user and the environment can make the screen do. *)
Inductive Action :=
| Restore (now : Z) (env : string -> AddEnv)
| AddOverlay (file : option (string * list Byte.byte)) (env : AddEnv) (now : Z)
| RemoveOverlay (id' : string)
| OverlayOpacityChange (now : Z) (id' : string) (o : Q)
| ToggleOverlayVisibility (now : Z) (id' : string)
| ToggleGroupExpanded (groupId' : string)
| CreateGroup (newGroupName : string) (now : Z)
| RenameGroup (renameGroupId : option string) (renameGroupName : string)
| DeleteGroup (now : Z) (groupId' : string)
| MoveOverlayToGroup (now : Z) (overlayId groupId' : string)
| LocationUpdate (lng lat : Q) (accuracy : option Q)
| LocateMe (lng lat : Q)
| SelectTileSource (source : string).

Definition step (a : Action) (s : App) : App :=
  match a with
  | Restore now env => restore now env s
  | AddOverlay file env now => handleAddOverlay file env now s
  | RemoveOverlay i => handleRemoveOverlay i s
  | OverlayOpacityChange now i o => handleOverlayOpacityChange now i o s
  | ToggleOverlayVisibility now i => handleToggleOverlayVisibility now i s
  | ToggleGroupExpanded g => handleToggleGroupExpanded g s
  | CreateGroup n now => handleCreateGroup n now s
  | RenameGroup i n => handleRenameGroup i n s
  | DeleteGroup now g => handleDeleteGroup now g s
  | MoveOverlayToGroup now o g => handleMoveOverlayToGroup now o g s
  | LocationUpdate lng lat acc => on_mapRef (updateLocation lng lat acc) s
  | LocateMe lng lat => on_mapRef (flyToLocation lng lat (Some 16%Q)) s
  | SelectTileSource src => on_mapRef (setTileSource src) s
  end.

(** The states of the screen: it mounts over some map and some database
    left by earlier sessions, then handlers run. *)
Inductive reachable : App -> Prop :=
| reach_initial m db : Store.wf db -> reachable (initial m db)
| reach_step a s : reachable s -> reachable (step a s).

End Screen.

(* ===================================================================== *)
(** * The location hook ([hooks/use-location.ts])                         *)
(* ===================================================================== *)

Module Hook.

Record UserLocation := {
  latitude : Q;
  longitude : Q;
  accuracy : option Q;
  heading : option Q;
  timestamp : Z;
}.

(** What a rejected promise carries: an [Error] with its message, or
    some other value ([None]). *)
Definition Thrown : Type := option string.

(** The state of [useLocation]: the four [useState] cells, the ref, and
    around them the subscriptions the platform holds (handed out by
    [watchPositionAsync], not yet removed) and the calls of
    [startTracking] suspended at one of its two [await]s. *)
Record State := {
  location : option UserLocation;
  error : option string;
  isTracking : bool;
  isLoading : bool;
  subscriptionRef : option nat;
  watching : list nat;
  issued : nat;                    (* subscriptions handed out so far *)
  awaitingPermission : nat;        (* calls at [await requestForegroundPermissionsAsync()] *)
  awaitingWatch : nat;             (* calls at [await watchPositionAsync(...)] *)
}.

Definition initial : State :=
  {| location := None; error := None; isTracking := false; isLoading := false;
     subscriptionRef := None; watching := []; issued := 0;
     awaitingPermission := 0; awaitingWatch := 0 |}.

(** [stopTracking] *)
Definition stopTracking (s : State) : State :=
  {| location := location s; error := error s; isTracking := false;
     isLoading := isLoading s;
     subscriptionRef := None;
     watching := match subscriptionRef s with
                 | Some sub => List.filter (fun x => negb (Nat.eqb x sub)) (watching s)
                 | None => watching s
                 end;
     issued := issued s;
     awaitingPermission := awaitingPermission s; awaitingWatch := awaitingWatch s |}.

(** [startTracking] up to its first [await]. *)
Definition startTracking (s : State) : State :=
  {| location := location s; error := None; isTracking := isTracking s;
     isLoading := true;
     subscriptionRef := subscriptionRef s; watching := watching s; issued := issued s;
     awaitingPermission := S (awaitingPermission s); awaitingWatch := awaitingWatch s |}.

(** The [catch] block of [startTracking]. *)
Definition failed (err : Thrown) (s : State) : State :=
  {| location := location s;
     error := Some (default "Failed to start location tracking" err);
     isTracking := isTracking s; isLoading := false;
     subscriptionRef := subscriptionRef s; watching := watching s; issued := issued s;
     awaitingPermission := awaitingPermission s; awaitingWatch := awaitingWatch s |}.

(** [requestForegroundPermissionsAsync()] settles for a suspended call:
    it throws ([inl]), or reports whether the status is ['granted']. *)
Definition permissionSettled (r : Thrown + bool) (s : State) : State :=
  match awaitingPermission s with
  | O => s
  | S n =>
      let s0 :=
        {| location := location s; error := error s; isTracking := isTracking s;
           isLoading := isLoading s;
           subscriptionRef := subscriptionRef s; watching := watching s;
           issued := issued s;
           awaitingPermission := n; awaitingWatch := awaitingWatch s |} in
      match r with
      | inl err => failed err s0
      | inr false =>
          {| location := location s0; error := Some "Location permission denied";
             isTracking := isTracking s0; isLoading := false;
             subscriptionRef := subscriptionRef s0; watching := watching s0;
             issued := issued s0;
             awaitingPermission := n; awaitingWatch := awaitingWatch s0 |}
      | inr true =>
          let s1 := stopTracking s0 in
          {| location := location s1; error := error s1; isTracking := isTracking s1;
             isLoading := isLoading s1;
             subscriptionRef := subscriptionRef s1; watching := watching s1;
             issued := issued s1;
             awaitingPermission := n; awaitingWatch := S (awaitingWatch s1) |}
      end
  end.

(** [watchPositionAsync(...)] settles for a suspended call: it throws, or
    hands out a new subscription, which goes into the ref. *)
Definition watchSettled (r : option Thrown) (s : State) : State :=
  match awaitingWatch s with
  | O => s
  | S n =>
      match r with
      | Some err =>
          failed err
            {| location := location s; error := error s; isTracking := isTracking s;
               isLoading := isLoading s;
               subscriptionRef := subscriptionRef s; watching := watching s;
               issued := issued s;
               awaitingPermission := awaitingPermission s; awaitingWatch := n |}
      | None =>
          {| location := location s; error := error s; isTracking := true;
             isLoading := isLoading s;
             subscriptionRef := Some (issued s);
             watching := watching s ++ [issued s];
             issued := S (issued s);
             awaitingPermission := awaitingPermission s; awaitingWatch := n |}
      end
  end.

(** The callback given to [watchPositionAsync], called by the
    subscription [sub] as long as it has not been removed. *)
Definition positionReported (sub : nat) (l : UserLocation) (s : State) : State :=
  if List.existsb (Nat.eqb sub) (watching s) then
    {| location := Some l; error := error s; isTracking := isTracking s;
       isLoading := false;
       subscriptionRef := subscriptionRef s; watching := watching s; issued := issued s;
       awaitingPermission := awaitingPermission s; awaitingWatch := awaitingWatch s |}
  else s.

(** What [getCurrentPosition] meets: the permission request throws or
    gives the status, and then [getCurrentPositionAsync] throws or gives
    a position. *)
Inductive PositionOutcome :=
| PermissionThrows (err : Thrown)
| PermissionDenied
| PositionThrows (err : Thrown)
| PositionFound (l : UserLocation).

(** [getCurrentPosition()], from call to result. *)
Definition getCurrentPosition (oc : PositionOutcome) (s : State)
  : option UserLocation * State :=
  let with_error e :=
    {| location := location s; error := Some e; isTracking := isTracking s;
       isLoading := isLoading s;
       subscriptionRef := subscriptionRef s; watching := watching s; issued := issued s;
       awaitingPermission := awaitingPermission s; awaitingWatch := awaitingWatch s |} in
  match oc with
  | PermissionThrows err | PositionThrows err =>
      (None, with_error (default "Failed to get current position" err))
  | PermissionDenied => (None, with_error "Location permission denied")
  | PositionFound l =>
      (Some l,
       {| location := Some l; error := error s; isTracking := isTracking s;
          isLoading := isLoading s;
          subscriptionRef := subscriptionRef s; watching := watching s;
          issued := issued s;
          awaitingPermission := awaitingPermission s; awaitingWatch := awaitingWatch s |})
  end.

(** What happens to the hook. *)
Inductive Event :=
| StartTracking
| StopTracking
| PermissionSettled (r : Thrown + bool)
| WatchSettled (r : option Thrown)
| PositionReported (sub : nat) (l : UserLocation)
| GetCurrentPosition (oc : PositionOutcome).

Definition step (e : Event) (s : State) : State :=
  match e with
  | StartTracking => startTracking s
  | StopTracking => stopTracking s
  | PermissionSettled r => permissionSettled r s
  | WatchSettled r => watchSettled r s
  | PositionReported sub l => positionReported sub l s
  | GetCurrentPosition oc => snd (getCurrentPosition oc s)
  end.

Definition run (es : list Event) (s : State) : State :=
  List.fold_left (fun s e => step e s) es s.

(** The states of the hook. *)
Inductive reachable : State -> Prop :=
| hook_initial : reachable initial
| hook_step e s : reachable s -> reachable (step e s).

End Hook.

(* ===================================================================== *)
(** * The Google Drive wrapper (token state and REST calls)              *)
(* ===================================================================== *)

Module Drive.

Record DriveUser := { email : string; name : string; picture : string }.

Inductive Method := GET | POST | PATCH | DELETE.

(** The REST calls the module makes, by the URL they go to. *)
Inductive Endpoint :=
| FolderSearch                          (* [DRIVE_API/files?q=name='field-note-app' and ...] *)
| Files                                 (* [DRIVE_API/files] *)
| Upload (existingFileId : option string)
                                        (* [UPLOAD_API/files[/id]?uploadType=multipart...] *)
| FileMedia (fileId : string)           (* [DRIVE_API/files/id?alt=media] *)
| File (fileId : string).               (* [DRIVE_API/files/id] *)

(** A [fetch] as it leaves: method, URL, the token of the
    [Authorization: Bearer] header, the body (empty when the call gives
    none).  Other headers, the content type among them, are not
    recorded. *)
Record Request := {
  method : Method;
  endpoint : Endpoint;
  bearer : string;
  body : list Byte.byte;
}.

(** What [res.json()] gives, as far as the module reads it: [files] (the
    ids of the files found) and [id]; a field that is missing is
    [undefined]. *)
Record Json := { files : option (list string); id : option string }.

(** A response: its status, and its body parsed as JSON ([None] when
    [res.json()] throws). *)
Record Response := { status : Z; json : option Json; bytes : list Byte.byte }.

(** [res.ok] *)
Definition ok (r : Response) : bool := (200 <=? status r) && (status r <=? 299).

(** The module-level variables, the requests sent and the tokens
    revoked. *)
Record Session := {
  accessToken : option string;
  currentUser : option DriveUser;
  appFolderId : option string;
  sent : list Request;
  revoked : list string;
}.

(** A string or [null] in a condition: [null] and the empty string are
    falsy. *)
Definition truthy (o : option string) : bool :=
  match o with
  | Some s => negb (String.eqb s "")
  | None => false
  end.

(** [signOut()] *)
Definition signOut (s : Session) : Session :=
  {| accessToken := None; currentUser := None; appFolderId := None;
     sent := sent s;
     revoked := revoked s ++ (if truthy (accessToken s)
                              then [default "" (accessToken s)] else []) |}.

Definition getUser (s : Session) : option DriveUser := currentUser s.

(** [isSignedIn()]: [accessToken !== null] *)
Definition isSignedIn (s : Session) : bool :=
  match accessToken s with Some _ => true | None => false end.

(** [driveRequest(url, options)]; [net] is what [fetch] meets: a
    response, or a failure of the network ([None]). *)
Definition driveRequest (net : option Response) (m : Method) (e : Endpoint)
  (b : list Byte.byte) : Js Session Response :=
  fun s =>
    if truthy (accessToken s) then
      let s1 :=
        {| accessToken := accessToken s; currentUser := currentUser s;
           appFolderId := appFolderId s;
           sent := sent s ++ [{| method := m; endpoint := e;
                                 bearer := default "" (accessToken s); body := b |}];
           revoked := revoked s |} in
      match net with
      | None => (None, s1)
      | Some res =>
          if status res =? 401 then
            (None, {| accessToken := None; currentUser := None;
                      appFolderId := appFolderId s1; sent := sent s1;
                      revoked := revoked s1 |})
          else (Some res, s1)
      end
    else (None, s).

(** [await res.json()] *)
Definition parsed (res : Response) : Js Session Json :=
  fun s => (json res, s).

Definition setAppFolderId (f : option string) : Js Session unit :=
  modify (fun s =>
    {| accessToken := accessToken s; currentUser := currentUser s;
       appFolderId := f; sent := sent s; revoked := revoked s |}).

Definition APP_FOLDER_NAME : string := "field-note-app".

(** [JSON.stringify(s)] of a string that needs no escape: [s] between
    double quotes. *)
Definition json_string (s : string) : string :=
  String (ascii_of_nat 34) (s +:+ String (ascii_of_nat 34) "").

(** [JSON.stringify({ name: APP_FOLDER_NAME,
                      mimeType: 'application/vnd.google-apps.folder' })],
    the body of the request that creates the folder. *)
Definition folder_metadata : list Byte.byte :=
  list_byte_of_string
    ("{" +:+ json_string "name" +:+ ":" +:+ json_string APP_FOLDER_NAME +:+ ","
     +:+ json_string "mimeType" +:+ ":"
     +:+ json_string "application/vnd.google-apps.folder" +:+ "}").

(** [getOrCreateAppFolder()]; [search] and [create] are what the two
    requests meet.  The result is the folder id, [undefined] ([None])
    when the JSON of the created folder has no [id]. *)
Definition getOrCreateAppFolder (search create : option Response)
  : Js Session (option string) :=
  s ← get_state;
  if truthy (appFolderId s) then mret (appFolderId s)
  else
    res ← driveRequest search GET FolderSearch [];
    data ← parsed res;
    match files data with
    | Some (f :: _) =>
        _ ← setAppFolderId (Some f);
        mret (Some f)
    | _ =>
        createRes ← driveRequest create POST Files folder_metadata;
        folder ← parsed createRes;
        _ ← setAppFolderId (id folder);
        mret (id folder)
    end.

(** [deletePMTilesFile(fileId)] *)
Definition deletePMTilesFile (net : option Response) (fileId : string) : Js Session unit :=
  res ← driveRequest net DELETE (File fileId) [];
  if negb (ok res) && negb (status res =? 404) then throw else mret tt.

(** [downloadPMTiles(fileId)] *)
Definition downloadPMTiles (net : option Response) (fileId : string)
  : Js Session (list Byte.byte) :=
  res ← driveRequest net GET (FileMedia fileId) [];
  if negb (ok res) then throw else mret (bytes res).

(** [new Uint8Array(n)] *)
Definition zeros (n : nat) : list Byte.byte := List.repeat Byte.x00 n.

(** [body.set(src, offset)]: a [RangeError] when [src] does not fit. *)
Definition set (src : list Byte.byte) (offset : nat) (b : list Byte.byte)
  : option (list Byte.byte) :=
  if (offset + length src <=? length b)%nat
  then Some (List.firstn offset b ++ src ++ List.skipn (offset + length src) b)
  else None.

(** The multipart body [uploadPMTiles] and [uploadMetadata] assemble from
    the encoded prefix, the content and the encoded suffix. *)
Definition assemble (prefix data suffix : list Byte.byte) : option (list Byte.byte) :=
  b1 ← set prefix 0 (zeros (length prefix + length data + length suffix));
  b2 ← set data (length prefix) b1;
  set suffix (length prefix + length data) b2.

End Drive.


(* ===================================================================== *)
(** * Vocabulary of the properties                                        *)
(* ===================================================================== *)

Section PulseTerms.
Import Pulse.

(** [lo <= r <= hi], as the comparison of doubles decides it. *)
Definition between (lo hi r : float) : Prop :=
  (lo <=? r)%float = true /\ (r <=? hi)%float = true.

End PulseTerms.

Section GroupTerms.
Import Screen.

(** Ascending [order]. *)
Definition by_order (a b : OverlayGroup) : Prop := order a <= order b.

End GroupTerms.

(** A stored record in which every field is present. *)
Definition all_present (r : Store.RawOverlay) : Prop :=
  is_Some (Store.raw_opacity r) /\ is_Some (Store.raw_visible r) /\
  is_Some (Store.raw_groupId r) /\ is_Some (Store.raw_timestamp r).

(** The record [r] with one field replaced and all others as they are. *)
Definition with_opacity (o : Q) (r : Store.RawOverlay) : Store.RawOverlay :=
  {| Store.raw_id := Store.raw_id r; Store.raw_filename := Store.raw_filename r;
     Store.raw_data := Store.raw_data r; Store.raw_opacity := Some o;
     Store.raw_visible := Store.raw_visible r; Store.raw_groupId := Store.raw_groupId r;
     Store.raw_timestamp := Store.raw_timestamp r; Store.raw_url := Store.raw_url r |}.

(** The same for [visible]. *)
Definition with_visible (v : bool) (r : Store.RawOverlay) : Store.RawOverlay :=
  {| Store.raw_id := Store.raw_id r; Store.raw_filename := Store.raw_filename r;
     Store.raw_data := Store.raw_data r; Store.raw_opacity := Store.raw_opacity r;
     Store.raw_visible := Some v; Store.raw_groupId := Store.raw_groupId r;
     Store.raw_timestamp := Store.raw_timestamp r; Store.raw_url := Store.raw_url r |}.

Section RendererTerms.
Import Renderer.

(** An engine for the examples: a flight to a latitude outside [-90, 90]
    is refused, the zoom is kept within [0, 22], and bounds are framed
    from their middle at zoom 10. *)
Definition example_engine : Engine :=
  {| flyTo_lands := fun _ asked =>
       let lat := snd (fst asked) in
       let z := snd asked in
       if (Qle_bool (-90%Q) lat && Qle_bool lat 90%Q)%bool
       then Some (fst asked, if Qle_bool z 0%Q then 0%Q
                             else if Qle_bool 22%Q z then 22%Q else z)
       else None;
     fitBounds_lands := fun _ b =>
       let '(w, s, e, n) := b in (((w + e) / 2, (s + n) / 2), 10)%Q |}.

(** The map after [addRasterOverlay] has removed what was bound to [id]. *)
Definition cleared (id : string) (m : Map) : Map :=
  let m1 := if hasLayer m (layerId id) then removeLayer (layerId id) m else m in
  match getSource m1 (sourceId id) with
  | Some _ => removeSource (sourceId id) m1
  | None => m1
  end.

(** The source and the layer [addRasterOverlay] registers. *)
Definition overlay_source (url : string) : Source :=
  RasterUrl ("pmtiles://" +:+ url) 256.

Definition overlay_layer (id : string) : Layer :=
  {| layer_id := layerId id; layer_source := Some (sourceId id);
     visibility := true; raster_opacity := Some 0.8%Q |}.

(** [beforeLayerId]: the overlay goes below the location layers. *)
Definition below_location (m : Map) : option string :=
  if hasLayer m "user-location-accuracy" then Some "user-location-accuracy" else None.

(** The ids of the layers, in paint order. *)
Definition layer_ids (m : Map) : list string := List.map layer_id (layers m).

End RendererTerms.

(** The failures of [addRasterOverlay]: no header, or a renderer call
    that throws. *)
Definition fails (oc : Renderer.Outcome) : Prop :=
  Renderer.header oc = None \/ Renderer.addSource_throws oc = true \/
  Renderer.addLayer_throws oc = true \/ Renderer.fitBounds_throws oc = true.

(** C2 as stated: whenever the call fails, the result is [null] and no
    source and no layer is bound to the id afterwards. *)
Definition no_partial_state (oc : Renderer.Outcome) (m : Renderer.Map) (id url : string)
  : Prop :=
  fails oc ->
  exists m', Renderer.addRasterOverlay oc id url (Some m) = (None, Some m') /\
             Renderer.getSource m' (Renderer.sourceId id) = None /\
             Renderer.getLayer m' (Renderer.layerId id) = None.

Section BridgeTerms.
Import Bridge.

(** The promise state of [b'] is that of [b]. *)
Definition same_promises (b b' : Bridge) : Prop :=
  overlayResolveRef b' = overlayResolveRef b /\ timers b' = timers b /\
  resolved b' = resolved b.

(** The call [p] is waiting: the ref holds its [resolve], its timer is
    the only one pending. *)
Definition armed (base : list Resolution) (due : Z) (p : nat) (b : Bridge) : Prop :=
  overlayResolveRef b = Some p /\ timers b = [(due, p)] /\ resolved b = base.

(** The timer of [p] has run and resolved it with [null]. *)
Definition timed_out (base : list Resolution) (due : Z) (p : nat) (b : Bridge) : Prop :=
  overlayResolveRef b = None /\ timers b = [] /\
  resolved b = base ++ [{| at_time := due; promise := p; value := None |}].

End BridgeTerms.

(** C3 as stated, first half: whatever the state in which the call is
    made, if nothing but time follows, the promise is resolved with
    [null] once 10 s have passed. *)
Definition resolves_null_after_timeout (b : Bridge.Bridge) (id url : string) : Prop :=
  forall t, Bridge.clock b + 10000 <= t ->
    let '(p, b1) := Bridge.addRasterOverlay id url b in
    exists r, Bridge.settled (Bridge.tick t b1) p = Some r /\ Bridge.value r = None.

Section SystemTerms.
Import Bridge.

(** [new] is a list of calls [resolve(null)]. *)
Definition nulls (new : list Resolution) : Prop :=
  Forall (fun r => value r = None) new.

End SystemTerms.

(** C10 as stated: in whatever state of bridge and page the call is made,
    once the page has run the command and 10 s have passed the promise is
    resolved with [null]. *)
Definition page_call_resolves_null (props : Bridge.Props) (s : Bridge.System)
  (id url : string) : Prop :=
  forall t, Bridge.clock (Bridge.rn s) + 10000 <= t ->
    let s1 := Bridge.sys_step props (Bridge.SysCall (Bridge.AddRasterOverlay id url)) s in
    let s' := Bridge.sys_step props (Bridge.SysTick t)
                (Bridge.sys_step props Bridge.SysDeliver s1) in
    exists r, Bridge.settled (Bridge.rn s') (Bridge.created (Bridge.rn s)) = Some r /\
              Bridge.value r = None.

Section ScreenTerms.
Import Screen.

(** How many groups have id ["default"]. *)
Definition default_count (gs : list OverlayGroup) : nat :=
  length (List.filter is_default gs).

(** The overlay with id [k] is listed on the screen as a member of the
    group [g]. *)
Definition listed_in (g k : string) (s : App) : bool :=
  List.existsb (fun o => (String.eqb (id o) k && String.eqb (groupId o) g)%bool)
               (overlays s).

(** What holds in every state of the screen: the database is well
    formed and one group has id ["default"]. *)
Definition screen_inv (s : App) : Prop :=
  Store.wf (idb s) /\ default_count (overlayGroups s) = 1%nat.

End ScreenTerms.



(* ===================================================================== *)
(** * Vocabulary of the further properties                                *)
(* ===================================================================== *)

Section LayerTerms.
Import Renderer.

(** The layer [l] with its layout visibility set to [v]. *)
Definition with_visibility (v : bool) (l : Layer) : Layer :=
  {| layer_id := layer_id l; layer_source := layer_source l;
     visibility := v; raster_opacity := raster_opacity l |}.

(** The layer [l] with its paint property ['raster-opacity'] set to [o]. *)
Definition with_raster_opacity (o : Q) (l : Layer) : Layer :=
  {| layer_id := layer_id l; layer_source := layer_source l;
     visibility := visibility l; raster_opacity := Some o |}.

(** [id] is one of [ids]. *)
Definition among (ids : list string) (id : string) : bool :=
  List.existsb (String.eqb id) ids.

(** Set the visibility of the layers named in [ids], leave the others. *)
Definition show_only (ids : list string) (v : bool) (l : Layer) : Layer :=
  if among ids (layer_id l) then with_visibility v l else l.

(** Whether the basemap layer [id] belongs to the tile source [source]:
    the vector layers for ["pmtiles"], else the one raster layer
    [layerMap] names, if it names one. *)
Definition selected (source id : string) : bool :=
  if String.eqb source "pmtiles" then among PMTILES_LAYER_IDS id
  else match layerMap source with
       | Some shown => String.eqb id shown
       | None => false
       end.

(** What [setTileSource] makes of a layer: a basemap layer is shown or
    hidden as [selected] says, any other layer is left alone. *)
Definition retile (source : string) (l : Layer) : Layer :=
  if among (allRasterLayers ++ PMTILES_LAYER_IDS) (layer_id l)
  then with_visibility (selected source (layer_id l)) l
  else l.

(** The layers other than the one of overlay [id]. *)
Definition other_layers (id : string) (ls : list Layer) : list Layer :=
  List.filter (fun l => negb (String.eqb (layer_id l) (layerId id))) ls.

End LayerTerms.

Section VariantTerms.
Import Renderer Bridge.

(** Nothing on the map is bound to the overlay [id]. *)
Definition no_overlay (id : string) (m : Map) : Prop :=
  getLayer m (layerId id) = None /\ getSource m (sourceId id) = None.

(** The WebView is mounted and the page has run every script injected so
    far. *)
Definition caught_up (s : System) : Prop :=
  webView (rn s) = true /\ delivered s = length (injected (rn s)).

(** A method of the bridged handle is called and the page runs the
    script it injects. *)
Definition delivered_call (props : Props) (method : Bridge -> Bridge) (s : System)
  : System :=
  sys_step props SysDeliver
    {| rn := method (rn s); page := page s; delivered := delivered s |}.

(** The map of the page. *)
Definition shown (s : System) : Map := page_map (page s).

End VariantTerms.

Section StoreTerms.
Import Store.

(** The record [r] as [normalizeOverlay] reads it at time [now], written
    back: the fields it lacks hold their defaults. *)
Definition with_defaults (now : Z) (r : RawOverlay) : RawOverlay :=
  to_raw (normalizeOverlay now r).

(** The record [r] with its group replaced. *)
Definition with_groupId (g : string) (r : RawOverlay) : RawOverlay :=
  {| raw_id := raw_id r; raw_filename := raw_filename r; raw_data := raw_data r;
     raw_opacity := raw_opacity r; raw_visible := raw_visible r;
     raw_groupId := Some g; raw_timestamp := raw_timestamp r; raw_url := raw_url r |}.

(** The same for the file name. *)
Definition with_filename (f : string) (r : RawOverlay) : RawOverlay :=
  {| raw_id := raw_id r; raw_filename := f; raw_data := raw_data r;
     raw_opacity := raw_opacity r; raw_visible := raw_visible r;
     raw_groupId := raw_groupId r; raw_timestamp := raw_timestamp r;
     raw_url := raw_url r |}.

(** Ascending [order] of stored groups. *)
Definition by_g_order (a b : StoredGroup) : Prop := g_order a <= g_order b.

(** The key [a] is not after the key [b] in the order of IndexedDB: by
    UTF-16 code units. *)
Definition key_le (a b : string) : Prop :=
  JsArray.compare_units (JsArray.utf16 a) (JsArray.utf16 b) <> Gt.

(** The database cannot be opened: it was written by a later schema. *)
Definition unopenable (db : IDB) : Prop := (DB_VERSION < version db)%nat.

(** The operation rejects and the database is as before. *)
Definition rejects {A} (op : Js IDB A) (db : IDB) : Prop := op db = (None, db).

End StoreTerms.

Section ScreenMoreTerms.
Import Screen.

(** The list entry [o] shows the stored record [r]: its id, file name,
    and the settings [normalizeOverlay] reads from it. *)
Definition shows (r : Store.RawOverlay) (o : OverlayInfo) : Prop :=
  id o = Store.raw_id r /\ name o = Store.raw_filename r /\
  opacity o = default 0.8%Q (Store.raw_opacity r) /\
  visible o = default true (Store.raw_visible r) /\
  groupId o = default "default" (Store.raw_groupId r).

(** The list entry [o] is what the restore effect makes of the stored
    record [r]: it shows the record, with the bounds read from the header
    of its file. *)
Definition restored (env : string -> AddEnv) (r : Store.RawOverlay) (o : OverlayInfo)
  : Prop :=
  shows r o /\
  Renderer.header (outcome (env (Store.raw_id r))) = Some (bounds o).

(** The groups that are not the default group. *)
Definition user_groups (gs : list OverlayGroup) : list OverlayGroup :=
  List.filter (fun g => negb (is_default g)) gs.

End ScreenMoreTerms.

Section MarkerTerms.
Import Renderer.

(** The three layers of the position marker are the topmost layers, halo
    first, and no layer below them carries one of their ids. *)
Definition marker_on_top (m : Map) : Prop :=
  exists below a p d,
    layers m = below ++ [a; p; d] /\
    layer_id a = "user-location-accuracy" /\
    layer_id p = "user-location-pulse" /\
    layer_id d = "user-location-dot" /\
    Forall (fun l => among location_layers (layer_id l) = false) below.

(** The same for the map behind [mapRef]. *)
Definition marked (mref : option Map) : Prop :=
  exists m, mref = Some m /\ marker_on_top m.

End MarkerTerms.

Section PulseMoreTerms.
Import Pulse.

(** The loop is where it started: radius 18, moving up. *)
Definition at_start (s : PulseState) : bool :=
  ((pulseR s =? 18)%float && (pulseDir s =? 1)%float)%bool.

End PulseMoreTerms.

Section HookTerms.
Import Hook.

(** No call of [startTracking] is suspended, and the platform holds the
    subscription in the ref and no other. *)
Definition at_rest (s : State) : Prop :=
  awaitingPermission s = 0%nat /\ awaitingWatch s = 0%nat /\
  watching s = match subscriptionRef s with Some sub => [sub] | None => [] end.

(** What holds of the hook whatever happens: it reports tracking exactly
    when it holds a subscription, the subscription it holds is live, and
    the live subscriptions are distinct ones handed out before. *)
Definition hook_inv (s : State) : Prop :=
  (isTracking s = true <-> is_Some (subscriptionRef s)) /\
  (forall sub, subscriptionRef s = Some sub -> List.In sub (watching s)) /\
  List.NoDup (watching s) /\
  Forall (fun sub => (sub < issued s)%nat) (watching s).

End HookTerms.

Section DriveTerms.
Import Drive.

(** The operation rejects, leaves the module state as it is and sends no
    request. *)
Definition refused {A} (op : Js Session A) (s : Session) : Prop := op s = (None, s).

(** The requests sent by [op], in order. *)
Definition sent_by {A} (op : Js Session A) (s : Session) : list Request :=
  List.skipn (length (sent s)) (sent (snd (op s))).

End DriveTerms.
(* ===================================================================== *)
(** * Properties                                                          *)
(* ===================================================================== *)

(** ** The pulsing halo *)

Section PulseFacts.
Import Pulse.

Lemma frames_state n : fst (frames n) = Nat.iter n advance init.
Proof.
  induction n as [|n IH]; [reflexivity|].
  cbn [frames animatePulse fst Nat.iter]. now rewrite IH.
Qed.

(** After 54 frames radius and direction are the doubles the loop
    started from. *)
Lemma advance_cycle : Nat.iter 54 advance init = init.
Proof. vm_compute. reflexivity. Qed.

Lemma frames_period n : fst (frames (n + 54)) = fst (frames n).
Proof. now rewrite !frames_state, Nat.iter_add, advance_cycle. Qed.

Lemma frames_periods q r : fst (frames (q * 54 + r)) = fst (frames r).
Proof.
  induction q as [|q IH]; [reflexivity|].
  replace (S q * 54 + r)%nat with ((q * 54 + r) + 54)%nat by lia.
  now rewrite frames_period.
Qed.

(** What a test finds on the first 54 frames it finds on every frame. *)
Lemma frames_all (P : PulseState -> bool) :
  List.forallb (fun k => P (fst (frames k))) (List.seq 0 54) = true ->
  forall n, P (fst (frames n)) = true.
Proof.
  intros H n. rewrite List.forallb_forall in H.
  rewrite (Nat.div_mod_eq n 54), (Nat.mul_comm 54), frames_periods.
  apply H, List.in_seq. pose proof (Nat.mod_upper_bound n 54). lia.
Qed.

Lemma frames_layer n :
  snd (frames (S n)) =
  Some {| circle_radius := pulseR (fst (frames (S n)));
          circle_opacity := Some (pulseOpacity (pulseR (fst (frames (S n))))) |}.
Proof.
  assert (H : forall k, exists p, snd (frames k) = Some p).
  { induction k as [|k [p Hp]]; [eexists; reflexivity|].
    cbn [frames animatePulse snd]. rewrite Hp. eexists; reflexivity. }
  destruct (H n) as [p Hp]. cbn [frames animatePulse snd fst]. now rewrite Hp.
Qed.

End PulseFacts.

(** C7, as stated, fails at both bounds.  On frame 47 the radius written
    to the layer is the double 15.899999999999995, below 16: the test
    [pulseR <= 16] only fires once the radius has passed 16.  On frame 20
    it is 24.000000000000014, above 24: twenty steps of 0.3 from 18 have
    rounded upwards. *)
Lemma pulse_radius_below_16 :
  let s := fst (Pulse.frames 47) in
  Pulse.pulseR s = 15.899999999999995%float /\
  (16 <=? Pulse.pulseR s)%float = false /\
  (exists p, snd (Pulse.frames 47) = Some p /\
             Pulse.circle_radius p = 15.899999999999995%float) /\
  Pulse.pulseR (fst (Pulse.frames 20)) = 24.000000000000014%float /\
  (Pulse.pulseR (fst (Pulse.frames 20)) <=? 24)%float = false.
Proof.
  split; [vm_compute; reflexivity|]. split; [vm_compute; reflexivity|].
  split; [|split; vm_compute; reflexivity].
  eexists. split; vm_compute; reflexivity.
Qed.

(** C7, amended: in every state of the animation loop the radius, as the
    doubles of the code have it, lies between 15.899999999999995 and
    24.000000000000014 (the lower bound 16 is passed within the step
    that reaches it, the upper bound 24 by rounding), both ends are
    reached (frames 47 and 20), and on every frame the layer receives
    that radius together with the opacity
    [0.4 - ((radius - 16) / 8) * 0.3] computed in doubles. *)
Theorem pulse_radius_range_and_opacity (n : nat) :
  between 15.899999999999995 24.000000000000014 (Pulse.pulseR (fst (Pulse.frames n))) /\
  Pulse.pulseR (fst (Pulse.frames 47)) = 15.899999999999995%float /\
  Pulse.pulseR (fst (Pulse.frames 20)) = 24.000000000000014%float /\
  exists p o,
    snd (Pulse.frames (S n)) = Some p /\
    Pulse.circle_radius p = Pulse.pulseR (fst (Pulse.frames (S n))) /\
    Pulse.circle_opacity p = Some o /\
    o = (0.4 - ((Pulse.circle_radius p - 16) / 8) * 0.3)%float.
Proof.
  split.
  - pose proof (frames_all
      (fun s => ((15.899999999999995 <=? Pulse.pulseR s)%float
                 && (Pulse.pulseR s <=? 24.000000000000014)%float)%bool)) as H.
    specialize (H ltac:(vm_compute; reflexivity) n).
    apply andb_true_iff in H. exact H.
  - split; [vm_compute; reflexivity|]. split; [vm_compute; reflexivity|].
    eexists _, _. split; [apply frames_layer|].
    cbn [Pulse.circle_radius Pulse.circle_opacity].
    split; [reflexivity|]. split; reflexivity.
Qed.


(** ** Sorting *)

Section SortFacts.
Context {A : Type} (cmp : A -> A -> Z).

Lemma insert_sorted_perm x (l : list A) :
  Permutation (JsArray.insert_sorted cmp x l) (x :: l).
Proof.
  induction l as [|y ys IH]; cbn; [reflexivity|].
  destruct (cmp x y <=? 0); [reflexivity|].
  rewrite IH. apply perm_swap.
Qed.

Lemma sort_perm (l : list A) : Permutation (JsArray.sort cmp l) l.
Proof.
  induction l as [|x l IH]; cbn; [reflexivity|].
  unfold JsArray.sort in IH. rewrite insert_sorted_perm. now constructor.
Qed.

End SortFacts.

Section GroupSort.
Import Screen.

Lemma insert_default_last d (l : list OverlayGroup) :
  gid d = "default" -> JsArray.insert_sorted group_cmp d l = l ++ [d].
Proof.
  intros Hd. induction l as [|y ys IH]; cbn; [reflexivity|].
  unfold group_cmp at 1. rewrite Hd. cbn. now rewrite IH.
Qed.

Lemma insert_user_split x (us ds : list OverlayGroup) :
  gid x <> "default" ->
  Forall (fun g => gid g <> "default") us ->
  Forall (fun g => gid g = "default") ds ->
  StronglySorted by_order us ->
  exists us',
    JsArray.insert_sorted group_cmp x (us ++ ds) = us' ++ ds /\
    Forall (fun g => gid g <> "default") us' /\
    StronglySorted by_order us' /\
    Permutation us' (x :: us).
Proof.
  intros Hx Hus Hds Hsorted.
  assert (Ex : String.eqb (gid x) "default" = false) by (apply String.eqb_neq; assumption).
  induction us as [|u us IH].
  - exists [x]. cbn.
    split; [|split; [repeat constructor; assumption | split; [repeat constructor | reflexivity]]].
    destruct ds as [|d ds]; cbn; [reflexivity|].
    apply Forall_cons in Hds as [Hd _].
    unfold group_cmp. rewrite Ex, Hd. reflexivity.
  - apply Forall_cons in Hus as [Hu Hus].
    apply StronglySorted_inv in Hsorted as [Hsorted Hall].
    assert (Eu : String.eqb (gid u) "default" = false) by (apply String.eqb_neq; assumption).
    cbn. unfold group_cmp at 1. rewrite Ex, Eu.
    destruct (order x - order u <=? 0) eqn:E.
    + exists (x :: u :: us). apply Z.leb_le in E.
      split; [reflexivity|]. split; [repeat constructor; assumption|].
      split; [|reflexivity].
      constructor; [constructor; assumption|].
      constructor; [unfold by_order; lia|].
      eapply Forall_impl; [exact Hall|]. unfold by_order. intros a Ha. cbn in Ha. lia.
    + destruct (IH Hus Hsorted) as (us' & Heq & Hnd & Hs & Hp).
      exists (u :: us'). rewrite Heq. apply Z.leb_gt in E.
      split; [reflexivity|]. split; [constructor; assumption|].
      split; [|rewrite Hp; apply perm_swap].
      constructor; [exact Hs|].
      rewrite Forall_forall. intros a Ha.
      rewrite Hp in Ha. apply elem_of_cons in Ha as [-> | Ha].
      * unfold by_order. lia.
      * rewrite Forall_forall in Hall. now apply Hall.
Qed.

Lemma sortedGroups_split (gs : list OverlayGroup) :
  exists users defaults,
    sortedGroups gs = users ++ defaults /\
    Forall (fun g => gid g <> "default") users /\
    Forall (fun g => gid g = "default") defaults /\
    StronglySorted by_order users.
Proof.
  induction gs as [|g gs (us & ds & Heq & Hus & Hds & Hs)].
  - exists [], []. repeat split; constructor.
  - unfold sortedGroups, JsArray.sort in *. cbn [List.fold_right]. rewrite Heq.
    destruct (String.eqb_spec (gid g) "default") as [Hd | Hd].
    + exists us, (ds ++ [g]). rewrite insert_default_last by assumption.
      rewrite app_assoc. split; [reflexivity|]. split; [assumption|].
      split; [|assumption].
      apply Forall_app; split; [assumption | constructor; auto].
    + destruct (insert_user_split g us ds Hd Hus Hds Hs) as (us' & Heq' & Hnd & Hs' & _).
      exists us', ds. auto.
Qed.

End GroupSort.

(** C6.  [sortedGroups] keeps every group, lists the groups whose id is
    not ["default"] first, in ascending [order], and the group with id
    ["default"] last whatever its [order]; A(5), B(1), default(9999)
    come out as [B, A, default] from each of their six arrangements. *)
Theorem sortedGroups_users_then_default (gs : list Screen.OverlayGroup) :
  Permutation (Screen.sortedGroups gs) gs /\
  (exists users defaults,
     Screen.sortedGroups gs = users ++ defaults /\
     Forall (fun g => Screen.gid g <> "default") users /\
     Forall (fun g => Screen.gid g = "default") defaults /\
     StronglySorted (fun a b => Screen.order a <= Screen.order b) users) /\
  let A := {| Screen.gid := "A"; Screen.gname := "A";
              Screen.expanded := true; Screen.order := 5 |} in
  let B := {| Screen.gid := "B"; Screen.gname := "B";
              Screen.expanded := true; Screen.order := 1 |} in
  Forall (fun l => Screen.sortedGroups l = [B; A; Screen.DEFAULT_GROUP])
         (permutations [A; B; Screen.DEFAULT_GROUP]).
Proof.
  split; [apply sort_perm|]. split; [apply sortedGroups_split|].
  cbv zeta. vm_compute permutations.
  repeat constructor.
Qed.

(** ** The overlay store *)

Section StoreFacts.
Import Store.

Lemma openDB_ok (db : IDB) :
  (version db <= DB_VERSION)%nat ->
  openDB db = (Some tt, {| version := DB_VERSION; overlays := overlays db;
                           groups := groups db |}).
Proof.
  intros H. unfold openDB.
  destruct (DB_VERSION <? version db)%nat eqn:E; [|reflexivity].
  apply Nat.ltb_lt in E. lia.
Qed.

Lemma filter_key_absent {V} (l : list (string * V)) (i : string) :
  ~ List.In i (List.map fst l) ->
  List.filter (fun kv => String.eqb (fst kv) i) l = [].
Proof.
  induction l as [|[k w] l IH]; intros Hni; [reflexivity|].
  cbn in *. destruct (String.eqb_spec k i) as [-> | _]; [tauto|].
  apply IH. tauto.
Qed.

(** Among pairs with distinct keys, the key picks one pair. *)
Lemma filter_key_unique {V} (l : list (string * V)) (i : string) (v : V) :
  List.NoDup (List.map fst l) -> List.In (i, v) l ->
  List.filter (fun kv => String.eqb (fst kv) i) l = [(i, v)].
Proof.
  induction l as [|[k w] l IH]; intros Hnd Hin; [destruct Hin|].
  cbn in Hnd. apply List.NoDup_cons_iff in Hnd as [Hk Hnd]. cbn.
  destruct Hin as [Heq | Hin].
  - inversion Heq; subst. rewrite String.eqb_refl. f_equal.
    now apply filter_key_absent.
  - destruct (String.eqb_spec k i) as [-> | _]; [|now apply IH].
    exfalso. apply Hk. change i with (fst (i, v)). now apply List.in_map.
Qed.

Lemma sorted_map_to_list {V} (m : gmap string V) :
  let l := JsArray.sort key_cmp (map_to_list m) in
  List.NoDup (List.map fst l) /\
  forall k v, List.In (k, v) l <-> m !! k = Some v.
Proof.
  cbv zeta. pose proof (sort_perm (@key_cmp V) (map_to_list m)) as Hp. split.
  - apply (Permutation_NoDup (l := List.map fst (map_to_list m))).
    + apply Permutation_map. symmetry. exact Hp.
    + replace (List.map fst (map_to_list m)) with ((map_to_list m).*1).
      * apply NoDup_ListNoDup, NoDup_fst_map_to_list.
      * generalize (map_to_list m). intros l. induction l; cbn; congruence.
  - intros k v. rewrite <- list_elem_of_In, Hp. apply elem_of_map_to_list.
Qed.

(** In a well-formed store the id picks one record of [getAll]. *)
Lemma getAll_filter_id (f : RawOverlay -> StoredOverlay) (m : gmap string RawOverlay)
  (i : string) (r : RawOverlay) :
  (forall k x, m !! k = Some x -> raw_id x = k) ->
  (forall x, id (f x) = raw_id x) ->
  m !! i = Some r ->
  List.filter (fun o => String.eqb (id o) i) (List.map f (getAll m)) = [f r].
Proof.
  intros Hwf Hid Hr. unfold getAll.
  destruct (sorted_map_to_list m) as [Hnd Hin].
  rewrite List.map_map, List.filter_map_swap.
  rewrite (List.filter_ext_in _ (fun kv => String.eqb (fst kv) i)).
  - rewrite (filter_key_unique _ i r); [reflexivity | assumption | now apply Hin].
  - intros [k x] Hkx. cbn. rewrite Hid. apply Hin in Hkx. now rewrite (Hwf _ _ Hkx).
Qed.

Lemma wf_fresh : wf fresh.
Proof. split; intros k x H; cbn in H; rewrite lookup_empty in H; discriminate. Qed.

Lemma wf_put_overlay r db : wf db -> wf (put_overlay r db).
Proof.
  intros [Ho Hg]. split; [|exact Hg]. cbn. intros k x.
  rewrite lookup_insert. case_decide; [congruence | apply Ho].
Qed.

Lemma wf_delete_overlay k db : wf db -> wf (delete_overlay k db).
Proof.
  intros [Ho Hg]. split; [|exact Hg]. cbn. intros j x.
  rewrite lookup_delete. case_decide; [discriminate | apply Ho].
Qed.

Lemma wf_put_group g db : wf db -> wf (put_group g db).
Proof.
  intros [Ho Hg]. split; [exact Ho|]. cbn. intros k x.
  rewrite lookup_insert. case_decide; [congruence | apply Hg].
Qed.

Lemma wf_delete_group k db : wf db -> wf (delete_group k db).
Proof.
  intros [Ho Hg]. split; [exact Ho|]. cbn. intros j x.
  rewrite lookup_delete. case_decide; [discriminate | apply Hg].
Qed.

(** A write that follows [openDB] keeps the store well formed. *)
Lemma wf_after_open (f : IDB -> IDB) db :
  (forall d, wf d -> wf (f d)) -> wf db ->
  wf (fire_and_forget (_ ← openDB; modify f) db).
Proof.
  intros Hf H. unfold fire_and_forget, mbind, js_bind, modify, openDB.
  destruct (DB_VERSION <? version db)%nat; cbn; [exact H|].
  apply Hf. exact H.
Qed.

Lemma wf_update_field now i assign db :
  (forall u, id (assign u) = id u) -> wf db ->
  wf (fire_and_forget (update_field now i assign) db).
Proof.
  intros Hid H. apply wf_after_open; [|exact H].
  intros d Hd. destruct (overlays d !! i); [|exact Hd]. now apply wf_put_overlay.
Qed.

End StoreFacts.

(** C8.  On a database that can be opened, [saveOverlay(id, name, bytes,
    0.8, true, "default")] followed by [loadAllOverlays()] yields exactly
    one record with that id; it carries the name, the bytes, opacity 0.8,
    visible, group ["default"], and a timestamp not before the call. *)
Theorem saveOverlay_loadAllOverlays_roundtrip
  (db : Store.IDB) (i nm : string) (bytes : list Byte.byte) (t_call now now' : Z) :
  Store.wf db -> (Store.version db <= Store.DB_VERSION)%nat -> t_call <= now ->
  exists db1 db2 all r,
    Store.saveOverlay i nm bytes 0.8%Q true "default" now db = (Some tt, db1) /\
    Store.loadAllOverlays now' db1 = (Some all, db2) /\
    List.filter (fun o => String.eqb (Store.id o) i) all = [r] /\
    r = {| Store.id := i; Store.filename := nm; Store.data := bytes;
           Store.opacity := 0.8%Q; Store.visible := true;
           Store.groupId := "default"; Store.timestamp := now;
           Store.url := None |} /\
    t_call <= Store.timestamp r.
Proof.
  intros Hwf Hv Ht.
  eexists _, _, _, _. split.
  { unfold Store.saveOverlay, mbind, js_bind. rewrite (openDB_ok db Hv). reflexivity. }
  split.
  { unfold Store.loadAllOverlays, mbind, js_bind.
    rewrite openDB_ok by (cbn; unfold Store.DB_VERSION; lia). reflexivity. }
  cbn [Store.overlays Store.put_overlay Store.raw_id]. split; [|split; [reflexivity|exact Ht]].
  rewrite (getAll_filter_id _ _ i
    {| Store.raw_id := i; Store.raw_filename := nm; Store.raw_data := bytes;
       Store.raw_opacity := Some 0.8%Q; Store.raw_visible := Some true;
       Store.raw_groupId := Some "default"; Store.raw_timestamp := Some now;
       Store.raw_url := None |}).
  - reflexivity.
  - intros k x. rewrite lookup_insert. case_decide.
    + intros [= <-]. assumption.
    + apply Hwf.
  - reflexivity.
  - apply lookup_insert_eq.
Qed.

Lemma saveOverlay_loadAllOverlays_roundtrip_witness :
  exists db1 db2 all r,
    Store.saveOverlay "a" "a" [] 0.8%Q true "default" 5 Store.fresh = (Some tt, db1) /\
    Store.loadAllOverlays 7 db1 = (Some all, db2) /\
    List.filter (fun o => String.eqb (Store.id o) "a") all = [r] /\
    r = {| Store.id := "a"; Store.filename := "a"; Store.data := [];
           Store.opacity := 0.8%Q; Store.visible := true;
           Store.groupId := "default"; Store.timestamp := 5;
           Store.url := None |} /\
    3 <= Store.timestamp r.
Proof.
  apply (saveOverlay_loadAllOverlays_roundtrip Store.fresh "a" "a" [] 3 5 7).
  - apply wf_fresh.
  - cbn. unfold Store.DB_VERSION. lia.
  - lia.
Defined.

Lemma update_field_present now i assign db r :
  (Store.version db <= Store.DB_VERSION)%nat ->
  Store.overlays db !! i = Some r ->
  Store.update_field now i assign db =
  (Some tt, Store.put_overlay (Store.to_raw (assign (Store.normalizeOverlay now r)))
              {| Store.version := Store.DB_VERSION; Store.overlays := Store.overlays db;
                 Store.groups := Store.groups db |}).
Proof.
  intros Hv Hr. unfold Store.update_field, mbind, js_bind, modify.
  rewrite (openDB_ok db Hv). cbn. now rewrite Hr.
Qed.

Lemma update_field_absent now i assign db :
  (Store.version db <= Store.DB_VERSION)%nat ->
  Store.overlays db !! i = None ->
  Store.update_field now i assign db =
  (Some tt, {| Store.version := Store.DB_VERSION; Store.overlays := Store.overlays db;
               Store.groups := Store.groups db |}).
Proof.
  intros Hv Hr. unfold Store.update_field, mbind, js_bind, modify.
  rewrite (openDB_ok db Hv). cbn. now rewrite Hr.
Qed.

(** C9.  On a record with every field present, [updateOverlayOpacity]
    replaces the opacity and [updateOverlayVisibility] the visibility, in
    one step from read to write; every other field of the record, every
    other record and the groups stay as they were, so two updates in a row
    both survive, in either order.  On an absent id the helpers complete and the store keeps
    its records. *)
Theorem field_update_changes_only_its_field
  (db : Store.IDB) (i : string) (r : Store.RawOverlay) (now : Z) (o : Q) (v : bool) :
  Store.wf db -> (Store.version db <= Store.DB_VERSION)%nat ->
  Store.overlays db !! i = Some r -> all_present r ->
  (exists db1,
     Store.updateOverlayOpacity now i o db = (Some tt, db1) /\
     Store.overlays db1 = <[i := with_opacity o r]> (Store.overlays db) /\
     Store.groups db1 = Store.groups db) /\
  (exists db1,
     Store.updateOverlayVisibility now i v db = (Some tt, db1) /\
     Store.overlays db1 = <[i := with_visible v r]> (Store.overlays db) /\
     Store.groups db1 = Store.groups db) /\
  (exists db1 db2,
     Store.updateOverlayOpacity now i o db = (Some tt, db1) /\
     Store.updateOverlayVisibility now i v db1 = (Some tt, db2) /\
     Store.overlays db2 = <[i := with_visible v (with_opacity o r)]> (Store.overlays db)) /\
  (exists db1 db2,
     Store.updateOverlayVisibility now i v db = (Some tt, db1) /\
     Store.updateOverlayOpacity now i o db1 = (Some tt, db2) /\
     Store.overlays db2 = <[i := with_visible v (with_opacity o r)]> (Store.overlays db)) /\
  (forall j, Store.overlays db !! j = None ->
     exists db1 db2,
       Store.updateOverlayOpacity now j o db = (Some tt, db1) /\
       Store.updateOverlayVisibility now j v db = (Some tt, db2) /\
       Store.overlays db1 = Store.overlays db /\
       Store.overlays db2 = Store.overlays db).
Proof.
  intros [Hwf _] Hv Hr Hall.
  pose proof (Hwf _ _ Hr) as Hid.
  assert (Ho : Store.to_raw
            (let u := Store.normalizeOverlay now r in
             {| Store.id := Store.id u; Store.filename := Store.filename u;
                Store.data := Store.data u; Store.opacity := o;
                Store.visible := Store.visible u; Store.groupId := Store.groupId u;
                Store.timestamp := Store.timestamp u; Store.url := Store.url u |})
          = with_opacity o r).
  { destruct Hall as ([? ?] & [? ?] & [? ?] & [? ?]). destruct r; cbn in *. now subst. }
  assert (Hvis : forall r', all_present r' -> Store.to_raw
            (let u := Store.normalizeOverlay now r' in
             {| Store.id := Store.id u; Store.filename := Store.filename u;
                Store.data := Store.data u; Store.opacity := Store.opacity u;
                Store.visible := v; Store.groupId := Store.groupId u;
                Store.timestamp := Store.timestamp u; Store.url := Store.url u |})
          = with_visible v r').
  { intros r' ([? ?] & [? ?] & [? ?] & [? ?]). destruct r'; cbn in *. now subst. }
  assert (Hop : forall r', all_present r' -> Store.to_raw
            (let u := Store.normalizeOverlay now r' in
             {| Store.id := Store.id u; Store.filename := Store.filename u;
                Store.data := Store.data u; Store.opacity := o;
                Store.visible := Store.visible u; Store.groupId := Store.groupId u;
                Store.timestamp := Store.timestamp u; Store.url := Store.url u |})
          = with_opacity o r').
  { intros r' ([? ?] & [? ?] & [? ?] & [? ?]). destruct r'; cbn in *. now subst. }
  split; [|split; [|split; [|split]]].
  - eexists. unfold Store.updateOverlayOpacity.
    rewrite (update_field_present _ _ _ _ r Hv Hr). cbv zeta in Ho. rewrite Ho.
    split; [reflexivity|]. cbn. now rewrite Hid.
  - eexists. unfold Store.updateOverlayVisibility.
    rewrite (update_field_present _ _ _ _ r Hv Hr). specialize (Hvis r Hall).
    cbv zeta in Hvis. rewrite Hvis.
    split; [reflexivity|]. cbn. now rewrite Hid.
  - eexists _, _. unfold Store.updateOverlayOpacity, Store.updateOverlayVisibility.
    rewrite (update_field_present _ _ _ _ r Hv Hr). cbv zeta in Ho. rewrite Ho.
    split; [reflexivity|].
    rewrite (update_field_present _ _ _ _ (with_opacity o r)).
    + assert (Hall' : all_present (with_opacity o r)).
      { destruct Hall as (_ & ? & ? & ?). repeat split; cbn; eauto. }
      specialize (Hvis _ Hall'). cbv zeta in Hvis. rewrite Hvis.
      split; [reflexivity|]. cbn. rewrite Hid. apply insert_insert_eq.
    + cbn. lia.
    + cbn. rewrite Hid. apply lookup_insert_eq.
  - eexists _, _. unfold Store.updateOverlayOpacity, Store.updateOverlayVisibility.
    rewrite (update_field_present _ _ _ _ r Hv Hr). pose proof (Hvis r Hall) as Hvr.
    cbv zeta in Hvr. rewrite Hvr.
    split; [reflexivity|].
    rewrite (update_field_present _ _ _ _ (with_visible v r)).
    + assert (Hall' : all_present (with_visible v r)).
      { destruct Hall as (? & _ & ? & ?). repeat split; cbn; eauto. }
      specialize (Hop _ Hall'). cbv zeta in Hop. rewrite Hop.
      split; [reflexivity|]. cbn. rewrite Hid. apply insert_insert_eq.
    + cbn. lia.
    + cbn. rewrite Hid. apply lookup_insert_eq.
  - intros j Hj. eexists _, _.
    unfold Store.updateOverlayOpacity, Store.updateOverlayVisibility.
    rewrite !(update_field_absent _ _ _ _ Hv Hj). repeat split; reflexivity.
Qed.

Lemma field_update_changes_only_its_field_witness :
  let r := {| Store.raw_id := "a"; Store.raw_filename := "a"; Store.raw_data := [];
              Store.raw_opacity := Some 0.8%Q; Store.raw_visible := Some true;
              Store.raw_groupId := Some "default"; Store.raw_timestamp := Some 1;
              Store.raw_url := None |} in
  let db := Store.put_overlay r Store.fresh in
  exists db1,
    Store.updateOverlayOpacity 2 "a" 0.5%Q db = (Some tt, db1) /\
    Store.overlays db1 = <["a" := with_opacity 0.5%Q r]> (Store.overlays db) /\
    Store.groups db1 = Store.groups db.
Proof.
  cbv zeta.
  refine (proj1 (field_update_changes_only_its_field _ "a" _ 2 0.5%Q false _ _ _ _)).
  - apply wf_put_overlay, wf_fresh.
  - cbn. unfold Store.DB_VERSION. lia.
  - apply lookup_insert_eq.
  - repeat split; cbn; eauto.
Defined.

(** ** The renderer *)

Section RendererFacts.
Import Renderer.

Lemma find_filter_none (id : string) (ls : list Layer) :
  List.find (fun l => String.eqb (layer_id l) id)
    (List.filter (fun l => negb (String.eqb (layer_id l) id)) ls) = None.
Proof.
  induction ls as [|l ls IH]; cbn; [reflexivity|].
  destruct (String.eqb (layer_id l) id) eqn:E; cbn; [exact IH|]. now rewrite E.
Qed.

Lemma getLayer_hasLayer m id : hasLayer m id = false -> getLayer m id = None.
Proof. unfold hasLayer. now destruct (getLayer m id). Qed.

Lemma cleared_spec id m :
  getSource (cleared id m) (sourceId id) = None /\
  getLayer (cleared id m) (layerId id) = None.
Proof.
  unfold cleared.
  set (m1 := if hasLayer m (layerId id) then removeLayer (layerId id) m else m).
  assert (H1 : getLayer m1 (layerId id) = None).
  { subst m1. destruct (hasLayer m (layerId id)) eqn:E.
    - apply find_filter_none.
    - now apply getLayer_hasLayer. }
  destruct (getSource m1 (sourceId id)) eqn:E; [|now split].
  split; [apply lookup_delete_eq | exact H1].
Qed.

Lemma find_insert_before (b : string) (l : Layer) (ls : list Layer) :
  List.find (fun x => String.eqb (layer_id x) (layer_id l)) ls = None ->
  List.find (fun x => String.eqb (layer_id x) b) ls <> None ->
  List.find (fun x => String.eqb (layer_id x) (layer_id l)) (insert_before b l ls)
  = Some l.
Proof.
  induction ls as [|x xs IH]; cbn; [congruence|].
  destruct (String.eqb (layer_id x) (layer_id l)) eqn:El; [discriminate|].
  intros Hl Hb. destruct (String.eqb (layer_id x) b) eqn:Eb; cbn.
  - now rewrite String.eqb_refl.
  - rewrite El. now apply IH.
Qed.

Lemma find_app_last (l : Layer) (ls : list Layer) :
  List.find (fun x => String.eqb (layer_id x) (layer_id l)) ls = None ->
  List.find (fun x => String.eqb (layer_id x) (layer_id l)) (ls ++ [l]) = Some l.
Proof.
  induction ls as [|x xs IH]; cbn.
  - now rewrite String.eqb_refl.
  - destruct (String.eqb (layer_id x) (layer_id l)); [discriminate | exact IH].
Qed.

Lemma find_none_not_in (id : string) (ls : list Layer) :
  List.find (fun x => String.eqb (layer_id x) id) ls = None ->
  ~ List.In id (List.map layer_id ls).
Proof.
  induction ls as [|x xs IH]; cbn; [tauto|].
  destruct (String.eqb_spec (layer_id x) id) as [|Hne]; [discriminate|].
  intros H [Heq | Hin]; [contradiction | now apply IH].
Qed.

Lemma NoDup_filter_ids (P : Layer -> bool) (ls : list Layer) :
  List.NoDup (List.map layer_id ls) ->
  List.NoDup (List.map layer_id (List.filter P ls)).
Proof.
  induction ls as [|x xs IH]; cbn; [trivial|].
  intros H. apply List.NoDup_cons_iff in H as [Hx Hxs].
  destruct (P x); cbn; [|now apply IH].
  constructor; [|now apply IH].
  intros Hin. apply Hx. apply List.in_map_iff in Hin as (y & Hy & Hin).
  apply List.filter_In in Hin as [Hin _]. rewrite <- Hy. now apply List.in_map.
Qed.

Lemma in_insert_before (b : string) (l : Layer) (ls : list Layer) (y : string) :
  List.In y (List.map layer_id (insert_before b l ls)) ->
  y = layer_id l \/ List.In y (List.map layer_id ls).
Proof.
  induction ls as [|z zs IH]; cbn; [tauto|].
  destruct (String.eqb (layer_id z) b); cbn.
  - intuition (subst; auto).
  - intros [H|H]; [auto|]. apply IH in H. tauto.
Qed.

Lemma NoDup_insert_before (b : string) (l : Layer) (ls : list Layer) :
  ~ List.In (layer_id l) (List.map layer_id ls) ->
  List.NoDup (List.map layer_id ls) ->
  List.NoDup (List.map layer_id (insert_before b l ls)).
Proof.
  induction ls as [|x xs IH]; cbn; [trivial|].
  intros Hl H. destruct (String.eqb (layer_id x) b).
  - cbn. constructor; [exact Hl | exact H].
  - cbn. apply List.NoDup_cons_iff in H as [Hx Hxs].
    constructor; [|apply IH; tauto].
    intros Hin. apply in_insert_before in Hin as [Heq | Hin]; [|contradiction].
    apply Hl. left. exact Heq.
Qed.

Lemma NoDup_app_last (l : Layer) (ls : list Layer) :
  ~ List.In (layer_id l) (List.map layer_id ls) ->
  List.NoDup (List.map layer_id ls) ->
  List.NoDup (List.map layer_id (ls ++ [l])).
Proof.
  intros Hl H. rewrite List.map_app. cbn.
  apply NoDup_ListNoDup, NoDup_app. split; [now apply NoDup_ListNoDup|].
  split; [|apply NoDup_singleton].
  intros y Hy Hin. apply list_elem_of_In in Hy.
  apply list_elem_of_singleton in Hin. subst. contradiction.
Qed.

(** With distinct ids, an id is borne by one layer at most. *)
Lemma NoDup_key_once {A} (key : A -> string) (d : string) (l : list A) :
  List.NoDup (List.map key l) ->
  (length (List.filter (fun x => String.eqb (key x) d) l) <= 1)%nat.
Proof.
  induction l as [|x xs IH]; cbn; [lia|].
  intros H. apply List.NoDup_cons_iff in H as [Hx Hxs].
  destruct (String.eqb_spec (key x) d) as [Heq | _]; [|now apply IH].
  cbn. rewrite (proj2 (List.length_zero_iff_nil _)); [lia|].
  clear IH. induction xs as [|y ys IHy]; cbn; [reflexivity|].
  apply List.NoDup_cons_iff in Hxs as [_ Hys].
  destruct (String.eqb_spec (key y) d) as [Hy | _].
  - exfalso. apply Hx. left. congruence.
  - apply IHy; [|exact Hys]. intros Hin. apply Hx. now right.
Qed.


(** Adding a layer whose id is free puts it on the map, above or below. *)
Lemma addLayer_fresh (l : Layer) (m : Map) :
  getLayer m (layer_id l) = None ->
  exists m', addLayer false l (below_location m) m = (Some tt, m') /\
             getLayer m' (layer_id l) = Some l /\ sources m' = sources m /\
             (List.NoDup (layer_ids m) -> List.NoDup (layer_ids m')).
Proof.
  intros Hfree. pose proof (find_none_not_in _ _ Hfree) as Hnot.
  unfold addLayer, hasLayer, below_location. rewrite Hfree.
  unfold hasLayer. destruct (getLayer m "user-location-accuracy") eqn:E.
  - eexists. split; [reflexivity|]. split; [|split; [reflexivity|]].
    + apply find_insert_before; [exact Hfree|]. unfold getLayer in E. congruence.
    + now apply NoDup_insert_before.
  - eexists. split; [reflexivity|]. split; [|split; [reflexivity|]].
    + now apply find_app_last.
    + now apply NoDup_app_last.
Qed.

Lemma cleared_NoDup id m :
  List.NoDup (layer_ids m) -> List.NoDup (layer_ids (cleared id m)).
Proof.
  intros H. unfold cleared.
  set (m1 := if hasLayer m (layerId id) then removeLayer (layerId id) m else m).
  assert (H1 : List.NoDup (layer_ids m1)).
  { subst m1. destruct (hasLayer m (layerId id)); [|exact H].
    now apply NoDup_filter_ids. }
  now destruct (getSource m1 (sourceId id)).
Qed.

(** The [try] block of [addRasterOverlay], call by call. *)
Lemma addRasterOverlay_try_run (oc : Outcome) (id url : string) (m : Map) :
  addRasterOverlay_try oc id url m =
  match header oc with
  | None => (None, m)
  | Some b =>
      let m1 := cleared id m in
      if addSource_throws oc then (None, m1)
      else
        let m2 := set_sources (<[sourceId id := overlay_source url]>) m1 in
        match addLayer (addLayer_throws oc) (overlay_layer id) (below_location m2) m2 with
        | (None, m3) => (None, m3)
        | (Some _, m3) =>
            match fitBounds (fitBounds_throws oc) b m3 with
            | (None, m4) => (None, m4)
            | (Some _, m4) =>
                (Some (Some {| d_id := id; d_name := id; d_bounds := b;
                               d_opacity := 0.8%Q |}), m4)
            end
        end
  end.
Proof.
  unfold addRasterOverlay_try, mbind, js_bind, modify, get_state, mret, js_ret.
  destruct (header oc) as [b|]; [|reflexivity].
  fold (cleared id m). cbv zeta.
  unfold addSource at 1. destruct (addSource_throws oc); [reflexivity|].
  destruct (cleared_spec id m) as [Hs _]. unfold getSource in Hs. rewrite Hs.
  fold (overlay_source url) (overlay_layer id).
  set (m2 := set_sources _ (cleared id m)).
  fold (below_location m2).
  destruct (addLayer _ _ _ m2) as [[[]|] m3]; [|reflexivity].
  destruct (fitBounds _ b m3) as [[[]|] m4]; reflexivity.
Qed.

End RendererFacts.

(** How [addRasterOverlay] ends, fault by fault. *)
Lemma addRasterOverlay_outcomes
  (oc : Renderer.Outcome) (m : Renderer.Map) (id url : string) :
  exists res m',
    Renderer.addRasterOverlay oc id url (Some m) = (res, Some m') /\
    (res = None <-> fails oc) /\
    match Renderer.header oc with
    | None => m' = m
    | Some b =>
        if Renderer.addSource_throws oc then
          Renderer.getSource m' (Renderer.sourceId id) = None /\
          Renderer.getLayer m' (Renderer.layerId id) = None
        else if Renderer.addLayer_throws oc then
          Renderer.getSource m' (Renderer.sourceId id) = Some (overlay_source url) /\
          Renderer.getLayer m' (Renderer.layerId id) = None
        else
          Renderer.getSource m' (Renderer.sourceId id) = Some (overlay_source url) /\
          Renderer.getLayer m' (Renderer.layerId id) = Some (overlay_layer id) /\
          res = (if Renderer.fitBounds_throws oc then None
                 else Some {| Renderer.d_id := id; Renderer.d_name := id;
                              Renderer.d_bounds := b; Renderer.d_opacity := 0.8%Q |})
    end /\
    (List.NoDup (layer_ids m) -> List.NoDup (layer_ids m')).
Proof.
  unfold Renderer.addRasterOverlay, try_catch, fails.
  rewrite addRasterOverlay_try_run.
  destruct oc as [[b|] ts tl tf]; cbn [Renderer.header Renderer.addSource_throws
    Renderer.addLayer_throws Renderer.fitBounds_throws].
  2: { eexists _, _. split; [reflexivity|]. split; [tauto|]. now split. }
  cbv zeta. destruct (cleared_spec id m) as [Hs Hl].
  pose proof (cleared_NoDup id m) as Hnd.
  destruct ts.
  { eexists _, _. split; [reflexivity|]. split; [tauto|]. split; [now split | exact Hnd]. }
  set (m2 := Renderer.set_sources _ (cleared id m)).
  assert (Hs2 : Renderer.getSource m2 (Renderer.sourceId id) = Some (overlay_source url))
    by apply lookup_insert_eq.
  assert (Hl2 : Renderer.getLayer m2 (Renderer.layerId id) = None) by exact Hl.
  destruct tl.
  { eexists _, _. split; [reflexivity|]. split; [tauto|]. split; [now split | exact Hnd]. }
  destruct (addLayer_fresh (overlay_layer id) m2 Hl2) as (m3 & Hadd & Hl3 & Hsrc3 & Hnd3).
  rewrite Hadd.
  assert (Hs3 : Renderer.getSource m3 (Renderer.sourceId id) = Some (overlay_source url)).
  { unfold Renderer.getSource. rewrite Hsrc3. exact Hs2. }
  destruct tf; cbn.
  - eexists _, _. split; [reflexivity|]. split; [tauto|].
    split; [split; [exact Hs3 | split; [exact Hl3 | reflexivity]]|].
    intros H. apply Hnd3, Hnd, H.
  - eexists _, _. split; [reflexivity|]. split.
    + split; [discriminate|]. intros [H|[H|[H|H]]]; discriminate.
    + split; [split; [exact Hs3 | split; [exact Hl3 | reflexivity]]|].
      intros H. apply Hnd3, Hnd, H.
Qed.

(** C2 fails: when [addLayer] throws, the source registered just before
    stays on the map; nothing in the [catch] block takes it back. *)
Lemma addRasterOverlay_keeps_source_on_failure :
  let oc := {| Renderer.header := Some (130, 30, 131, 31)%Q;
               Renderer.addSource_throws := false;
               Renderer.addLayer_throws := true;
               Renderer.fitBounds_throws := false |} in
  (exists m', Renderer.addRasterOverlay oc "a" "blob:a" (Some (Renderer.loaded_map example_engine))
              = (None, Some m') /\
              Renderer.getSource m' (Renderer.sourceId "a")
              = Some (Renderer.RasterUrl "pmtiles://blob:a" 256)) /\
  ~ no_partial_state oc (Renderer.loaded_map example_engine) "a" "blob:a".
Proof.
  cbv zeta. split.
  - eexists. split; [vm_compute; reflexivity|]. vm_compute. reflexivity.
  - intros H. destruct H as (m' & Hrun & Hsrc & _).
    + right. right. left. reflexivity.
    + vm_compute in Hrun. injection Hrun as <-. vm_compute in Hsrc. discriminate.
Qed.

(** C2, amended: on a mounted map [addRasterOverlay] returns [null]
    exactly when it fails; without a map ([mapRef.current] not set) it
    returns [null] at once and nothing is touched.  If the header cannot
    be read the map is left as it was.  Otherwise what was bound to the id
    before is removed, and nothing made by the call is taken back: after
    a throwing [addSource] no source and no layer is bound to the id;
    after a throwing [addLayer] the new source remains, without layer;
    after a throwing [fitBounds] the new source and the new layer both
    remain. *)
Theorem addRasterOverlay_failure_leaves_what_was_added
  (oc : Renderer.Outcome) (m : Renderer.Map) (id url : string) :
  Renderer.addRasterOverlay oc id url None = (None, None) /\
  exists res m',
    Renderer.addRasterOverlay oc id url (Some m) = (res, Some m') /\
    (res = None <-> fails oc) /\
    match Renderer.header oc with
    | None => m' = m
    | Some b =>
        if Renderer.addSource_throws oc then
          Renderer.getSource m' (Renderer.sourceId id) = None /\
          Renderer.getLayer m' (Renderer.layerId id) = None
        else if Renderer.addLayer_throws oc then
          Renderer.getSource m' (Renderer.sourceId id) = Some (overlay_source url) /\
          Renderer.getLayer m' (Renderer.layerId id) = None
        else
          Renderer.getSource m' (Renderer.sourceId id) = Some (overlay_source url) /\
          Renderer.getLayer m' (Renderer.layerId id) = Some (overlay_layer id) /\
          res = (if Renderer.fitBounds_throws oc then None
                 else Some {| Renderer.d_id := id; Renderer.d_name := id;
                              Renderer.d_bounds := b; Renderer.d_opacity := 0.8%Q |})
    end.
Proof.
  split; [reflexivity|].
  unfold Renderer.addRasterOverlay, try_catch, fails.
  rewrite addRasterOverlay_try_run.
  destruct (cleared_spec id m) as [Hs Hl].
  destruct (Renderer.header oc) as [b|];
    [|eexists _, _; split; [reflexivity|]; split; [tauto | reflexivity]].
  cbv zeta. destruct (Renderer.addSource_throws oc).
  { eexists _, _. split; [reflexivity|]. split; [tauto | now split]. }
  set (m2 := Renderer.set_sources _ (cleared id m)).
  assert (Hs2 : Renderer.getSource m2 (Renderer.sourceId id) = Some (overlay_source url))
    by apply lookup_insert_eq.
  destruct (Renderer.addLayer_throws oc).
  { eexists _, _. split; [reflexivity|]. split; [tauto | now split]. }
  destruct (addLayer_fresh (overlay_layer id) m2 Hl) as (m3 & Hadd & Hl3 & Hsrc3 & _).
  rewrite Hadd.
  assert (Hs3 : Renderer.getSource m3 (Renderer.sourceId id) = Some (overlay_source url)).
  { unfold Renderer.getSource. rewrite Hsrc3. exact Hs2. }
  destruct (Renderer.fitBounds_throws oc); cbn.
  - eexists _, _. split; [reflexivity|]. split; [tauto | now repeat split].
  - eexists _, _. split; [reflexivity|]. split; [|now repeat split].
    split; [discriminate|]. intros [H|[H|[H|H]]]; discriminate.
Qed.

(** ** The accuracy radius *)

Section LocationFacts.
Import Renderer.
Local Open Scope R_scope.

Lemma sources_setVisibilityOfAll ids v m :
  sources (setVisibilityOfAll ids v m) = sources m /\
  zoom (setVisibilityOfAll ids v m) = zoom m.
Proof.
  unfold setVisibilityOfAll. revert m.
  induction ids as [|i ids IH]; intros m; cbn; [now split|].
  destruct (IH (if hasLayer m i then setLayoutVisibility i v m else m)) as [-> ->].
  now destruct (hasLayer m i).
Qed.

Lemma sources_setLocationLayersVisibility v m :
  sources (setLocationLayersVisibility v m) = sources m.
Proof. apply (sources_setVisibilityOfAll location_layers). Qed.

(** What [updateUserLocation] leaves in the source ['user-location']. *)
Lemma updateUserLocation_feature lng lat acc m f0 :
  getSource m "user-location" = Some (GeoJSON f0) ->
  getSource (updateUserLocation lng lat acc m) "user-location" =
  Some (GeoJSON {| coordinates := (lng, lat);
                   accuracyRadius := Some (accuracyRadiusOf acc lat (zoom m)) |}).
Proof.
  intros H. unfold updateUserLocation. rewrite H. unfold getSource.
  rewrite sources_setLocationLayersVisibility. apply lookup_insert_eq.
Qed.

Lemma clamp_range x : 10 <= Rmin (Rmax x 10) 100 <= 100.
Proof.
  split; [|apply Rmin_r].
  apply Rmin_glb; [apply Rmax_r | lra].
Qed.

Lemma Q2R_35 : Q2R 35 = 35.
Proof. unfold Q2R. cbn. lra. Qed.

Lemma Q2R_13 : Q2R 13 = INR 13.
Proof. unfold Q2R. cbn. lra. Qed.

(** [cos 35°] lies between 0.69 and 1. *)
Lemma cos_35_degrees : 0.69 <= cos (35 * PI / 180) <= 1.
Proof.
  split; [|apply COS_bound].
  pose proof PI_RGT_0 as Hpos. pose proof PI_4 as H4.
  set (a := 35 * PI / 180).
  assert (Ha : 0 <= a <= 7 / 9) by (subst a; lra).
  destruct (pre_cos_bound a 0) as [Hlo _]; [lra | lra |].
  unfold cos_approx, cos_term in Hlo. cbn in Hlo.
  assert (a * a <= 49 / 81) by nra.
  lra.
Qed.

(** At latitude 35 and zoom 13 a pixel covers between 13 and 20 metres. *)
Lemma metersPerPixel_35_13 : 13 < metersPerPixel 35 13 < 20.
Proof.
  unfold metersPerPixel. rewrite Q2R_35, Q2R_13, Rpower_pow by lra.
  replace (2 ^ 13) with 8192 by (cbn; lra).
  destruct cos_35_degrees as [Hlo Hhi].
  set (c := cos (35 * PI / 180)) in *.
  split.
  - apply Rmult_lt_reg_r with 8192; [lra|].
    replace (156543.03392 * c / 8192 * 8192) with (156543.03392 * c) by field. lra.
  - apply Rmult_lt_reg_r with 8192; [lra|].
    replace (156543.03392 * c / 8192 * 8192) with (156543.03392 * c) by field. lra.
Qed.

Lemma radius_35_13_one_metre : accuracyRadiusOf (Some 1%Q) 35 13 = 10.
Proof.
  unfold accuracyRadiusOf. change (Qeq_bool 1 0) with false. cbv iota.
  destruct metersPerPixel_35_13 as [Hlo Hhi].
  set (p := metersPerPixel 35 13) in *.
  assert (Hq : Q2R 1 / p <= 10).
  { replace (Q2R 1) with 1 by (unfold Q2R; cbn; lra).
    apply Rmult_le_reg_r with p; [lra|].
    replace (1 / p * p) with 1 by (field; lra). lra. }
  rewrite Rmax_right by exact Hq. apply Rmin_left. lra.
Qed.

Lemma radius_35_13_hundred_km : accuracyRadiusOf (Some 100000%Q) 35 13 = 100.
Proof.
  unfold accuracyRadiusOf. change (Qeq_bool 100000 0) with false. cbv iota.
  destruct metersPerPixel_35_13 as [Hlo Hhi].
  set (p := metersPerPixel 35 13) in *.
  assert (Hq : 100 <= Q2R 100000 / p).
  { replace (Q2R 100000) with 100000 by (unfold Q2R; cbn; lra).
    apply Rmult_le_reg_r with p; [lra|].
    replace (100000 / p * p) with 100000 by (field; lra). lra. }
  rewrite Rmax_left by lra. now apply Rmin_right.
Qed.

End LocationFacts.

(** C1.  With a non-null, non-zero accuracy, at a latitude where the
    cosine does not vanish (any but the poles and what lies a multiple of
    180 degrees from them, where the divisor of the formula is zero),
    [updateLocation] (and [updateUserLocation] of the injected page, on
    the command the bridge sends) writes into the position feature the
    accuracy divided by [156543.03392 * cos(lat * pi / 180) / 2^zoom],
    clamped to [10, 100]; at latitude 35 and zoom 13 one metre gives 10
    and 100000 metres 100. *)
Theorem updateLocation_accuracy_radius
  (m : Renderer.Map) (f0 : Renderer.Feature) (lng lat a : Q) :
  ~ (a == 0)%Q ->
  cos (Q2R lat * PI / 180) <> 0%R ->
  Renderer.getSource m "user-location" = Some (Renderer.GeoJSON f0) ->
  let mpp := (156543.03392 * cos (Q2R lat * PI / 180)
              / Rpower 2 (Q2R (Renderer.zoom m)))%R in
  let r := Rmin (Rmax (Q2R a / mpp) 10) 100 in
  let written :=
    Some (Renderer.GeoJSON {| Renderer.coordinates := (lng, lat);
                              Renderer.accuracyRadius := Some r |}) in
  (exists m', Renderer.updateLocation lng lat (Some a) (Some m) = Some m' /\
              Renderer.getSource m' "user-location" = written) /\
  (forall pg b, Bridge.page_map pg = m -> Bridge.webView b = true ->
     exists cmd,
       Bridge.injected (Bridge.updateLocation lng lat (Some a) b)
       = Bridge.injected b ++ [cmd] /\
       Renderer.getSource (Bridge.page_map (Bridge.handleCommand cmd pg)) "user-location"
       = written) /\
  (10 <= r <= 100)%R /\
  Renderer.accuracyRadiusOf (Some 1%Q) 35 13 = 10%R /\
  Renderer.accuracyRadiusOf (Some 100000%Q) 35 13 = 100%R.
Proof.
  intros Ha _ Hsrc mpp r written.
  assert (Hr : Renderer.accuracyRadiusOf (Some a) lat (Renderer.zoom m) = r).
  { unfold Renderer.accuracyRadiusOf.
    destruct (Qeq_bool a 0) eqn:E; [|reflexivity].
    apply Qeq_bool_iff in E. contradiction. }
  split; [|split; [|split; [|split]]].
  - eexists. split; [reflexivity|].
    rewrite (updateUserLocation_feature _ _ _ _ f0 Hsrc), Hr. reflexivity.
  - intros pg b Hpg Hweb. eexists. split.
    + unfold Bridge.updateLocation, Bridge.sendCommand. rewrite Hweb. reflexivity.
    + cbn. rewrite Hpg.
      rewrite (updateUserLocation_feature _ _ _ _ f0 Hsrc), Hr. reflexivity.
  - apply clamp_range.
  - apply radius_35_13_one_metre.
  - apply radius_35_13_hundred_km.
Qed.

Lemma updateLocation_accuracy_radius_witness :
  exists m',
    Renderer.updateLocation 139 35 (Some 5%Q) (Some (Renderer.loaded_map example_engine))
    = Some m' /\
    Renderer.getSource m' "user-location" =
    Some (Renderer.GeoJSON
            {| Renderer.coordinates := (139, 35)%Q;
               Renderer.accuracyRadius :=
                 Some (Rmin (Rmax (Q2R 5 / (156543.03392 * cos (Q2R 35 * PI / 180)
                                            / Rpower 2 (Q2R 13))) 10) 100) |}).
Proof.
  refine (proj1 (updateLocation_accuracy_radius (Renderer.loaded_map example_engine)
                   {| Renderer.coordinates := (0, 0)%Q; Renderer.accuracyRadius := None |}
                   139 35 5 _ _ _)).
  - intros H. discriminate H.
  - rewrite Q2R_35. pose proof cos_35_degrees. lra.
  - reflexivity.
Defined.

(** ** The bridge *)

Section BridgeFacts.
Import Bridge.

Lemma sendCommand_same cmd b : same_promises b (sendCommand cmd b).
Proof. unfold sendCommand, same_promises. now destruct (webView b). Qed.

Lemma handleMessage_same props data b :
  match data with Some (OverlayAdded _) => False | _ => True end ->
  same_promises b (handleMessage props data b).
Proof.
  unfold same_promises. destruct data as [[c z| |info|ty]|]; cbn; try easy.
  - now destruct (onMapMoved props).
  - now destruct (onMapLoaded props).
Qed.

Lemma call_same cmd b :
  quiet (Call cmd) = true -> same_promises b (call cmd b).
Proof. intros Hq. destruct cmd; try apply sendCommand_same. discriminate Hq. Qed.

Lemma tick_armed base due p t b :
  armed base due p b ->
  (armed base due p (tick t b) /\ Z.max (clock b) t < due) \/
  (timed_out base due p (tick t b) /\ due <= Z.max (clock b) t).
Proof.
  intros (Href & Htim & Hres). unfold tick. rewrite Htim. cbn.
  destruct (due <=? Z.max (clock b) t) eqn:E; cbn.
  - right. apply Z.leb_le in E. split; [|exact E].
    unfold fire. cbn. rewrite Href. cbn. now rewrite Hres.
  - left. apply Z.leb_gt in E. split; [|exact E]. now repeat split.
Qed.

Lemma tick_timed_out base due p t b :
  timed_out base due p b -> timed_out base due p (tick t b).
Proof.
  intros (Href & Htim & Hres). unfold tick. rewrite Htim. cbn. now repeat split.
Qed.

Lemma step_quiet props base due p e b :
  quiet e = true ->
  armed base due p b \/ timed_out base due p b ->
  armed base due p (step props e b) \/ timed_out base due p (step props e b).
Proof.
  intros Hq H. destruct e as [cmd|data|t]; cbn [step].
  - destruct (call_same cmd b Hq) as (H1 & H2 & H3). unfold armed, timed_out in *.
    rewrite H1, H2, H3. exact H.
  - assert (Hs : same_promises b (handleMessage props data b)).
    { apply handleMessage_same. destruct data as [[| | |]|]; try exact I. discriminate Hq. }
    destruct Hs as (H1 & H2 & H3). unfold armed, timed_out in *.
    rewrite H1, H2, H3. exact H.
  - destruct H as [H | H].
    + destruct (tick_armed _ _ _ t _ H) as [[H' _] | [H' _]]; [now left | now right].
    + right. now apply tick_timed_out.
Qed.

Lemma run_quiet props base due p es b :
  Forall (fun e => quiet e = true) es ->
  armed base due p b \/ timed_out base due p b ->
  armed base due p (run props es b) \/ timed_out base due p (run props es b).
Proof.
  intros Hq. revert b. induction Hq as [|e es He _ IH]; intros b H; [exact H|].
  cbn. apply IH. now apply step_quiet.
Qed.

Lemma addRasterOverlay_armed id url b :
  timers b = [] ->
  armed (resolved b) (clock b + 10000) (created b) (snd (addRasterOverlay id url b)).
Proof.
  intros Ht. unfold addRasterOverlay, sendCommand, armed. cbn.
  destruct (webView b); cbn; now rewrite Ht.
Qed.

Lemma finally_timed_out base due p t b :
  due <= t ->
  armed base due p b \/ timed_out base due p b ->
  timed_out base due p (tick t b).
Proof.
  intros Ht [H | H]; [|now apply tick_timed_out].
  destruct (tick_armed _ _ _ t _ H) as [[_ Hlt] | [H' _]]; [lia | exact H'].
Qed.

Lemma fire_all_idle (l : list (Z * nat)) (b : Bridge) :
  overlayResolveRef b = None ->
  overlayResolveRef (List.fold_left (fun b0 '(d, q) => fire d q b0) l b) = None.
Proof.
  revert b. induction l as [|[d q] l IH]; intros b Hb; [exact Hb|].
  cbn. apply IH. unfold fire. now rewrite Hb.
Qed.

(** With the ref empty, quiet events leave it empty. *)
Lemma step_quiet_idle props e b :
  quiet e = true -> overlayResolveRef b = None ->
  overlayResolveRef (step props e b) = None.
Proof.
  intros Hq Hb. destruct e as [cmd|data|t]; cbn [step].
  - now rewrite (proj1 (call_same cmd b Hq)).
  - assert (Hs : same_promises b (handleMessage props data b)).
    { apply handleMessage_same. destruct data as [[| | |]|]; try exact I. discriminate Hq. }
    now rewrite (proj1 Hs).
  - unfold tick. now apply fire_all_idle.
Qed.

Lemma run_quiet_idle props es b :
  Forall (fun e => quiet e = true) es -> overlayResolveRef b = None ->
  overlayResolveRef (run props es b) = None.
Proof.
  intros Hq. revert b. induction Hq as [|e es He _ IH]; intros b Hb; [exact Hb|].
  cbn. apply IH. now apply step_quiet_idle.
Qed.

End BridgeFacts.

(** C3 fails when calls overlap, since all calls share the one ref.
    A call made 5 s after another one is never resolved: the first timer
    clears the ref, the second timer then finds it empty.  And a response
    that arrives after a call has timed out is not ignored once another
    call has been made: it resolves that other call. *)
Lemma overlapping_calls_break_the_timeout :
  let props := {| Bridge.onMapMoved := true; Bridge.onMapLoaded := true |} in
  let b5 := Bridge.tick 5000 (snd (Bridge.addRasterOverlay "a" "blob:a" Bridge.initial)) in
  let second := Bridge.tick 1000000 (snd (Bridge.addRasterOverlay "b" "blob:b" b5)) in
  let info := Some {| Renderer.d_id := "a"; Renderer.d_name := "a";
                      Renderer.d_bounds := (0, 0, 1, 1)%Q;
                      Renderer.d_opacity := 0.8%Q |} in
  let late := Bridge.run props
                [Bridge.Call (Bridge.AddRasterOverlay "a" "blob:a"); Bridge.Tick 10000;
                 Bridge.Call (Bridge.AddRasterOverlay "b" "blob:b"); Bridge.Tick 11000]
                Bridge.initial in
  (Bridge.settled second 1%nat = None /\ Bridge.timers second = [] /\
   ~ resolves_null_after_timeout b5 "b" "blob:b") /\
  (Bridge.settled late 0%nat
   = Some {| Bridge.at_time := 10000; Bridge.promise := 0; Bridge.value := None |} /\
   Bridge.settled (Bridge.handleMessage props (Some (Bridge.OverlayAdded info)) late) 1%nat
   = Some {| Bridge.at_time := 11000; Bridge.promise := 1; Bridge.value := info |}).
Proof.
  cbv zeta. split; [split; [|split]|split].
  - vm_compute. reflexivity.
  - vm_compute. reflexivity.
  - intros H. specialize (H 1000000). 
    destruct H as [r [Hr _]]; [vm_compute; discriminate|].
    vm_compute in Hr. discriminate.
  - vm_compute. reflexivity.
  - vm_compute. reflexivity.
Qed.

(** C3, amended: when no timer of an earlier call is pending as the call
    is made, and until its own timer runs no other [addRasterOverlay] is
    called and no [overlayAdded] arrives, then the single call of a
    [resolve] function that follows is that of the returned promise, with
    [null], at the 10 s deadline; from then on, as long as no new call is
    made, an [overlayAdded] event changes nothing. *)
Theorem bridge_timeout_resolves_null_once
  (props : Bridge.Props) (b : Bridge.Bridge) (id url : string)
  (es : list Bridge.Event) (t : Z) :
  Bridge.timers b = [] ->
  Forall (fun e => Bridge.quiet e = true) es ->
  Bridge.clock b + 10000 <= t ->
  let p := fst (Bridge.addRasterOverlay id url b) in
  let b' := Bridge.tick t (Bridge.run props es (snd (Bridge.addRasterOverlay id url b))) in
  p = Bridge.created b /\
  Bridge.resolved b' =
    Bridge.resolved b ++ [{| Bridge.at_time := Bridge.clock b + 10000;
                             Bridge.promise := p; Bridge.value := None |}] /\
  Bridge.overlayResolveRef b' = None /\
  forall info late,
    Forall (fun e => Bridge.quiet e = true) late ->
    let b'' := Bridge.run props late b' in
    Bridge.handleMessage props (Some (Bridge.OverlayAdded info)) b'' = b''.
Proof.
  intros Ht Hq Hdue p b'.
  assert (H : timed_out (Bridge.resolved b) (Bridge.clock b + 10000) (Bridge.created b) b').
  { apply finally_timed_out; [exact Hdue|].
    apply run_quiet; [exact Hq|]. left. now apply addRasterOverlay_armed. }
  split; [reflexivity|]. destruct H as (Href & Htim & Hres).
  split; [exact Hres|]. split; [exact Href|].
  intros info late Hlate b''.
  pose proof (run_quiet_idle props late b' Hlate Href) as Hidle.
  change (Bridge.run props late b') with b'' in Hidle.
  unfold Bridge.handleMessage. now rewrite Hidle.
Qed.

Lemma bridge_timeout_resolves_null_once_witness :
  let props := {| Bridge.onMapMoved := true; Bridge.onMapLoaded := true |} in
  let es := [Bridge.Tick 3000; Bridge.Receive (Some Bridge.MapLoaded);
             Bridge.Call Bridge.HideLocation] in
  let b' := Bridge.tick 10000
              (Bridge.run props es (snd (Bridge.addRasterOverlay "a" "blob:a" Bridge.initial))) in
  Bridge.resolved b' =
    [{| Bridge.at_time := 10000; Bridge.promise := 0; Bridge.value := None |}].
Proof.
  cbv zeta.
  refine (proj1 (proj2 (bridge_timeout_resolves_null_once
            {| Bridge.onMapMoved := true; Bridge.onMapLoaded := true |}
            Bridge.initial "a" "blob:a"
            [Bridge.Tick 3000; Bridge.Receive (Some Bridge.MapLoaded);
             Bridge.Call Bridge.HideLocation] 10000 _ _ _))).
  - reflexivity.
  - repeat constructor.
  - vm_compute. discriminate.
Defined.

(** ** Bridge and injected page together *)

Section SystemFacts.
Import Bridge.

(** The page only ever posts [mapLoaded] and [mapMoved]. *)
Lemma page_event_messages e pg :
  Forall (fun m => msg_type m = "mapLoaded" \/ msg_type m = "mapMoved")
         (snd (page_event e pg)).
Proof.
  destruct e; cbn.
  - destruct (Renderer.register_location (page_map pg)) as [[[]|] m]; cbn.
    + constructor; [now left | constructor].
    + constructor.
  - constructor; [now right | constructor].
Qed.

Lemma page_messages_same props (msgs : list Message) b :
  Forall (fun m => msg_type m = "mapLoaded" \/ msg_type m = "mapMoved") msgs ->
  same_promises b
    (List.fold_left (fun b m => handleMessage props (Some m) b) msgs b).
Proof.
  intros H. revert b. induction H as [|m msgs Hm _ IH]; intros b; [now repeat split|].
  cbn [List.fold_left].
  assert (Hs : same_promises b (handleMessage props (Some m) b)).
  { apply handleMessage_same. destruct m; try exact I. cbn in Hm. now destruct Hm. }
  destruct Hs as (H1 & H2 & H3).
  destruct (IH (handleMessage props (Some m) b)) as (I1 & I2 & I3).
  unfold same_promises. now rewrite I1, I2, I3.
Qed.

Lemma sys_step_page_same props e s :
  same_promises (rn s) (rn (sys_step props (SysPage e) s)).
Proof.
  cbn. pose proof (page_event_messages e (page s)) as H.
  destruct (page_event e (page s)) as [pg msgs]. cbn. now apply page_messages_same.
Qed.

Lemma sys_step_quiet props base due p e s :
  sys_quiet e = true ->
  armed base due p (rn s) \/ timed_out base due p (rn s) ->
  armed base due p (rn (sys_step props e s)) \/
  timed_out base due p (rn (sys_step props e s)).
Proof.
  intros Hq H. destruct e as [cmd| |e|t].
  - cbn. apply (step_quiet props _ _ _ (Call cmd)); [|exact H].
    destruct cmd; try reflexivity. discriminate Hq.
  - cbn. destruct (List.nth_error _ _); exact H.
  - destruct (sys_step_page_same props e s) as (H1 & H2 & H3).
    unfold armed, timed_out in *. rewrite H1, H2, H3. exact H.
  - cbn. apply (step_quiet props _ _ _ (Tick t)); [reflexivity | exact H].
Qed.

Lemma sys_run_quiet props base due p es s :
  Forall (fun e => sys_quiet e = true) es ->
  armed base due p (rn s) \/ timed_out base due p (rn s) ->
  armed base due p (rn (sys_run props es s)) \/
  timed_out base due p (rn (sys_run props es s)).
Proof.
  intros Hq. revert s. induction Hq as [|e es He _ IH]; intros s H; [exact H|].
  cbn. apply IH. now apply sys_step_quiet.
Qed.

Lemma fire_all_nulls (l : list (Z * nat)) (b : Bridge) :
  exists new, nulls new /\
    resolved (List.fold_left (fun b0 '(d, q) => fire d q b0) l b) = resolved b ++ new.
Proof.
  revert b. induction l as [|[d q] l IH]; intros b.
  - exists []. split; [constructor | now rewrite app_nil_r].
  - cbn [List.fold_left]. destruct (IH (fire d q b)) as (new & Hn & ->).
    unfold fire. destruct (overlayResolveRef b); cbn.
    + eexists (_ :: new). split; [|now rewrite <- app_assoc].
      constructor; [reflexivity | exact Hn].
    + now exists new.
Qed.

(** Whatever happens in the system, a [resolve] is only ever called with
    [null]: by a timer. *)
Lemma sys_step_nulls props e s :
  exists new, nulls new /\
    resolved (rn (sys_step props e s)) = resolved (rn s) ++ new.
Proof.
  destruct e as [cmd| |e|t].
  - exists []. split; [constructor|]. rewrite app_nil_r. cbn.
    destruct cmd; try apply sendCommand_same.
    unfold addRasterOverlay, sendCommand. cbn. now destruct (webView (rn s)).
  - exists []. split; [constructor|]. rewrite app_nil_r. cbn.
    now destruct (List.nth_error _ _).
  - exists []. split; [constructor|]. rewrite app_nil_r.
    apply (sys_step_page_same props e s).
  - cbn. unfold tick.
    match goal with
    | |- context [List.fold_left ?f ?l ?b0] =>
        destruct (fire_all_nulls l b0) as (new & Hn & H)
    end.
    exists new. split; [exact Hn | exact H].
Qed.

Lemma sys_run_nulls props es s :
  exists new, nulls new /\
    resolved (rn (sys_run props es s)) = resolved (rn s) ++ new.
Proof.
  revert s. induction es as [|e es IH]; intros s.
  - exists []. split; [constructor | now rewrite app_nil_r].
  - change (sys_run props (e :: es) s) with (sys_run props es (sys_step props e s)).
    destruct (IH (sys_step props e s)) as (new2 & Hn2 & ->).
    destruct (sys_step_nulls props e s) as (new1 & Hn1 & ->).
    exists (new1 ++ new2). split; [now apply Forall_app | now rewrite app_assoc].
Qed.

End SystemFacts.

(** C10 fails for a call made while another one is pending: the page
    ignores both commands, the timer of the first call empties the ref,
    and the timer of the second call then resolves nothing.  The second
    promise stays pending for ever. *)
Lemma pending_call_starves_the_next :
  let props := {| Bridge.onMapMoved := true; Bridge.onMapLoaded := true |} in
  let s0 := {| Bridge.rn := Bridge.initial;
               Bridge.page := {| Bridge.page_map := Renderer.loaded_map example_engine;
                                 Bridge.currentTileSource := "osm" |};
               Bridge.delivered := O |} in
  let s := Bridge.sys_run props
             [Bridge.SysCall (Bridge.AddRasterOverlay "a" "blob:a"); Bridge.SysDeliver;
              Bridge.SysTick 5000] s0 in
  let s' := Bridge.sys_run props
              [Bridge.SysCall (Bridge.AddRasterOverlay "b" "blob:b"); Bridge.SysDeliver;
               Bridge.SysTick 1000000] s in
  Bridge.resolved (Bridge.rn s') =
    [{| Bridge.at_time := 10000; Bridge.promise := 0; Bridge.value := None |}] /\
  Bridge.timers (Bridge.rn s') = [] /\
  Bridge.settled (Bridge.rn s') 1%nat = None /\
  ~ page_call_resolves_null props s "b" "blob:b".
Proof.
  cbv zeta. split; [vm_compute; reflexivity|]. split; [vm_compute; reflexivity|].
  split; [vm_compute; reflexivity|].
  intros H. specialize (H 1000000).
  destruct H as [r [Hr _]]; [vm_compute; discriminate|].
  vm_compute in Hr. discriminate.
Qed.

(** C10, amended.  In the WebView variant [handleCommand] acts on the
    four types [updateLocation], [flyToLocation], [hideLocation],
    [setTileSource] only and leaves the page as it is on an
    [addRasterOverlay] command; the page posts [mapLoaded] and [mapMoved]
    and nothing else; so in every run of bridge and page each call of a
    [resolve] function passes [null] (it is made by a timer).  And
    [addRasterOverlay(id, url)], called with no earlier timer pending and
    followed by anything but another [addRasterOverlay], is resolved with
    [null] at its 10 s deadline. *)
Theorem bridged_addRasterOverlay_resolves_null
  (props : Bridge.Props) (s : Bridge.System) (id url : string)
  (es : list Bridge.SysEvent) (t : Z) :
  Bridge.timers (Bridge.rn s) = [] ->
  Forall (fun e => Bridge.sys_quiet e = true) es ->
  Bridge.clock (Bridge.rn s) + 10000 <= t ->
  (forall cmd pg,
     Bridge.handleCommand cmd pg = pg \/
     List.In (Bridge.cmd_type cmd)
       ["updateLocation"; "flyToLocation"; "hideLocation"; "setTileSource"]) /\
  Bridge.handleCommand (Bridge.AddRasterOverlay id url) (Bridge.page s) = Bridge.page s /\
  (forall e pg,
     Forall (fun m => Bridge.msg_type m = "mapLoaded" \/ Bridge.msg_type m = "mapMoved")
            (snd (Bridge.page_event e pg))) /\
  (forall any s0, exists new,
     Forall (fun r => Bridge.value r = None) new /\
     Bridge.resolved (Bridge.rn (Bridge.sys_run props any s0))
     = Bridge.resolved (Bridge.rn s0) ++ new) /\
  let s1 := Bridge.sys_step props (Bridge.SysCall (Bridge.AddRasterOverlay id url)) s in
  let s' := Bridge.sys_step props (Bridge.SysTick t) (Bridge.sys_run props es s1) in
  Bridge.resolved (Bridge.rn s') =
    Bridge.resolved (Bridge.rn s)
    ++ [{| Bridge.at_time := Bridge.clock (Bridge.rn s) + 10000;
           Bridge.promise := Bridge.created (Bridge.rn s);
           Bridge.value := None |}].
Proof.
  intros Ht Hq Hdue.
  split; [|split; [reflexivity|split; [|split]]].
  - intros cmd pg. destruct cmd; cbn; tauto.
  - apply page_event_messages.
  - intros any s0. apply sys_run_nulls.
  - cbv zeta.
    assert (H : timed_out (Bridge.resolved (Bridge.rn s))
                  (Bridge.clock (Bridge.rn s) + 10000) (Bridge.created (Bridge.rn s))
                  (Bridge.rn (Bridge.sys_step props (Bridge.SysTick t)
                     (Bridge.sys_run props es
                        (Bridge.sys_step props
                           (Bridge.SysCall (Bridge.AddRasterOverlay id url)) s))))).
    { cbn [Bridge.sys_step Bridge.rn]. apply finally_timed_out; [exact Hdue|].
      apply sys_run_quiet; [exact Hq|]. left. cbn. now apply addRasterOverlay_armed. }
    destruct H as (_ & _ & H). exact H.
Qed.

Lemma bridged_addRasterOverlay_resolves_null_witness :
  let props := {| Bridge.onMapMoved := true; Bridge.onMapLoaded := true |} in
  let s := {| Bridge.rn := Bridge.initial;
              Bridge.page := {| Bridge.page_map := Renderer.initial_map example_engine;
                                Bridge.currentTileSource := "osm" |};
              Bridge.delivered := O |} in
  let es := [Bridge.SysPage Bridge.PageLoad; Bridge.SysDeliver;
             Bridge.SysCall Bridge.HideLocation; Bridge.SysDeliver;
             Bridge.SysPage Bridge.PageMoveEnd] in
  let s1 := Bridge.sys_step props (Bridge.SysCall (Bridge.AddRasterOverlay "a" "blob:a")) s in
  let s' := Bridge.sys_step props (Bridge.SysTick 10000) (Bridge.sys_run props es s1) in
  Bridge.resolved (Bridge.rn s') =
    [{| Bridge.at_time := 10000; Bridge.promise := 0; Bridge.value := None |}].
Proof.
  cbv zeta.
  refine (proj2 (proj2 (proj2 (proj2 (bridged_addRasterOverlay_resolves_null
    {| Bridge.onMapMoved := true; Bridge.onMapLoaded := true |}
    {| Bridge.rn := Bridge.initial;
       Bridge.page := {| Bridge.page_map := Renderer.initial_map example_engine;
                         Bridge.currentTileSource := "osm" |};
       Bridge.delivered := O |}
    "a" "blob:a"
    [Bridge.SysPage Bridge.PageLoad; Bridge.SysDeliver;
     Bridge.SysCall Bridge.HideLocation; Bridge.SysDeliver;
     Bridge.SysPage Bridge.PageMoveEnd] 10000 _ _ _))))).
  - reflexivity.
  - repeat constructor.
  - vm_compute. discriminate.
Defined.

(** ** The screen controller *)

Section ScreenFacts.
Import Screen.

Lemma fold_left_wf {A} (f : Store.IDB -> A -> Store.IDB) (l : list A) db :
  (forall d x, Store.wf d -> Store.wf (f d x)) ->
  Store.wf db -> Store.wf (List.fold_left f l db).
Proof.
  intros Hf. revert db. induction l as [|x l IH]; intros db H; [exact H|].
  cbn. apply IH, Hf, H.
Qed.

Lemma wf_saveGroup g db : Store.wf db -> Store.wf (fire_and_forget (Store.saveGroup g) db).
Proof. apply wf_after_open. intros d. apply wf_put_group. Qed.

Lemma wf_deleteGroup k db : Store.wf db -> Store.wf (fire_and_forget (Store.deleteGroup k) db).
Proof. apply wf_after_open. intros d. apply wf_delete_group. Qed.

Lemma wf_deleteOverlay k db :
  Store.wf db -> Store.wf (fire_and_forget (Store.deleteOverlay k) db).
Proof. apply wf_after_open. intros d. apply wf_delete_overlay. Qed.

Lemma wf_saveOverlay i nm bytes o v g now db :
  Store.wf db -> Store.wf (fire_and_forget (Store.saveOverlay i nm bytes o v g now) db).
Proof. apply wf_after_open. intros d. apply wf_put_overlay. Qed.

Lemma wf_updateOverlayGroup now i g db :
  Store.wf db -> Store.wf (fire_and_forget (Store.updateOverlayGroup now i g) db).
Proof. now apply wf_update_field. Qed.

Lemma wf_updateOverlayOpacity now i o db :
  Store.wf db -> Store.wf (fire_and_forget (Store.updateOverlayOpacity now i o) db).
Proof. now apply wf_update_field. Qed.

Lemma wf_updateOverlayVisibility now i v db :
  Store.wf db -> Store.wf (fire_and_forget (Store.updateOverlayVisibility now i v) db).
Proof. now apply wf_update_field. Qed.

(** The two loads only open the database. *)
Lemma loadAllGroups_run db :
  Store.loadAllGroups db =
  if (Store.DB_VERSION <? Store.version db)%nat then (None, db)
  else (Some (JsArray.sort (fun a b => Store.g_order a - Store.g_order b)
                (Store.getAll (Store.groups db))),
        {| Store.version := Store.DB_VERSION; Store.overlays := Store.overlays db;
           Store.groups := Store.groups db |}).
Proof.
  unfold Store.loadAllGroups, mbind, js_bind, Store.openDB.
  now destruct (Store.DB_VERSION <? Store.version db)%nat.
Qed.

Lemma loadAllOverlays_run now db :
  Store.loadAllOverlays now db =
  if (Store.DB_VERSION <? Store.version db)%nat then (None, db)
  else (Some (List.map (Store.normalizeOverlay now) (Store.getAll (Store.overlays db))),
        {| Store.version := Store.DB_VERSION; Store.overlays := Store.overlays db;
           Store.groups := Store.groups db |}).
Proof.
  unfold Store.loadAllOverlays, mbind, js_bind, Store.openDB.
  now destruct (Store.DB_VERSION <? Store.version db)%nat.
Qed.

Lemma wf_reopened db :
  Store.wf db ->
  Store.wf {| Store.version := Store.DB_VERSION; Store.overlays := Store.overlays db;
              Store.groups := Store.groups db |}.
Proof. intros [Ho Hg]. now split. Qed.

(** The loop of the restore effect touches neither groups nor database. *)
Lemma restore_entries_keep env (l : list Store.StoredOverlay) s :
  overlayGroups (List.fold_left (restore_entry env) l s) = overlayGroups s /\
  idb (List.fold_left (restore_entry env) l s) = idb s.
Proof.
  revert s. induction l as [|e l IH]; intros s; [now split|].
  cbn [List.fold_left]. destruct (IH (restore_entry env s e)) as [-> ->].
  unfold restore_entry.
  destruct (Renderer.addRasterOverlay _ _ _ _) as [[d|] m1]; now split.
Qed.

(** The groups of a well-formed store have distinct ids, in any order. *)
Lemma stored_groups_NoDup (m : gmap string Store.StoredGroup) cmp :
  (forall k g, m !! k = Some g -> Store.g_id g = k) ->
  List.NoDup (List.map Store.g_id (JsArray.sort cmp (Store.getAll m))).
Proof.
  intros Hwf.
  apply (Permutation_NoDup (l := List.map Store.g_id (Store.getAll m))).
  { apply Permutation_map. symmetry. apply sort_perm. }
  unfold Store.getAll. destruct (sorted_map_to_list m) as [Hnd Hin].
  rewrite List.map_map.
  rewrite (List.map_ext_in _ fst); [exact Hnd|].
  intros [k g] Hkg. cbn. apply Hwf. now apply Hin.
Qed.

Lemma existsb_false_filter {A} (P : A -> bool) (l : list A) :
  List.existsb P l = false -> List.filter P l = [].
Proof.
  induction l as [|x l IH]; cbn; [reflexivity|].
  destruct (P x); cbn; [discriminate | exact IH].
Qed.

Lemma existsb_true_filter {A} (P : A -> bool) (l : list A) :
  List.existsb P l = true -> (1 <= length (List.filter P l))%nat.
Proof.
  induction l as [|x l IH]; cbn; [discriminate|].
  destruct (P x); cbn; [lia | exact IH].
Qed.

Lemma default_count_of_stored (l : list Store.StoredGroup) :
  default_count (List.map of_stored l)
  = length (List.filter (fun g => String.eqb (Store.g_id g) "default") l).
Proof.
  unfold default_count. rewrite List.filter_map_swap, List.length_map. reflexivity.
Qed.

(** The group list the restore effect builds has one default group. *)
Lemma restored_groups_default (stored : list Store.StoredGroup) :
  List.NoDup (List.map Store.g_id stored) ->
  default_count
    (List.map of_stored
       (if List.existsb (fun g => String.eqb (Store.g_id g) "default") stored
        then stored else stored ++ [to_stored DEFAULT_GROUP])) = 1%nat.
Proof.
  intros Hnd. rewrite default_count_of_stored.
  destruct (List.existsb _ stored) eqn:E.
  - apply existsb_true_filter in E.
    pose proof (NoDup_key_once Store.g_id "default" stored Hnd). lia.
  - rewrite List.filter_app, (existsb_false_filter _ _ E). reflexivity.
Qed.

Lemma default_count_map (f : OverlayGroup -> OverlayGroup) (P : OverlayGroup -> bool) gs :
  (forall g, gid (f g) = gid g) ->
  default_count (List.map (fun g => if P g then f g else g) gs) = default_count gs.
Proof.
  intros Hf. unfold default_count. rewrite List.filter_map_swap, List.length_map.
  f_equal. apply List.filter_ext. intros g. unfold is_default.
  destruct (P g); [now rewrite Hf | reflexivity].
Qed.

Lemma default_count_remove gs g :
  g <> "default" ->
  default_count (List.filter (fun x => negb (String.eqb (gid x) g)) gs)
  = default_count gs.
Proof.
  intros Hg. unfold default_count. induction gs as [|x gs IH]; [reflexivity|].
  cbn. unfold is_default at 2.
  destruct (String.eqb_spec (gid x) g) as [Hx | Hx]; cbn.
  - destruct (String.eqb_spec (gid x) "default"); [congruence | exact IH].
  - unfold is_default at 1. destruct (String.eqb (gid x) "default"); cbn; now rewrite IH.
Qed.

Lemma default_count_create gs newGroup :
  is_default newGroup = false ->
  default_count
    (List.filter (fun g => negb (is_default g)) gs
     ++ [newGroup; default DEFAULT_GROUP (List.find is_default gs)]) = 1%nat.
Proof.
  intros Hnew. unfold default_count. rewrite List.filter_app, List.length_app.
  assert (H0 : List.filter is_default (List.filter (fun g => negb (is_default g)) gs) = []).
  { induction gs as [|x gs IH]; [reflexivity|]. cbn.
    destruct (is_default x) eqn:E; cbn; [exact IH|]. now rewrite E. }
  rewrite H0. cbn. rewrite Hnew.
  assert (Hd : is_default (default DEFAULT_GROUP (List.find is_default gs)) = true).
  { destruct (List.find is_default gs) eqn:E; [|reflexivity].
    now apply List.find_some in E. }
  now rewrite Hd.
Qed.

(** Every handler keeps the invariant. *)
Lemma step_inv a s : screen_inv s -> screen_inv (step a s).
Proof.
  intros [Hwf Hdef]. destruct a; cbn [step].
  - (* restore *)
    unfold restore. destruct (mapRef s); [|now split].
    rewrite loadAllGroups_run.
    destruct (Store.DB_VERSION <? Store.version (idb s))%nat eqn:Ev; [now split|].
    set (stored := JsArray.sort _ (Store.getAll (Store.groups (idb s)))).
    set (groups1 := if (0 <? length stored)%nat then _ else overlayGroups s).
    assert (Hg1 : default_count groups1 = 1%nat).
    { subst groups1. destruct (0 <? length stored)%nat; [|exact Hdef].
      apply restored_groups_default. apply stored_groups_NoDup. apply Hwf. }
    rewrite loadAllOverlays_run. cbn [Store.version Store.overlays Store.groups].
    change (Store.DB_VERSION <? Store.DB_VERSION)%nat with false. cbv iota beta.
    match goal with
    | |- screen_inv (List.fold_left _ ?l ?s0) =>
        destruct (restore_entries_keep env l s0) as [Hg Hd]
    end.
    unfold screen_inv. rewrite Hg, Hd. cbn [idb overlayGroups].
    split; [now apply wf_reopened | exact Hg1].
  - (* add *)
    unfold handleAddOverlay. destruct file as [[fname bytes]|]; [|now split].
    destruct (Renderer.addRasterOverlay _ _ _ _) as [[d|] m1]; [|now split].
    split; [|exact Hdef]. now apply wf_saveOverlay.
  - split; [|exact Hdef]. now apply wf_deleteOverlay.
  - split; [|exact Hdef]. now apply wf_updateOverlayOpacity.
  - split; [|exact Hdef]. cbn. apply fold_left_wf; [|exact Hwf].
    intros d x. apply wf_updateOverlayVisibility.
  - split.
    + cbn. apply fold_left_wf; [|exact Hwf]. intros d x. apply wf_saveGroup.
    + unfold handleToggleGroupExpanded. cbv zeta. cbn [overlayGroups].
      rewrite (default_count_map
                 (fun g => {| gid := gid g; gname := gname g;
                              expanded := negb (expanded g); order := order g |})
                 (fun g => String.eqb (gid g) groupId')); [exact Hdef | reflexivity].
  - (* create *)
    unfold handleCreateGroup. destruct (String.eqb _ ""); [now split|].
    split; [now apply wf_saveGroup|]. cbn [overlayGroups].
    now apply default_count_create.
  - (* rename *)
    unfold handleRenameGroup. destruct renameGroupId as [rid|]; [|now split].
    destruct (String.eqb _ ""); [now split|]. split.
    + cbn. apply fold_left_wf; [|exact Hwf]. intros d x. apply wf_saveGroup.
    + cbv zeta. cbn [overlayGroups].
      rewrite (default_count_map
                 (fun g => {| gid := gid g; gname := JsArray.trim renameGroupName;
                              expanded := expanded g; order := order g |})
                 (fun g => String.eqb (gid g) rid)); [exact Hdef | reflexivity].
  - (* delete *)
    unfold handleDeleteGroup.
    destruct (String.eqb_spec groupId' "default") as [|Hne]; [now split|]. split.
    + cbn. apply wf_deleteGroup. apply fold_left_wf; [|exact Hwf].
      intros d x. apply wf_updateOverlayGroup.
    + cbn [overlayGroups]. now rewrite default_count_remove.
  - split; [|exact Hdef]. cbn. apply fold_left_wf; [|exact Hwf].
    intros d x. apply wf_updateOverlayGroup.
  - now split.
  - now split.
  - now split.
Qed.

Lemma reachable_inv s : reachable s -> screen_inv s.
Proof.
  induction 1 as [m db Hwf | a s _ IH]; [now split | now apply step_inv].
Qed.

(** [updateOverlayGroup] keeps the ids of a well-formed store. *)
Lemma dom_updateOverlayGroup now i g db :
  Store.wf db ->
  dom (Store.overlays (fire_and_forget (Store.updateOverlayGroup now i g) db))
  = dom (Store.overlays db).
Proof.
  intros [Hwf _]. unfold fire_and_forget, Store.updateOverlayGroup, Store.update_field,
    mbind, js_bind, modify, Store.openDB.
  destruct (Store.DB_VERSION <? Store.version db)%nat; cbn; [reflexivity|].
  destruct (Store.overlays db !! i) as [r|] eqn:E; cbn; [|reflexivity].
  rewrite (Hwf _ _ E). apply dom_insert_lookup_L. now rewrite E.
Qed.

Lemma dom_reparent_members now (l : list OverlayInfo) db :
  Store.wf db ->
  dom (Store.overlays
         (List.fold_left
            (fun d o => fire_and_forget (Store.updateOverlayGroup now (id o) "default") d)
            l db))
  = dom (Store.overlays db).
Proof.
  revert db. induction l as [|o l IH]; intros db Hwf; [reflexivity|].
  cbn [List.fold_left]. rewrite IH by now apply wf_updateOverlayGroup.
  now apply dom_updateOverlayGroup.
Qed.

(** One [updateOverlayGroup] on a store that can be opened: the record
    under the id is read with its defaults and written back in the
    group; every other record is as it was. *)
Lemma updateOverlayGroup_lookup now i g db k :
  Store.wf db -> (Store.version db <= Store.DB_VERSION)%nat ->
  Store.overlays (fire_and_forget (Store.updateOverlayGroup now i g) db) !! k =
  match Store.overlays db !! k with
  | Some r => Some (if String.eqb i k then with_groupId g (with_defaults now r) else r)
  | None => None
  end.
Proof.
  intros [Hwf _] Hv. unfold fire_and_forget, Store.updateOverlayGroup.
  destruct (Store.overlays db !! i) as [r|] eqn:Ei.
  - rewrite (update_field_present _ _ _ _ r Hv Ei).
    cbn [snd Store.put_overlay Store.overlays].
    match goal with
    | |- <[?key := _]> _ !! _ = _ => replace key with i by (symmetry; apply (Hwf _ _ Ei))
    end.
    destruct (String.eqb_spec i k) as [<- | Hne].
    + rewrite lookup_insert_eq, Ei. reflexivity.
    + rewrite lookup_insert_ne by exact Hne. now destruct (Store.overlays db !! k).
  - rewrite (update_field_absent _ _ _ _ Hv Ei). cbn [snd Store.overlays].
    destruct (String.eqb_spec i k) as [<- | Hne]; [now rewrite Ei|].
    now destruct (Store.overlays db !! k).
Qed.

Lemma version_update_field now i assign db :
  (Store.version db <= Store.DB_VERSION)%nat ->
  (Store.version (fire_and_forget (Store.update_field now i assign) db)
   <= Store.DB_VERSION)%nat.
Proof.
  intros Hv. unfold fire_and_forget.
  destruct (Store.overlays db !! i) as [r|] eqn:Ei.
  - rewrite (update_field_present _ _ _ _ r Hv Ei). cbn. lia.
  - rewrite (update_field_absent _ _ _ _ Hv Ei). cbn. lia.
Qed.

(** Written back in a group, a record has every field: reading it again
    with the defaults and writing it in the same group changes nothing. *)
Lemma with_groupId_twice now now' g r :
  with_groupId g (with_defaults now' (with_groupId g (with_defaults now r)))
  = with_groupId g (with_defaults now r).
Proof. reflexivity. Qed.

(** The [updateOverlayGroup] calls of [handleDeleteGroup], one after the
    other. *)
Lemma reparent_members_lookup now (l : list OverlayInfo) db k :
  Store.wf db -> (Store.version db <= Store.DB_VERSION)%nat ->
  Store.overlays
    (List.fold_left
       (fun d o => fire_and_forget (Store.updateOverlayGroup now (id o) "default") d)
       l db) !! k =
  match Store.overlays db !! k with
  | Some r => Some (if List.existsb (fun o => String.eqb (id o) k) l
                    then with_groupId "default" (with_defaults now r) else r)
  | None => None
  end.
Proof.
  revert db. induction l as [|o l IH]; intros db Hwf Hv.
  - cbn. now destruct (Store.overlays db !! k).
  - cbn [List.fold_left List.existsb].
    rewrite IH; [|now apply wf_updateOverlayGroup | now apply version_update_field].
    rewrite (updateOverlayGroup_lookup now (id o) "default" db k Hwf Hv).
    destruct (Store.overlays db !! k) as [r|]; [|reflexivity].
    destruct (String.eqb (id o) k); cbn [orb]; [|reflexivity].
    destruct (List.existsb _ l); [|reflexivity].
    now rewrite with_groupId_twice.
Qed.

(** A database that cannot be opened is left as it is. *)
Lemma reparent_members_closed now (l : list OverlayInfo) db :
  (Store.DB_VERSION < Store.version db)%nat ->
  List.fold_left
    (fun d o => fire_and_forget (Store.updateOverlayGroup now (id o) "default") d)
    l db = db.
Proof.
  intros Hv. induction l as [|o l IH]; [reflexivity|].
  cbn [List.fold_left].
  assert (H1 : fire_and_forget (Store.updateOverlayGroup now (id o) "default") db = db).
  { unfold fire_and_forget, Store.updateOverlayGroup, Store.update_field, mbind, js_bind,
      Store.openDB.
    apply Nat.ltb_lt in Hv. now rewrite Hv. }
  now rewrite H1.
Qed.

Lemma existsb_filter {A} (P Q : A -> bool) (l : list A) :
  List.existsb P (List.filter Q l) = List.existsb (fun x => (P x && Q x)%bool) l.
Proof.
  induction l as [|x l IH]; [reflexivity|]. cbn.
  destruct (Q x); cbn; rewrite IH.
  - now rewrite andb_true_r.
  - now rewrite andb_false_r.
Qed.

End ScreenFacts.

(** C5 fails for an overlay that is stored but not listed.  The store
    holds the overlay ["a"] in the group ["g"]; the restore effect lists
    the group but not the overlay, whose file cannot be read.  Deleting
    ["g"] removes the group from the list and from the store and leaves
    the record of ["a"] in the group ["g"]; the restore of the next
    session, the file being readable again, lists ["a"] in a group that
    no longer exists. *)
Lemma stored_overlay_keeps_deleted_group :
  let db := Store.put_group
              {| Store.g_id := "g"; Store.g_name := "Survey";
                 Store.g_expanded := true; Store.g_order := 1 |}
              (Store.put_overlay
                 {| Store.raw_id := "a"; Store.raw_filename := "a.pmtiles";
                    Store.raw_data := []; Store.raw_opacity := Some 0.8%Q;
                    Store.raw_visible := Some true; Store.raw_groupId := Some "g";
                    Store.raw_timestamp := Some 1; Store.raw_url := None |}
                 Store.fresh) in
  let unreadable := fun _ : string =>
    {| Screen.blobUrl := "blob:1";
       Screen.outcome := {| Renderer.header := None; Renderer.addSource_throws := false;
                            Renderer.addLayer_throws := false;
                            Renderer.fitBounds_throws := false |} |} in
  let readable := fun _ : string =>
    {| Screen.blobUrl := "blob:2";
       Screen.outcome := Renderer.all_fine (130, 30, 131, 31)%Q |} in
  let s := Screen.step (Screen.Restore 2 unreadable)
             (Screen.initial (Some (Renderer.loaded_map example_engine)) db) in
  let s' := Screen.step (Screen.DeleteGroup 3 "g") s in
  let s'' := Screen.step (Screen.Restore 4 readable)
               (Screen.initial (Some (Renderer.loaded_map example_engine))
                  (Screen.idb s')) in
  Screen.reachable s /\
  List.map Screen.gid (Screen.overlayGroups s) = ["g"; "default"] /\
  Screen.overlays s = [] /\
  option_map Store.raw_groupId (Store.overlays (Screen.idb s) !! "a") = Some (Some "g") /\
  List.map Screen.gid (Screen.overlayGroups s') = ["default"] /\
  Store.groups (Screen.idb s') !! "g" = None /\
  option_map Store.raw_groupId (Store.overlays (Screen.idb s') !! "a") = Some (Some "g") /\
  List.map (fun o => (Screen.id o, Screen.groupId o)) (Screen.overlays s'') = [("a", "g")] /\
  List.map Screen.gid (Screen.overlayGroups s'') = ["default"].
Proof.
  cbv zeta. split.
  { apply Screen.reach_step, Screen.reach_initial.
    apply wf_put_group, wf_put_overlay, wf_fresh. }
  repeat split; vm_compute; reflexivity.
Qed.

(** C5, amended.  In every reachable state of the screen exactly one
    group has id ["default"].  Deleting ["default"] changes nothing.
    Deleting another group keeps that one default group and keeps every
    overlay, on the screen and in the store.  The overlays listed in the
    deleted group get the group ["default"], on the screen and, when the
    database can be opened, in their stored record (read with its
    defaults); every other listed overlay keeps its group and every other
    stored record, that of an overlay the screen does not list included,
    stays as it is.  A database that cannot be opened is not changed. *)
Theorem default_group_is_unique_and_kept (s : Screen.App) :
  Screen.reachable s ->
  length (List.filter (fun g => String.eqb (Screen.gid g) "default")
            (Screen.overlayGroups s)) = 1%nat /\
  (forall now, Screen.handleDeleteGroup now "default" s = s) /\
  (forall now g, g <> "default" ->
     let s' := Screen.handleDeleteGroup now g s in
     length (List.filter (fun g => String.eqb (Screen.gid g) "default")
               (Screen.overlayGroups s')) = 1%nat /\
     length (Screen.overlays s') = length (Screen.overlays s) /\
     dom (Store.overlays (Screen.idb s')) = dom (Store.overlays (Screen.idb s)) /\
     (forall n o, List.nth_error (Screen.overlays s) n = Some o ->
        exists o', List.nth_error (Screen.overlays s') n = Some o' /\
          Screen.id o' = Screen.id o /\ Screen.name o' = Screen.name o /\
          Screen.groupId o' =
            (if String.eqb (Screen.groupId o) g then "default" else Screen.groupId o)) /\
     ((Store.version (Screen.idb s) <= Store.DB_VERSION)%nat ->
      forall k,
        Store.overlays (Screen.idb s') !! k =
        match Store.overlays (Screen.idb s) !! k with
        | Some r => Some (if listed_in g k s
                          then with_groupId "default" (with_defaults now r) else r)
        | None => None
        end) /\
     ((Store.DB_VERSION < Store.version (Screen.idb s))%nat ->
      Screen.idb s' = Screen.idb s)).
Proof.
  intros Hr. destruct (reachable_inv s Hr) as [Hwf Hdef].
  split; [exact Hdef|]. split; [reflexivity|].
  intros now g Hg s'.
  assert (Hs' : s' = Screen.step (Screen.DeleteGroup now g) s) by reflexivity.
  split.
  { rewrite Hs'. apply (step_inv _ s). now split. }
  subst s'. unfold Screen.handleDeleteGroup.
  destruct (String.eqb_spec g "default") as [|_]; [contradiction|].
  cbn [Screen.overlays Screen.idb].
  split; [apply List.length_map|]. split; [|split; [|split]].
  - unfold fire_and_forget at 1, Store.deleteGroup, mbind, js_bind, modify, Store.openDB.
    match goal with |- context [List.fold_left ?f ?l ?d] => set (db1 := List.fold_left f l d) end.
    assert (Hdom : dom (Store.overlays db1) = dom (Store.overlays (Screen.idb s))).
    { subst db1. now apply dom_reparent_members. }
    destruct (Store.DB_VERSION <? Store.version db1)%nat; cbn; exact Hdom.
  - intros n o Hn. exists (Screen.reparent g o). split.
    + rewrite List.nth_error_map, Hn. reflexivity.
    + unfold Screen.reparent. destruct (String.eqb (Screen.groupId o) g); now cbn.
  - intros Hv k.
    assert (Hdel : forall d, Store.overlays (fire_and_forget (Store.deleteGroup g) d)
                             = Store.overlays d).
    { intros d. unfold fire_and_forget, Store.deleteGroup, mbind, js_bind, modify,
        Store.openDB.
      now destruct (Store.DB_VERSION <? Store.version d)%nat. }
    rewrite Hdel, (reparent_members_lookup now _ _ k Hwf Hv).
    unfold listed_in. now rewrite existsb_filter.
  - intros Hv. rewrite (reparent_members_closed now _ _ Hv).
    unfold fire_and_forget, Store.deleteGroup, mbind, js_bind, Store.openDB.
    apply Nat.ltb_lt in Hv. now rewrite Hv.
Qed.

Lemma default_group_is_unique_and_kept_witness :
  let db := Store.put_group
              {| Store.g_id := "g"; Store.g_name := "Survey";
                 Store.g_expanded := true; Store.g_order := 1 |}
              (Store.put_overlay
                 {| Store.raw_id := "a"; Store.raw_filename := "a.pmtiles";
                    Store.raw_data := []; Store.raw_opacity := None;
                    Store.raw_visible := Some true; Store.raw_groupId := Some "g";
                    Store.raw_timestamp := Some 1; Store.raw_url := None |}
                 Store.fresh) in
  let readable := fun _ : string =>
    {| Screen.blobUrl := "blob:2";
       Screen.outcome := Renderer.all_fine (130, 30, 131, 31)%Q |} in
  let s := Screen.step (Screen.Restore 2 readable)
             (Screen.initial (Some (Renderer.loaded_map example_engine)) db) in
  let s' := Screen.handleDeleteGroup 3 "g" s in
  List.map (fun o => (Screen.id o, Screen.groupId o)) (Screen.overlays s) = [("a", "g")] /\
  length (List.filter (fun g => String.eqb (Screen.gid g) "default")
            (Screen.overlayGroups s')) = 1%nat /\
  Store.overlays (Screen.idb s') !! "a" =
    Some {| Store.raw_id := "a"; Store.raw_filename := "a.pmtiles";
            Store.raw_data := []; Store.raw_opacity := Some 0.8%Q;
            Store.raw_visible := Some true; Store.raw_groupId := Some "default";
            Store.raw_timestamp := Some 1; Store.raw_url := None |}.
Proof.
  cbv zeta.
  match goal with
  | |- context [Screen.handleDeleteGroup 3 "g" ?s0] =>
      assert (Hr : Screen.reachable s0)
        by (apply Screen.reach_step, Screen.reach_initial;
            apply wf_put_group, wf_put_overlay, wf_fresh);
      destruct (default_group_is_unique_and_kept s0 Hr) as (_ & _ & H)
  end.
  destruct (H 3 "g" ltac:(discriminate)) as (Hone & _ & _ & _ & Hstore & _).
  split; [vm_compute; reflexivity|]. split; [exact Hone|].
  rewrite Hstore by (vm_compute; lia).
  vm_compute. reflexivity.
Defined.

(** ** Adding an overlay whose id is in the store *)

Section AddFacts.
Import Screen.




End AddFacts.




(* ===================================================================== *)
(** * Further properties                                                  *)
(* ===================================================================== *)

(** ** Layers and their visibility *)

Section VisibilityFacts.
Import Renderer.

Lemma set_layers_same (f : list Layer -> list Layer) (m : Map) :
  f (layers m) = layers m -> set_layers f m = m.
Proof. intros H. destruct m. unfold set_layers. cbn in *. now rewrite H. Qed.

Lemma set_layers_set_layers (f g : list Layer -> list Layer) (m : Map) :
  set_layers g (set_layers f m) = set_layers (fun ls => g (f ls)) m.
Proof. reflexivity. Qed.

Lemma among_cons i ids id : among (i :: ids) id = (String.eqb id i || among ids id)%bool.
Proof. reflexivity. Qed.

Lemma among_app ids1 ids2 id :
  among (ids1 ++ ids2) id = (among ids1 id || among ids2 id)%bool.
Proof. unfold among. apply List.existsb_app. Qed.

Lemma find_none_map_same (id : string) (f : Layer -> Layer) (ls : list Layer) :
  List.find (fun l => String.eqb (layer_id l) id) ls = None ->
  List.map (fun l => if String.eqb (layer_id l) id then f l else l) ls = ls.
Proof.
  induction ls as [|x xs IH]; cbn; [reflexivity|].
  destruct (String.eqb (layer_id x) id); [discriminate|].
  intros H. now rewrite IH.
Qed.

(** One [if (map.getLayer(id)) map.setLayoutProperty(id, 'visibility', v)]. *)
Lemma guarded_setLayoutVisibility id v m :
  (if hasLayer m id then setLayoutVisibility id v m else m) =
  set_layers (List.map (show_only [id] v)) m.
Proof.
  assert (Hf : forall ls, List.map (show_only [id] v) ls =
             List.map (fun l => if String.eqb (layer_id l) id
                                then with_visibility v l else l) ls).
  { intros ls. apply List.map_ext. intros l. unfold show_only, among. cbn.
    now destruct (String.eqb (layer_id l) id). }
  destruct (hasLayer m id) eqn:E.
  - unfold setLayoutVisibility, set_layers. now rewrite Hf.
  - symmetry. apply set_layers_same. rewrite Hf.
    apply find_none_map_same. now apply getLayer_hasLayer.
Qed.

(** The [forEach] loops over layer ids are one pass over the layers. *)
Lemma setVisibilityOfAll_map ids v m :
  setVisibilityOfAll ids v m = set_layers (List.map (show_only ids v)) m.
Proof.
  unfold setVisibilityOfAll. revert m. induction ids as [|i ids IH]; intros m.
  - cbn. symmetry. apply set_layers_same. unfold show_only. cbn.
    now rewrite List.map_id.
  - cbn [List.fold_left]. rewrite guarded_setLayoutVisibility, IH, set_layers_set_layers.
    unfold set_layers. f_equal. rewrite List.map_map. apply List.map_ext.
    intros l. unfold show_only at 2 3. rewrite among_cons. cbn.
    destruct (String.eqb (layer_id l) i) eqn:E; cbn.
    + unfold show_only. cbn. now destruct (among ids (layer_id l)).
    + reflexivity.
Qed.

Lemma setLocationLayersVisibility_map v m :
  setLocationLayersVisibility v m =
  set_layers (List.map (show_only location_layers v)) m.
Proof. apply (setVisibilityOfAll_map location_layers). Qed.

Lemma show_only_twice ids v w l :
  show_only ids w (show_only ids v l) = show_only ids w l.
Proof.
  unfold show_only. destruct (among ids (layer_id l)) eqn:E; cbn; now rewrite E.
Qed.

Lemma layerMap_is_raster source shown :
  layerMap source = Some shown -> among allRasterLayers shown = true.
Proof.
  unfold layerMap.
  repeat match goal with |- context [if ?c then _ else _] => destruct c end;
    intros [= <-]; reflexivity.
Qed.

Lemma show_only_id ids v l : layer_id (show_only ids v l) = layer_id l.
Proof. unfold show_only. now destruct (among ids (layer_id l)). Qed.

(** Hide the raster layers, hide the vector layers, show the vector
    layers again: layer by layer. *)
Lemma retile_vector (l : Layer) :
  show_only PMTILES_LAYER_IDS true
    (show_only PMTILES_LAYER_IDS false (show_only allRasterLayers false l)) =
  if (among allRasterLayers (layer_id l) || among PMTILES_LAYER_IDS (layer_id l))%bool
  then with_visibility (among PMTILES_LAYER_IDS (layer_id l)) l else l.
Proof.
  destruct (among allRasterLayers (layer_id l)) eqn:Er;
    destruct (among PMTILES_LAYER_IDS (layer_id l)) eqn:Ep;
    unfold show_only;
    do 3 (rewrite ?Er, ?Ep; cbn [layer_id with_visibility]); reflexivity.
Qed.

(** Hide the raster layers, hide the vector layers, show one raster layer. *)
Lemma retile_raster (shown : string) (l : Layer) :
  among allRasterLayers shown = true ->
  show_only [shown] true
    (show_only PMTILES_LAYER_IDS false (show_only allRasterLayers false l)) =
  if (among allRasterLayers (layer_id l) || among PMTILES_LAYER_IDS (layer_id l))%bool
  then with_visibility (String.eqb (layer_id l) shown) l else l.
Proof.
  intros Hshown.
  assert (Hone : among [shown] (layer_id l) = String.eqb (layer_id l) shown).
  { unfold among. cbn [List.existsb]. apply orb_false_r. }
  assert (Hr : String.eqb (layer_id l) shown = true ->
               among allRasterLayers (layer_id l) = true).
  { intros E. apply String.eqb_eq in E. now rewrite E. }
  destruct (String.eqb (layer_id l) shown) eqn:Es;
    [rewrite (Hr eq_refl) in *|];
    destruct (among allRasterLayers (layer_id l)) eqn:Er;
    destruct (among PMTILES_LAYER_IDS (layer_id l)) eqn:Ep;
    try discriminate;
    unfold show_only;
    do 3 (rewrite ?Er, ?Ep, ?Hone, ?Es; cbn [layer_id with_visibility]);
    reflexivity.
Qed.

(** Hide the raster layers, hide the vector layers, show nothing. *)
Lemma retile_none (l : Layer) :
  show_only PMTILES_LAYER_IDS false (show_only allRasterLayers false l) =
  if (among allRasterLayers (layer_id l) || among PMTILES_LAYER_IDS (layer_id l))%bool
  then with_visibility false l else l.
Proof.
  destruct (among allRasterLayers (layer_id l)) eqn:Er;
    destruct (among PMTILES_LAYER_IDS (layer_id l)) eqn:Ep;
    unfold show_only;
    do 2 (rewrite ?Er, ?Ep; cbn [layer_id with_visibility]); reflexivity.
Qed.

Lemma setTileSourceOn_map source m :
  setTileSourceOn source m = set_layers (List.map (retile source)) m.
Proof.
  unfold setTileSourceOn. rewrite !setVisibilityOfAll_map.
  destruct (String.eqb source "pmtiles") eqn:Es;
    [|destruct (layerMap source) as [shown|] eqn:Em;
      [rewrite guarded_setLayoutVisibility|]];
    rewrite !set_layers_set_layers; unfold set_layers; f_equal;
    rewrite !List.map_map; apply List.map_ext; intros l;
    unfold retile, selected; rewrite Es, ?Em, among_app.
  - apply retile_vector.
  - apply retile_raster, (layerMap_is_raster source), Em.
  - apply retile_none.
Qed.

End VisibilityFacts.

(** X1.  [hideLocation] hides the three location layers and nothing else:
    every other layer, the order of the layers, the sources (the last
    position included) and the camera stay; hiding twice is hiding once;
    without a map nothing happens. *)
Theorem hideLocation_hides_only_the_marker (m : Renderer.Map) :
  exists m',
    Renderer.hideLocation (Some m) = Some m' /\
    Renderer.layers m' =
      List.map (show_only Renderer.location_layers false) (Renderer.layers m) /\
    Renderer.sources m' = Renderer.sources m /\
    Renderer.center m' = Renderer.center m /\ Renderer.zoom m' = Renderer.zoom m /\
    Renderer.hideLocation (Renderer.hideLocation (Some m)) = Renderer.hideLocation (Some m) /\
    Renderer.hideLocation None = None.
Proof.
  exists (Renderer.setLocationLayersVisibility false m). split; [reflexivity|].
  unfold Renderer.hideLocation. rewrite !setLocationLayersVisibility_map.
  repeat split. unfold Renderer.set_layers. cbn. do 2 f_equal.
  rewrite List.map_map. apply List.map_ext. intros l. apply show_only_twice.
Qed.

(** X2.  [setTileSource] selects one basemap: afterwards a basemap layer
    is visible exactly when it belongs to the chosen source (all vector
    layers for ["pmtiles"], else the single raster layer of the source),
    whatever was visible before; layers that are no basemap layers, the
    sources and the camera are untouched; selecting twice is selecting
    once.  A source name outside the five known ones selects the OSM
    raster layer, unless it is a name the lookup object inherits
    (["constructor"], ["toString"], ...): then no basemap layer is shown. *)
Theorem setTileSource_shows_exactly_the_selection
  (source : string) (m : Renderer.Map) :
  exists m',
    Renderer.setTileSource source (Some m) = Some m' /\
    Renderer.layers m' = List.map (retile source) (Renderer.layers m) /\
    Forall (fun l =>
              among (Renderer.allRasterLayers ++ Renderer.PMTILES_LAYER_IDS)
                    (Renderer.layer_id l) = true ->
              Renderer.visibility l = selected source (Renderer.layer_id l))
           (Renderer.layers m') /\
    Renderer.sources m' = Renderer.sources m /\
    Renderer.camera m' = Renderer.camera m /\
    Renderer.setTileSource source (Some m') = Some m' /\
    (~ List.In source ["osm"; "pmtiles"; "gsi-pale"; "gsi-photo"; "gsi-hillshade"] ->
     ~ List.In source Renderer.inherited ->
     Renderer.setTileSource source (Some m) = Renderer.setTileSource "osm" (Some m)) /\
    (List.In source Renderer.inherited ->
     Renderer.layerMap source = None /\ forall id, selected source id = false).
Proof.
  exists (Renderer.setTileSourceOn source m). split; [reflexivity|].
  rewrite setTileSourceOn_map. cbn [Renderer.layers Renderer.set_layers Renderer.sources].
  split; [reflexivity|]. split; [|split; [reflexivity|split; [reflexivity|split; [|split]]]].
  - rewrite Forall_forall. intros l Hl. apply list_elem_of_In, List.in_map_iff in Hl.
    destruct Hl as (l0 & <- & _). unfold retile.
    destruct (among _ (Renderer.layer_id l0)) eqn:E; [reflexivity|].
    intros H. congruence.
  - unfold Renderer.setTileSource. rewrite setTileSourceOn_map.
    unfold Renderer.set_layers. cbn. do 2 f_equal.
    rewrite List.map_map. apply List.map_ext. intros l. unfold retile.
    destruct (among _ (Renderer.layer_id l)) eqn:E;
      cbn [Renderer.layer_id with_visibility]; now rewrite E.
  - intros Hnot Hown. unfold Renderer.setTileSource, Renderer.setTileSourceOn.
    assert (H1 : String.eqb source "pmtiles" = false).
    { apply String.eqb_neq. intros ->. apply Hnot. right. left. reflexivity. }
    assert (H2 : Renderer.layerMap source = Some "osm-raster-layer").
    { unfold Renderer.layerMap.
      destruct (String.eqb_spec source "osm") as [_|_]; [reflexivity|].
      destruct (String.eqb_spec source "gsi-pale") as [->|_];
        [exfalso; apply Hnot; do 2 right; left; reflexivity|].
      destruct (String.eqb_spec source "gsi-photo") as [->|_];
        [exfalso; apply Hnot; do 3 right; left; reflexivity|].
      destruct (String.eqb_spec source "gsi-hillshade") as [->|_];
        [exfalso; apply Hnot; do 4 right; left; reflexivity|].
      destruct (List.existsb (String.eqb source) Renderer.inherited) eqn:E;
        [|reflexivity].
      apply List.existsb_exists in E. destruct E as (x & Hx & E).
      apply String.eqb_eq in E. subst x. contradiction. }
    cbv zeta. rewrite H1, H2.
    change (String.eqb "osm" "pmtiles") with false.
    change (Renderer.layerMap "osm") with (Some "osm-raster-layer").
    reflexivity.
  - intros Hown.
    assert (H : Renderer.layerMap source = None).
    { cbn in Hown.
      repeat (destruct Hown as [<- | Hown]; [reflexivity|]). destruct Hown. }
    split; [exact H|]. intros id. unfold selected. rewrite H.
    cbn in Hown.
    repeat (destruct Hown as [<- | Hown]; [reflexivity|]). destruct Hown.
Qed.

Lemma setTileSource_shows_exactly_the_selection_witness :
  Renderer.setTileSource "satellite" (Some (Renderer.loaded_map example_engine))
  = Renderer.setTileSource "osm" (Some (Renderer.loaded_map example_engine)) /\
  forall id, selected "constructor" id = false.
Proof.
  split.
  - destruct (setTileSource_shows_exactly_the_selection "satellite"
                (Renderer.loaded_map example_engine))
      as (m' & _ & _ & _ & _ & _ & _ & H & _).
    apply H.
    + intros [H0|[H0|[H0|[H0|[H0|[]]]]]]; discriminate H0.
    + cbn. intros H0. repeat (destruct H0 as [H0|H0]; [discriminate H0|]). exact H0.
  - destruct (setTileSource_shows_exactly_the_selection "constructor"
                (Renderer.loaded_map example_engine))
      as (m' & _ & _ & _ & _ & _ & _ & _ & H).
    apply H. left. reflexivity.
Defined.

(** ** Overlays on the map *)

Section OverlayFacts.
Import Renderer.

Lemma set_sources_same (f : gmap string Source -> gmap string Source) (m : Map) :
  f (sources m) = sources m -> set_sources f m = m.
Proof. intros H. destruct m. unfold set_sources. cbn in *. now rewrite H. Qed.

Lemma find_none_filter_same (id : string) (ls : list Layer) :
  List.find (fun l => String.eqb (layer_id l) id) ls = None ->
  List.filter (fun l => negb (String.eqb (layer_id l) id)) ls = ls.
Proof.
  induction ls as [|x xs IH]; cbn; [reflexivity|].
  destruct (String.eqb (layer_id x) id); [discriminate|].
  intros H. cbn. now rewrite IH.
Qed.

Lemma find_filter_other (x id : string) (ls : list Layer) :
  x <> id ->
  List.find (fun l => String.eqb (layer_id l) x)
    (List.filter (fun l => negb (String.eqb (layer_id l) id)) ls) =
  List.find (fun l => String.eqb (layer_id l) x) ls.
Proof.
  intros Hx. induction ls as [|l ls IH]; cbn; [reflexivity|].
  destruct (String.eqb_spec (layer_id l) id) as [Hid | Hid]; cbn.
  - destruct (String.eqb_spec (layer_id l) x); [congruence | exact IH].
  - now rewrite IH.
Qed.

(** What is bound to [id] is gone, in one step. *)
Lemma cleared_eq id m :
  cleared id m =
  set_sources (delete (sourceId id)) (set_layers (other_layers id) m).
Proof.
  unfold cleared.
  assert (H1 : (if hasLayer m (layerId id) then removeLayer (layerId id) m else m)
               = set_layers (other_layers id) m).
  { destruct (hasLayer m (layerId id)) eqn:E; [reflexivity|].
    symmetry. apply set_layers_same. apply find_none_filter_same.
    now apply getLayer_hasLayer. }
  rewrite H1. set (m1 := set_layers (other_layers id) m).
  destruct (getSource m1 (sourceId id)) eqn:E; [reflexivity|].
  symmetry. apply set_sources_same. now apply delete_id.
Qed.

Lemma filter_insert_before (b : string) (l : Layer) (ls : list Layer) :
  List.find (fun x => String.eqb (layer_id x) b) ls <> None ->
  List.filter (fun x => negb (String.eqb (layer_id x) (layer_id l)))
    (insert_before b l ls) =
  List.filter (fun x => negb (String.eqb (layer_id x) (layer_id l))) ls.
Proof.
  induction ls as [|x xs IH]; cbn; [congruence|].
  destruct (String.eqb (layer_id x) b); cbn.
  - intros _. now rewrite String.eqb_refl.
  - intros H. destruct (String.eqb (layer_id x) (layer_id l)); cbn; now rewrite IH.
Qed.

(** The first layer named [b] splits the list; [insert_before] puts the
    new layer right below it. *)
Lemma insert_before_split (b : string) (l : Layer) (ls : list Layer) (x : Layer) :
  List.find (fun y => String.eqb (layer_id y) b) ls = Some x ->
  exists below above,
    ls = below ++ x :: above /\ layer_id x = b /\
    Forall (fun y => layer_id y <> b) below /\
    insert_before b l ls = below ++ l :: x :: above.
Proof.
  induction ls as [|y ys IH]; cbn; [discriminate|].
  destruct (String.eqb_spec (layer_id y) b) as [Hy | Hy].
  - intros [= ->]. exists [], ys. repeat split; auto.
  - intros H. destruct (IH H) as (below & above & -> & Hx & Hb & Hi).
    exists (y :: below), above. rewrite Hi. repeat split; auto.
Qed.

(** [addRasterOverlay] when nothing fails. *)
Lemma addRasterOverlay_success (oc : Outcome) (id url : string) (m : Map) :
  ~ fails oc ->
  exists b,
    header oc = Some b /\
    addRasterOverlay oc id url (Some m) =
    (Some {| d_id := id; d_name := id; d_bounds := b; d_opacity := 0.8%Q |},
     Some {| center := fst (fitBounds_lands (engine m) (camera m) b);
             zoom := snd (fitBounds_lands (engine m) (camera m) b);
             sources := <[sourceId id := overlay_source url]>
                          (delete (sourceId id) (sources m));
             layers :=
               (let base := other_layers id (layers m) in
                match List.find (fun l => String.eqb (layer_id l) "user-location-accuracy")
                        base with
                | Some _ => insert_before "user-location-accuracy" (overlay_layer id) base
                | None => base ++ [overlay_layer id]
                end);
             fitted := Some b; engine := engine m |}).
Proof.
  intros Hok. unfold fails in Hok.
  destruct oc as [[b|] ts tl tf]; cbn in Hok; [|tauto].
  destruct ts; [tauto|]. destruct tl; [tauto|]. destruct tf; [tauto|].
  exists b. split; [reflexivity|].
  unfold addRasterOverlay, try_catch. rewrite addRasterOverlay_try_run.
  cbn [header addSource_throws addLayer_throws fitBounds_throws]. cbv zeta.
  rewrite cleared_eq.
  set (m2 := set_sources _ (set_sources _ _)).
  assert (Hfree : getLayer m2 (layerId id) = None) by apply find_filter_none.
  unfold addLayer, fitBounds, below_location, hasLayer.
  cbn [layer_id overlay_layer]. rewrite Hfree.
  unfold getLayer at 1. cbn [layers m2 set_sources set_layers].
  subst m2. cbn [layers set_sources set_layers].
  destruct (List.find _ (other_layers id (layers m))); reflexivity.
Qed.

End OverlayFacts.

Section OverlayProperties.
Import Renderer.

Lemma layers_set_sources f m : layers (set_sources f m) = layers m.
Proof. reflexivity. Qed.

Lemma accuracy_is_no_overlay (id : string) : "user-location-accuracy" <> layerId id.
Proof. unfold layerId. cbn. discriminate. Qed.

Lemma other_layers_twice id ls : other_layers id (other_layers id ls) = other_layers id ls.
Proof.
  unfold other_layers. apply find_none_filter_same. apply find_filter_none.
Qed.

(** X3.  [removeRasterOverlay(id)] takes the layer and the source of the
    overlay off the map and nothing else: afterwards neither is bound,
    every other layer (in the same paint order) and every other source is
    as before, the camera is untouched; when nothing is bound to the id
    the map is left exactly as it was, so removing twice is removing
    once; without a map it does nothing. *)
Theorem removeRasterOverlay_unbinds_only_the_overlay (id : string) (m : Map) :
  exists m',
    removeRasterOverlay id (Some m) = Some m' /\
    layers m' = other_layers id (layers m) /\
    sources m' = delete (sourceId id) (sources m) /\
    getLayer m' (layerId id) = None /\
    getSource m' (sourceId id) = None /\
    (forall x, x <> layerId id -> getLayer m' x = getLayer m x) /\
    (forall y, y <> sourceId id -> getSource m' y = getSource m y) /\
    center m' = center m /\ zoom m' = zoom m /\ fitted m' = fitted m /\
    (getLayer m (layerId id) = None -> getSource m (sourceId id) = None -> m' = m) /\
    removeRasterOverlay id (Some m') = Some m' /\
    removeRasterOverlay id None = None.
Proof.
  exists (cleared id m). split; [reflexivity|].
  assert (Hrm : forall m0, removeRasterOverlay id (Some m0) = Some (cleared id m0))
    by reflexivity.
  rewrite Hrm, !cleared_eq. cbn [layers sources center zoom fitted set_sources set_layers].
  split; [reflexivity|]. split; [reflexivity|].
  split; [apply find_filter_none|].
  split; [unfold getSource; cbn; apply lookup_delete_eq|].
  split; [intros x Hx; unfold getLayer; cbn; now apply find_filter_other|].
  split; [intros y Hy; unfold getSource; cbn; now apply lookup_delete_ne|].
  do 3 (split; [reflexivity|]).
  split; [|split; [|reflexivity]].
  - intros Hl Hs. rewrite set_sources_same.
    + apply set_layers_same. now apply find_none_filter_same.
    + cbn. now apply delete_id.
  - f_equal. unfold set_sources, set_layers.
    cbn [layers sources center zoom fitted]. f_equal.
    + now rewrite delete_delete_eq.
    + apply other_layers_twice.
Qed.

Lemma removeRasterOverlay_unbinds_only_the_overlay_witness :
  removeRasterOverlay "a" (Some (loaded_map example_engine)) = Some (loaded_map example_engine).
Proof.
  destruct (removeRasterOverlay_unbinds_only_the_overlay "a" (loaded_map example_engine))
    as (m' & -> & _ & _ & _ & _ & _ & _ & _ & _ & _ & H & _).
  f_equal. apply H; reflexivity.
Defined.

(** X4.  A successful [addRasterOverlay] puts the overlay layer directly
    below the first layer with id ['user-location-accuracy'], so that the
    position marker is painted over every overlay; the layers that were
    there (the overlay's own former layer apart) keep their order.  On a
    map without that layer the overlay goes on top. *)
Theorem addRasterOverlay_paints_below_the_marker
  (oc : Outcome) (id url : string) (m : Map) (H : ~ fails oc) :
  exists d m',
    addRasterOverlay oc id url (Some m) = (Some d, Some m') /\
    d_id d = id /\ d_name d = id /\ d_opacity d = 0.8%Q /\
    header oc = Some (d_bounds d) /\ fitted m' = Some (d_bounds d) /\
    getSource m' (sourceId id) = Some (overlay_source url) /\
    match getLayer m "user-location-accuracy" with
    | Some halo =>
        exists below above,
          other_layers id (layers m) = below ++ halo :: above /\
          Forall (fun l => layer_id l <> "user-location-accuracy") below /\
          layers m' = below ++ overlay_layer id :: halo :: above
    | None => layers m' = other_layers id (layers m) ++ [overlay_layer id]
    end.
Proof.
  destruct (addRasterOverlay_success oc id url m H) as (b & Hb & ->).
  eexists _, _. split; [reflexivity|]. cbn [d_id d_name d_opacity d_bounds fitted].
  do 3 (split; [reflexivity|]). split; [exact Hb|]. split; [reflexivity|].
  split; [unfold getSource; cbn; apply lookup_insert_eq|].
  cbn [layers]. cbv zeta. unfold getLayer.
  rewrite <- (find_filter_other "user-location-accuracy" (layerId id) (layers m)
                (accuracy_is_no_overlay id)).
  fold (other_layers id (layers m)).
  destruct (List.find _ (other_layers id (layers m))) as [halo|] eqn:E; [|reflexivity].
  destruct (insert_before_split "user-location-accuracy" (overlay_layer id) _ halo E)
    as (below & above & H1 & _ & H3 & H4).
  exists below, above. auto.
Qed.

Lemma addRasterOverlay_paints_below_the_marker_witness :
  exists d m',
    addRasterOverlay (all_fine (0, 0, 1, 1)%Q) "a" "blob:a" (Some (loaded_map example_engine))
    = (Some d, Some m') /\
    d_id d = "a" /\ fitted m' = Some (0, 0, 1, 1)%Q /\
    getSource m' "overlay-a" = Some (overlay_source "blob:a").
Proof.
  assert (Hok : ~ fails (all_fine (0, 0, 1, 1)%Q)).
  { unfold fails. cbn. intros [H|[H|[H|H]]]; discriminate H. }
  destruct (addRasterOverlay_paints_below_the_marker _ "a" "blob:a" (loaded_map example_engine) Hok)
    as (d & m' & H1 & H2 & _ & _ & H3 & H4 & H5 & _).
  exists d, m'. cbn in H3. injection H3 as H3.
  split; [exact H1|]. split; [exact H2|]. split; [|exact H5].
  rewrite H4. f_equal. symmetry. exact H3.
Defined.

(** X5.  Removing an overlay right after it was added leaves the layers
    and sources that removing alone would have left; when nothing was
    bound to the id before, they are those of the map before the add.
    The camera does not come back: it rests where the engine has framed
    the bounds of the overlay, which stay recorded as the [fitBounds]
    target. *)
Theorem add_then_remove_restores_the_map
  (oc : Outcome) (id url : string) (m : Map) (H : ~ fails oc) :
  exists m'' b,
    header oc = Some b /\
    removeRasterOverlay id (snd (addRasterOverlay oc id url (Some m))) = Some m'' /\
    layers m'' = other_layers id (layers m) /\
    sources m'' = delete (sourceId id) (sources m) /\
    camera m'' = fitBounds_lands (engine m) (camera m) b /\
    fitted m'' = Some b /\ engine m'' = engine m /\
    (getLayer m (layerId id) = None -> getSource m (sourceId id) = None ->
     layers m'' = layers m /\ sources m'' = sources m).
Proof.
  destruct (addRasterOverlay_success oc id url m H) as (b & Hb & ->).
  cbn [snd].
  assert (Hrm : forall m0, removeRasterOverlay id (Some m0) = Some (cleared id m0))
    by reflexivity.
  rewrite Hrm, cleared_eq. eexists. exists b. split; [exact Hb|].
  split; [reflexivity|].
  unfold camera.
  cbn [layers sources center zoom fitted engine set_sources set_layers]. cbv zeta.
  assert (Hl : other_layers id
                 match List.find (fun l => String.eqb (layer_id l) "user-location-accuracy")
                         (other_layers id (layers m)) with
                 | Some _ => insert_before "user-location-accuracy" (overlay_layer id)
                               (other_layers id (layers m))
                 | None => other_layers id (layers m) ++ [overlay_layer id]
                 end = other_layers id (layers m)).
  { destruct (List.find _ (other_layers id (layers m))) eqn:E.
    - unfold other_layers at 1.
      change (layerId id) with (layer_id (overlay_layer id)) at 1.
      rewrite filter_insert_before by congruence.
      apply other_layers_twice.
    - unfold other_layers at 1. rewrite List.filter_app. cbn.
      rewrite String.eqb_refl. cbn. rewrite List.app_nil_r.
      apply other_layers_twice. }
  rewrite Hl. split; [reflexivity|].
  split; [now rewrite delete_insert_eq, delete_delete_eq|].
  split; [symmetry; apply surjective_pairing|].
  do 2 (split; [reflexivity|]).
  intros HL HS. split.
  - now apply find_none_filter_same.
  - rewrite delete_insert_eq, delete_delete_eq. now apply delete_id.
Qed.

Lemma add_then_remove_restores_the_map_witness :
  exists m'',
    removeRasterOverlay "a"
      (snd (addRasterOverlay (all_fine (0, 0, 1, 1)%Q) "a" "blob:a"
              (Some (loaded_map example_engine))))
    = Some m'' /\
    layers m'' = layers (loaded_map example_engine) /\
    sources m'' = sources (loaded_map example_engine) /\
    camera m'' = fitBounds_lands example_engine (camera (loaded_map example_engine))
                   (0, 0, 1, 1)%Q.
Proof.
  assert (Hok : ~ fails (all_fine (0, 0, 1, 1)%Q)).
  { unfold fails. cbn. intros [H|[H|[H|H]]]; discriminate H. }
  destruct (add_then_remove_restores_the_map _ "a" "blob:a" (loaded_map example_engine) Hok)
    as (m'' & b & Hb & H1 & _ & _ & Hc & _ & _ & H2).
  exists m''. split; [exact H1|].
  destruct (H2 eq_refl eq_refl) as [Hl Hs].
  split; [exact Hl|]. split; [exact Hs|].
  injection Hb as <-. exact Hc.
Defined.

(** X6.  [setOverlayOpacity(id, opacity)] changes the raster opacity of
    the layers with the overlay's layer id and nothing else: every layer
    keeps its id, source and visibility, the other layers keep their
    opacity, sources and camera are untouched; when the overlay has no
    layer the map is left as it was, and without a map nothing happens.
    The last of two settings wins. *)
Theorem setOverlayOpacity_changes_one_paint_property
  (id : string) (o : Q) (m : Map) :
  exists m',
    setOverlayOpacity id o (Some m) = Some m' /\
    layers m' = List.map (fun l => if String.eqb (layer_id l) (layerId id)
                                   then with_raster_opacity o l else l) (layers m) /\
    List.map layer_id (layers m') = List.map layer_id (layers m) /\
    List.map visibility (layers m') = List.map visibility (layers m) /\
    List.map layer_source (layers m') = List.map layer_source (layers m) /\
    sources m' = sources m /\ center m' = center m /\ zoom m' = zoom m /\
    (getLayer m (layerId id) = None -> m' = m) /\
    (forall l, getLayer m (layerId id) = Some l ->
               getLayer m' (layerId id) = Some (with_raster_opacity o l)) /\
    (forall o', setOverlayOpacity id o' (Some m') = setOverlayOpacity id o' (Some m)) /\
    setOverlayOpacity id o None = None.
Proof.
  set (f := fun l => if String.eqb (layer_id l) (layerId id)
                     then with_raster_opacity o l else l).
  assert (Hfid : forall l, layer_id (f l) = layer_id l).
  { intros l. unfold f. now destruct (String.eqb _ _). }
  assert (Hnorm : forall o0 m0,
    (if hasLayer m0 (layerId id) then setRasterOpacity (layerId id) o0 m0 else m0)
    = set_layers (List.map (fun l => if String.eqb (layer_id l) (layerId id)
                                     then with_raster_opacity o0 l else l)) m0).
  { intros o0 m0. destruct (hasLayer m0 (layerId id)) eqn:E; [reflexivity|].
    symmetry. apply set_layers_same. apply find_none_map_same.
    now apply getLayer_hasLayer. }
  exists (set_layers (List.map f) m).
  split; [unfold setOverlayOpacity; now rewrite Hnorm|].
  cbn [layers sources center zoom set_layers].
  split; [reflexivity|].
  split; [rewrite List.map_map; apply List.map_ext; exact Hfid|].
  split; [rewrite List.map_map; apply List.map_ext; intros l; unfold f;
          now destruct (String.eqb _ _)|].
  split; [rewrite List.map_map; apply List.map_ext; intros l; unfold f;
          now destruct (String.eqb _ _)|].
  do 3 (split; [reflexivity|]).
  split; [intros Hn; apply set_layers_same; now apply find_none_map_same|].
  split; [|split; [|reflexivity]].
  - intros l. unfold getLayer. cbn [layers set_layers].
    induction (layers m) as [|x xs IH]; cbn; [discriminate|].
    rewrite Hfid. destruct (String.eqb (layer_id x) (layerId id)) eqn:E.
    + intros [= ->]. unfold f. now rewrite E.
    + exact IH.
  - intros o'. unfold setOverlayOpacity. rewrite !Hnorm. f_equal.
    unfold set_layers. cbn. f_equal. rewrite List.map_map.
    apply List.map_ext. intros l. unfold f.
    destruct (String.eqb (layer_id l) (layerId id)) eqn:E;
      cbn [layer_id with_raster_opacity]; rewrite ?E; reflexivity.
Qed.

End OverlayProperties.

(** ** The position marker, in process and behind the bridge *)

Section VariantFacts.
Import Renderer Bridge.

Lemma find_map_same_id (f : Layer -> Layer) (id : string) (ls : list Layer) :
  (forall l, layer_id (f l) = layer_id l) ->
  List.find (fun l => String.eqb (layer_id l) id) ls = None ->
  List.find (fun l => String.eqb (layer_id l) id) (List.map f ls) = None.
Proof.
  intros Hf. induction ls as [|x xs IH]; cbn; [reflexivity|].
  rewrite Hf. destruct (String.eqb (layer_id x) id); [discriminate | exact IH].
Qed.

Lemma retile_id source l : layer_id (retile source l) = layer_id l.
Proof. unfold retile. now destruct (among _ (layer_id l)). Qed.

Lemma location_is_no_overlay (id : string) : "user-location" <> sourceId id.
Proof. unfold sourceId. cbn. discriminate. Qed.

Lemma no_overlay_show ids v id m :
  no_overlay id m -> no_overlay id (set_layers (List.map (show_only ids v)) m).
Proof.
  intros [Hl Hs]. split; [|exact Hs].
  apply find_map_same_id; [apply show_only_id | exact Hl].
Qed.

Lemma no_overlay_updateUserLocation lng lat acc id m :
  no_overlay id m -> no_overlay id (updateUserLocation lng lat acc m).
Proof.
  intros H. unfold updateUserLocation.
  destruct (getSource m "user-location") as [[f| |]|]; try exact H.
  rewrite setLocationLayersVisibility_map. apply no_overlay_show.
  destruct H as [Hl Hs]. split; [exact Hl|].
  unfold getSource. cbn. rewrite lookup_insert_ne; [exact Hs|].
  apply location_is_no_overlay.
Qed.

(** A flight moves the camera and nothing else. *)
Lemma flyTo_keeps lng lat z m :
  layers (snd (flyTo lng lat z m)) = layers m /\
  sources (snd (flyTo lng lat z m)) = sources m /\
  fitted (snd (flyTo lng lat z m)) = fitted m /\
  engine (snd (flyTo lng lat z m)) = engine m.
Proof.
  unfold flyTo. destruct (flyTo_lands _ _ _); cbn; repeat split.
Qed.

Lemma no_overlay_flyTo lng lat z id m :
  no_overlay id m -> no_overlay id (snd (flyTo lng lat z m)).
Proof.
  destruct (flyTo_keeps lng lat z m) as (Hl & Hs & _).
  unfold no_overlay, getLayer, getSource. now rewrite Hl, Hs.
Qed.

Lemma find_app_none {A} (p : A -> bool) (l1 l2 : list A) :
  List.find p l1 = None -> List.find p (l1 ++ l2) = List.find p l2.
Proof.
  induction l1 as [|x xs IH]; cbn; [reflexivity|].
  destruct (p x); [discriminate | exact IH].
Qed.

Lemma no_overlay_addLayer_circle id name m :
  no_overlay id m -> name <> layerId id ->
  no_overlay id (snd (addLayer false (circle_layer name) None m)).
Proof.
  intros [Hl Hs] Hne. unfold addLayer.
  destruct (hasLayer m (layer_id (circle_layer name))); cbn [snd]; [now split|].
  split; [|exact Hs]. unfold getLayer. cbn [layers set_layers].
  rewrite find_app_none by exact Hl. cbn.
  destruct (String.eqb_spec name (layerId id)); [contradiction | reflexivity].
Qed.

Lemma no_overlay_register_location id m :
  no_overlay id m -> no_overlay id (snd (register_location m)).
Proof.
  intros H. unfold register_location, mbind, js_bind.
  unfold addSource at 1. cbn [negb].
  destruct (sources m !! "user-location") eqn:E; cbn [snd]; [exact H|].
  set (m1 := set_sources _ m).
  assert (H1 : no_overlay id m1).
  { destruct H as [Hl Hs]. split; [exact Hl|]. unfold getSource. cbn.
    rewrite lookup_insert_ne; [exact Hs | apply location_is_no_overlay]. }
  assert (Hc : forall name m0, no_overlay id m0 ->
             String.get 0 name = Some "u"%char ->
             no_overlay id (snd (addLayer false (circle_layer name) None m0)) /\
             fst (addLayer false (circle_layer name) None m0) = Some tt).
  { intros name m0 H0 Hu. split.
    - apply no_overlay_addLayer_circle; [exact H0|].
      intros Heq. rewrite Heq in Hu. discriminate Hu.
    - unfold addLayer. now destruct (hasLayer m0 _). }
  destruct (Hc "user-location-accuracy" m1 H1 eq_refl) as [H2 E2].
  destruct (addLayer false (circle_layer "user-location-accuracy") None m1)
    as [[[]|] m2]; [|discriminate E2]. cbn [snd] in H2.
  destruct (Hc "user-location-pulse" m2 H2 eq_refl) as [H3 E3].
  destruct (addLayer false (circle_layer "user-location-pulse") None m2)
    as [[[]|] m3]; [|discriminate E3]. cbn [snd] in H3.
  destruct (Hc "user-location-dot" m3 H3 eq_refl) as [H4 _].
  exact H4.
Qed.

Lemma no_overlay_handleCommand id cmd pg :
  no_overlay id (page_map pg) -> no_overlay id (page_map (handleCommand cmd pg)).
Proof.
  intros H. destruct cmd; cbn [handleCommand on_map page_map]; try exact H.
  - now apply no_overlay_updateUserLocation.
  - now apply no_overlay_flyTo.
  - rewrite setLocationLayersVisibility_map. now apply no_overlay_show.
  - rewrite setTileSourceOn_map. destruct H as [Hl Hs]. split; [|exact Hs].
    apply find_map_same_id; [apply retile_id | exact Hl].
Qed.

Lemma no_overlay_sys_step props id e s :
  no_overlay id (page_map (page s)) ->
  no_overlay id (page_map (page (sys_step props e s))).
Proof.
  intros H. destruct e as [cmd| |ev|t]; cbn [sys_step page]; try exact H.
  - destruct (List.nth_error _ _); cbn [page]; [|exact H].
    now apply no_overlay_handleCommand.
  - destruct ev; cbn [page_event]; [|exact H].
    pose proof (no_overlay_register_location id _ H) as H'.
    destruct (register_location (page_map (page s))) as [[u|] m']; exact H'.
Qed.

Lemma accuracyRadiusOf_default acc lat z :
  accuracyRadiusOf (Some (default 0%Q acc)) lat z = accuracyRadiusOf acc lat z.
Proof. destruct acc; reflexivity. Qed.

Lemma deliver_sent props cmd s :
  caught_up s ->
  sys_step props SysDeliver
    {| rn := sendCommand cmd (rn s); page := page s; delivered := delivered s |}
  = {| rn := sendCommand cmd (rn s); page := handleCommand cmd (page s);
       delivered := S (delivered s) |}.
Proof.
  intros [Hw Hd]. cbn [sys_step rn delivered page]. unfold sendCommand. rewrite Hw.
  cbn [injected]. rewrite Hd, List.nth_error_app2 by lia.
  now rewrite Nat.sub_diag.
Qed.

Lemma clock_fire_all (l : list (Z * nat)) (b : Bridge) :
  clock (List.fold_left (fun b0 '(d, q) => fire d q b0) l b) = clock b.
Proof.
  revert b. induction l as [|[d q] l IH]; intros b; [reflexivity|].
  cbn. rewrite IH. unfold fire. now destruct (overlayResolveRef b).
Qed.

Lemma clock_tick t b : clock (tick t b) = Z.max (clock b) t.
Proof. unfold tick. now rewrite clock_fire_all. Qed.

Lemma clock_quiet_call cmd b : quiet (Call cmd) = true -> clock (call cmd b) = clock b.
Proof.
  intros Hq. destruct cmd; try discriminate Hq; cbn [call]; unfold sendCommand;
    now destruct (webView b).
Qed.

Lemma clock_handleMessage props data b : clock (handleMessage props data b) = clock b.
Proof.
  destruct data as [[c z| |info|ty]|]; cbn; try reflexivity.
  - now destruct (onMapMoved props).
  - now destruct (onMapLoaded props).
  - now destruct (overlayResolveRef b).
Qed.

(** While only quiet events follow the call, the promise is waiting, or
    its deadline has been reached. *)
Lemma step_quiet_deadline props base due p e b :
  quiet e = true ->
  armed base due p b \/ (timed_out base due p b /\ due <= clock b) ->
  armed base due p (step props e b) \/
  (timed_out base due p (step props e b) /\ due <= clock (step props e b)).
Proof.
  intros Hq H. destruct e as [cmd|data|t]; cbn [step].
  - destruct (call_same cmd b Hq) as (H1 & H2 & H3). unfold armed, timed_out in *.
    rewrite H1, H2, H3, (clock_quiet_call cmd b Hq). exact H.
  - assert (Hs : same_promises b (handleMessage props data b)).
    { apply handleMessage_same. destruct data as [[| | |]|]; try exact I. discriminate Hq. }
    destruct Hs as (H1 & H2 & H3). unfold armed, timed_out in *.
    rewrite H1, H2, H3, clock_handleMessage. exact H.
  - rewrite clock_tick. destruct H as [H | [H Hc]].
    + destruct (tick_armed _ _ _ t _ H) as [[H' _] | [H' Hd]]; [now left | now right].
    + right. split; [now apply tick_timed_out | lia].
Qed.

Lemma run_quiet_deadline props base due p es b :
  Forall (fun e => quiet e = true) es ->
  armed base due p b \/ (timed_out base due p b /\ due <= clock b) ->
  armed base due p (run props es b) \/
  (timed_out base due p (run props es b) /\ due <= clock (run props es b)).
Proof.
  intros Hq. revert b. induction Hq as [|e es He _ IH]; intros b H; [exact H|].
  cbn. apply IH. now apply step_quiet_deadline.
Qed.

Lemma resolved_fire_all_idle (l : list (Z * nat)) (b : Bridge) :
  overlayResolveRef b = None ->
  resolved (List.fold_left (fun b0 '(d, q) => fire d q b0) l b) = resolved b.
Proof.
  revert b. induction l as [|[d q] l IH]; intros b Hb; [reflexivity|].
  cbn. unfold fire at 2. rewrite Hb. now apply IH.
Qed.

Lemma resolved_step_quiet_idle props e b :
  quiet e = true -> overlayResolveRef b = None ->
  resolved (step props e b) = resolved b.
Proof.
  intros Hq Hb. destruct e as [cmd|data|t]; cbn [step].
  - now rewrite (proj2 (proj2 (call_same cmd b Hq))).
  - assert (Hs : same_promises b (handleMessage props data b)).
    { apply handleMessage_same. destruct data as [[| | |]|]; try exact I. discriminate Hq. }
    now rewrite (proj2 (proj2 Hs)).
  - unfold tick. now rewrite resolved_fire_all_idle.
Qed.

Lemma resolved_run_quiet_idle props es b :
  Forall (fun e => quiet e = true) es -> overlayResolveRef b = None ->
  resolved (run props es b) = resolved b /\ overlayResolveRef (run props es b) = None.
Proof.
  intros Hq. revert b. induction Hq as [|e es He _ IH]; intros b Hb; [now split|].
  change (run props (e :: es) b) with (run props es (step props e b)).
  destruct (IH (step props e b)) as [H1 H2].
  - now apply step_quiet_idle.
  - split; [|exact H2]. rewrite H1. now apply resolved_step_quiet_idle.
Qed.

End VariantFacts.

Section VariantProperties.
Import Renderer Bridge.

(** X7.  [updateLocation] on a map whose ['user-location'] source is
    registered moves the marker to the given position, writes a halo
    radius, shows the three marker layers and touches nothing else.  A
    missing ([null]) or zero accuracy gives radius 0; at a latitude
    where the cosine does not vanish (any but the poles) the radius is
    the clamped quotient of accuracy and metres per pixel.  [hideLocation] afterwards hides the
    layers and keeps the position.  On a map whose source is not
    registered yet (the style has not loaded) the position is dropped:
    the map is left exactly as it was, the layers stay hidden. *)
Theorem updateLocation_moves_and_reveals_the_marker
  (lng lat : Q) (acc : option Q) (m : Map) :
  (getSource m "user-location" = None ->
   Renderer.updateLocation lng lat acc (Some m) = Some m) /\
  (forall f0, getSource m "user-location" = Some (GeoJSON f0) ->
   exists m' r,
     Renderer.updateLocation lng lat acc (Some m) = Some m' /\
     getSource m' "user-location" =
       Some (GeoJSON {| coordinates := (lng, lat); accuracyRadius := Some r |}) /\
     (acc = None \/ (exists a, acc = Some a /\ (a == 0)%Q) -> r = 0%R) /\
     (cos (Q2R lat * PI / 180) <> 0%R -> r = accuracyRadiusOf acc lat (zoom m)) /\
     (forall y, y <> "user-location" -> getSource m' y = getSource m y) /\
     layers m' = List.map (show_only location_layers true) (layers m) /\
     center m' = center m /\ zoom m' = zoom m /\
     exists m'',
       Renderer.hideLocation (Some m') = Some m'' /\
       getSource m'' "user-location" = getSource m' "user-location" /\
       layers m'' = List.map (show_only location_layers false) (layers m)) /\
  Renderer.updateLocation lng lat acc None = None.
Proof.
  split; [|split; [|reflexivity]].
  - intros H. unfold Renderer.updateLocation, updateUserLocation. now rewrite H.
  - intros f0 H. eexists. exists (accuracyRadiusOf acc lat (zoom m)). split.
    { unfold Renderer.updateLocation, updateUserLocation. rewrite H.
      rewrite setLocationLayersVisibility_map. reflexivity. }
    cbn [layers sources center zoom set_sources set_layers getSource].
    split; [apply lookup_insert_eq|].
    split.
    { intros [-> | (a & -> & Ha)]; [reflexivity|]. unfold accuracyRadiusOf.
      apply Qeq_bool_iff in Ha. now rewrite Ha. }
    split; [reflexivity|].
    split; [intros y Hy; now apply lookup_insert_ne|].
    do 3 (split; [reflexivity|]).
    eexists. split.
    { unfold Renderer.hideLocation. rewrite setLocationLayersVisibility_map. reflexivity. }
    cbn [layers sources set_sources set_layers]. split; [reflexivity|].
    rewrite List.map_map. apply List.map_ext. intros l. apply show_only_twice.
Qed.

Lemma updateLocation_moves_and_reveals_the_marker_witness :
  exists m',
    Renderer.updateLocation 139.7 35.7 None (Some (loaded_map example_engine)) = Some m' /\
    getSource m' "user-location" =
      Some (GeoJSON {| coordinates := (139.7, 35.7)%Q; accuracyRadius := Some 0%R |}).
Proof.
  destruct (updateLocation_moves_and_reveals_the_marker 139.7 35.7 None
              (loaded_map example_engine))
    as (_ & H & _).
  destruct (H {| coordinates := (0, 0)%Q; accuracyRadius := None |} eq_refl)
    as (m' & r & H1 & H2 & H3 & _).
  exists m'. split; [exact H1|]. rewrite H2, (H3 (or_introl eq_refl)). reflexivity.
Defined.

(** X8.  Behind the bridge the marker and the basemap behave as in
    process: when the WebView is mounted and the page has run what was
    injected before, [updateLocation], [hideLocation] and [setTileSource]
    called on the bridged handle leave the page's map as the same call on
    the in-process handle leaves it (a [null] accuracy travels as 0 and
    gives the same radius); so does [flyToLocation], unless it asks for
    zoom 0.  The bridge's promise state is not touched. *)
Theorem bridged_calls_agree_with_in_process
  (props : Props) (s : System) (H : caught_up s) :
  (forall lng lat acc,
     Some (shown (delivered_call props (Bridge.updateLocation lng lat acc) s))
     = Renderer.updateLocation lng lat acc (Some (shown s))) /\
  Some (shown (delivered_call props Bridge.hideLocation s))
  = Renderer.hideLocation (Some (shown s)) /\
  (forall source,
     Some (shown (delivered_call props (Bridge.setTileSource source) s))
     = Renderer.setTileSource source (Some (shown s)) /\
     currentTileSource (page (delivered_call props (Bridge.setTileSource source) s))
     = source) /\
  (forall lng lat zoomLevel,
     (forall z, zoomLevel = Some z -> ~ (z == 0)%Q) ->
     Some (shown (delivered_call props (Bridge.flyToLocation lng lat zoomLevel) s))
     = Renderer.flyToLocation lng lat zoomLevel (Some (shown s))) /\
  (forall cmd, quiet (Call cmd) = true ->
     same_promises (rn s) (rn (delivered_call props (sendCommand cmd) s)) /\
     caught_up (delivered_call props (sendCommand cmd) s)).
Proof.
  unfold delivered_call, shown.
  unfold Bridge.updateLocation, Bridge.hideLocation, Bridge.setTileSource,
    Bridge.flyToLocation.
  split; [|split; [|split; [|split]]].
  - intros lng lat acc. rewrite (deliver_sent props _ s H).
    cbn [page handleCommand on_map page_map]. unfold Renderer.updateLocation. f_equal.
    unfold updateUserLocation. now rewrite accuracyRadiusOf_default.
  - rewrite (deliver_sent props _ s H). reflexivity.
  - intros source. rewrite (deliver_sent props _ s H). split; reflexivity.
  - intros lng lat zoomLevel Hz. rewrite (deliver_sent props _ s H).
    cbn [page handleCommand on_map page_map]. unfold Renderer.flyToLocation. do 2 f_equal.
    destruct zoomLevel as [z|]; [|reflexivity].
    change (default 16%Q (Some z)) with z.
    destruct (Qeq_bool z 0) eqn:E; [|reflexivity].
    apply Qeq_bool_iff in E. exfalso. exact (Hz z eq_refl E).
  - intros cmd Hq. rewrite (deliver_sent props _ s H). cbn [rn]. split.
    + apply sendCommand_same.
    + destruct H as [Hw Hd]. unfold caught_up, sendCommand. cbn [rn delivered].
      rewrite Hw. cbn [webView injected]. split; [reflexivity|].
      rewrite List.length_app, Hd. cbn. lia.
Qed.

Lemma bridged_calls_agree_with_in_process_witness :
  Some (shown (delivered_call {| onMapMoved := true; onMapLoaded := true |}
                 Bridge.hideLocation
                 {| rn := Bridge.initial;
                    page := {| page_map := loaded_map example_engine; currentTileSource := "osm" |};
                    delivered := 0 |}))
  = Renderer.hideLocation (Some (loaded_map example_engine)).
Proof.
  refine (proj1 (proj2 (bridged_calls_agree_with_in_process _
    {| rn := Bridge.initial;
       page := {| page_map := loaded_map example_engine; currentTileSource := "osm" |};
       delivered := 0 |} _))).
  split; reflexivity.
Defined.

(** X9.  [flyToLocation(lng, lat, 0)] is where the two variants part:
    the in-process handle asks the engine for zoom 0 ([zoomLevel ?? 16]),
    the page behind the bridge for zoom 16 ([cmd.zoom || 16]), both for
    the same centre.  Each camera rests where the engine lands the
    request; layers and sources are the same. *)
Theorem bridged_flyToLocation_replaces_zoom_zero
  (props : Props) (s : System) (lng lat z : Q) (H : caught_up s) (Hz : (z == 0)%Q) :
  let bridged := shown (delivered_call props (Bridge.flyToLocation lng lat (Some z)) s) in
  let lands := flyTo_lands (engine (shown s)) (camera (shown s)) in
  exists direct,
    Renderer.flyToLocation lng lat (Some z) (Some (shown s)) = Some direct /\
    direct = snd (flyTo lng lat z (shown s)) /\
    bridged = snd (flyTo lng lat 16 (shown s)) /\
    (forall c, lands ((lng, lat), z) = Some c -> camera direct = c) /\
    (forall c, lands ((lng, lat), 16%Q) = Some c -> camera bridged = c) /\
    (lands ((lng, lat), z) = None -> direct = shown s) /\
    (lands ((lng, lat), 16%Q) = None -> bridged = shown s) /\
    layers bridged = layers direct /\ sources bridged = sources direct.
Proof.
  cbv zeta. unfold delivered_call, shown, Bridge.flyToLocation.
  rewrite (deliver_sent props _ s H).
  cbn [page handleCommand on_map page_map].
  change (default 16%Q (Some z)) with z.
  apply Qeq_bool_iff in Hz. rewrite Hz.
  exists (snd (flyTo lng lat z (page_map (page s)))).
  split; [reflexivity|]. do 2 (split; [reflexivity|]).
  destruct (flyTo_keeps lng lat z (page_map (page s))) as (Hl1 & Hs1 & _).
  destruct (flyTo_keeps lng lat 16 (page_map (page s))) as (Hl2 & Hs2 & _).
  rewrite Hl1, Hl2, Hs1, Hs2. unfold flyTo.
  repeat split.
  - intros c Hc. rewrite Hc. cbn. now destruct c.
  - intros c Hc. rewrite Hc. cbn. now destruct c.
  - intros Hc. now rewrite Hc.
  - intros Hc. now rewrite Hc.
Qed.

Lemma bridged_flyToLocation_replaces_zoom_zero_witness :
  camera (shown (delivered_call {| onMapMoved := true; onMapLoaded := true |}
                   (Bridge.flyToLocation 139.7 35.7 (Some 0%Q))
                   {| rn := Bridge.initial;
                      page := {| page_map := loaded_map example_engine;
                                 currentTileSource := "osm" |};
                      delivered := 0 |})) = ((139.7, 35.7), 16)%Q.
Proof.
  assert (Hc : caught_up {| rn := Bridge.initial;
                            page := {| page_map := loaded_map example_engine;
                                       currentTileSource := "osm" |};
                            delivered := 0 |}) by (split; reflexivity).
  destruct (bridged_flyToLocation_replaces_zoom_zero
              {| onMapMoved := true; onMapLoaded := true |} _ 139.7 35.7 0%Q Hc
              (Qeq_refl 0))
    as (direct & _ & _ & _ & _ & H & _).
  apply H. reflexivity.
Defined.

(** X10.  The page behind the bridge never holds an overlay: whatever is
    called on the bridged handle, delivered to the page, reported by the
    page or timed out, a map without source and layer for an overlay id
    stays without them.  The page has no case for [addRasterOverlay],
    [removeRasterOverlay] and [setOverlayOpacity]. *)
Theorem page_never_holds_an_overlay
  (props : Props) (es : list SysEvent) (s : System) (id : string)
  (H : no_overlay id (shown s)) :
  no_overlay id (shown (sys_run props es s)).
Proof.
  unfold shown in *. revert s H. induction es as [|e es IH]; intros s H; [exact H|].
  change (sys_run props (e :: es) s) with (sys_run props es (sys_step props e s)).
  apply IH. now apply no_overlay_sys_step.
Qed.

Lemma page_never_holds_an_overlay_witness :
  no_overlay "a"
    (shown (sys_run {| onMapMoved := true; onMapLoaded := true |}
              [SysPage PageLoad; SysCall (AddRasterOverlay "a" "blob:a"); SysDeliver;
               SysCall (SetOverlayOpacity "a" 0.5%Q); SysDeliver]
              {| rn := Bridge.initial;
                 page := {| page_map := initial_map example_engine; currentTileSource := "osm" |};
                 delivered := 0 |})).
Proof.
  apply page_never_holds_an_overlay. split; reflexivity.
Defined.

(** X11.  A response in time settles the call: when [addRasterOverlay]
    is called on the bridge with no timer pending and, before 10 s have
    passed, an [overlayAdded] message arrives (nothing but other calls,
    other messages and time in between), the promise is resolved once,
    with the payload of the message, at the time it arrives; the timer
    that runs later finds the ref empty and resolves nothing. *)
Theorem response_in_time_resolves_with_the_payload
  (props : Props) (id url : string) (info : option OverlayDescriptor)
  (b : Bridge) (before after : list Event)
  (Hidle : timers b = [])
  (Hbefore : Forall (fun e => quiet e = true) before)
  (Hafter : Forall (fun e => quiet e = true) after)
  (Hclock : clock (run props before (snd (Bridge.addRasterOverlay id url b)))
            < clock b + 10000) :
  let p := fst (Bridge.addRasterOverlay id url b) in
  let b1 := run props before (snd (Bridge.addRasterOverlay id url b)) in
  let b2 := step props (Receive (Some (OverlayAdded info))) b1 in
  p = created b /\
  resolved b2 = resolved b ++ [{| at_time := clock b1; promise := p; value := info |}] /\
  resolved (run props after b2) = resolved b2 /\
  overlayResolveRef (run props after b2) = None.
Proof.
  cbv zeta. split; [reflexivity|].
  pose proof (addRasterOverlay_armed id url b Hidle) as Harm.
  destruct (run_quiet_deadline props _ _ _ before _ Hbefore (or_introl Harm))
    as [(Href & Htim & Hres) | [_ Hlate]]; [|lia].
  set (b1 := run props before (snd (Bridge.addRasterOverlay id url b))) in *.
  assert (H2 : resolved (step props (Receive (Some (OverlayAdded info))) b1)
               = resolved b ++ [{| at_time := clock b1; promise := created b;
                                   value := info |}]).
  { cbn [step handleMessage]. rewrite Href. cbn [resolved]. now rewrite Hres. }
  split; [exact H2|].
  apply resolved_run_quiet_idle; [exact Hafter|].
  cbn [step handleMessage]. now rewrite Href.
Qed.

Lemma response_in_time_resolves_with_the_payload_witness :
  resolved (run {| onMapMoved := true; onMapLoaded := true |} [Tick 20000]
              (step {| onMapMoved := true; onMapLoaded := true |}
                 (Receive (Some (OverlayAdded None)))
                 (run {| onMapMoved := true; onMapLoaded := true |} [Tick 500]
                    (snd (Bridge.addRasterOverlay "a" "blob:a" Bridge.initial)))))
  = [{| at_time := 500; promise := 0%nat; value := None |}].
Proof.
  destruct (response_in_time_resolves_with_the_payload
              {| onMapMoved := true; onMapLoaded := true |} "a" "blob:a" None
              Bridge.initial [Tick 500] [Tick 20000])
    as (_ & H2 & H3 & _).
  - reflexivity.
  - repeat constructor.
  - repeat constructor.
  - vm_compute. reflexivity.
  - rewrite H3, H2. reflexivity.
Defined.

End VariantProperties.

(** ** The overlay store, operation by operation *)

Section StoreMoreFacts.
Import Store.

Lemma getAll_In {V} (m : gmap string V) (x : V) :
  List.In x (getAll m) <-> exists k, m !! k = Some x.
Proof.
  unfold getAll. destruct (sorted_map_to_list m) as [_ Hin]. rewrite List.in_map_iff.
  split.
  - intros ([k v] & <- & H). exists k. now apply Hin.
  - intros (k & H). exists (k, x). split; [reflexivity | now apply Hin].
Qed.

Lemma run_after_open (f : IDB -> IDB) db :
  (version db <= DB_VERSION)%nat ->
  (_ ← openDB; modify f) db =
  (Some tt, f {| version := DB_VERSION; overlays := overlays db; groups := groups db |}).
Proof.
  intros Hv. unfold mbind, js_bind, modify. now rewrite (openDB_ok db Hv).
Qed.

Lemma reject_after_open {A B} (k : A -> Js IDB B) (op : Js IDB A) db :
  op db = (None, db) -> (x ← op; k x) db = (None, db).
Proof. intros H. unfold mbind, js_bind. now rewrite H. Qed.

Lemma openDB_rejects db : unopenable db -> openDB db = (None, db).
Proof.
  unfold unopenable, openDB. intros H.
  destruct (DB_VERSION <? version db)%nat eqn:E; [reflexivity|].
  apply Nat.ltb_ge in E. lia.
Qed.

Lemma with_defaults_present now r : all_present (with_defaults now r).
Proof. unfold all_present, with_defaults. cbn. repeat split; eexists; reflexivity. Qed.

Lemma with_defaults_of_present now r : all_present r -> with_defaults now r = r.
Proof.
  intros ([o Ho] & [v Hv] & [g Hg] & [t Ht]). destruct r. cbn in *. subst.
  reflexivity.
Qed.

Lemma normalizeOverlay_with_defaults now now' r :
  normalizeOverlay now' (with_defaults now r) = normalizeOverlay now r.
Proof. reflexivity. Qed.

(** The comparator [(a, b) => a.order - b.order] sorts. *)
Lemma insert_sorted_by_order (x : StoredGroup) (l : list StoredGroup) :
  Sorted by_g_order l ->
  Sorted by_g_order (JsArray.insert_sorted (fun a b => g_order a - g_order b) x l).
Proof.
  induction l as [|y ys IH]; intros Hs; cbn.
  - repeat constructor.
  - destruct (Z.leb_spec (g_order x - g_order y) 0) as [Hle | Hgt].
    + constructor; [exact Hs|]. constructor. unfold by_g_order. lia.
    + apply Sorted_inv in Hs as [Hs Hhd]. constructor; [now apply IH|].
      destruct ys as [|z zs]; cbn.
      * constructor. unfold by_g_order. lia.
      * destruct (Z.leb_spec (g_order x - g_order z) 0).
        -- constructor. unfold by_g_order. lia.
        -- constructor. now apply HdRel_inv in Hhd.
Qed.

Lemma sort_by_order (l : list StoredGroup) :
  Sorted by_g_order (JsArray.sort (fun a b => g_order a - g_order b) l).
Proof.
  induction l as [|x xs IH]; cbn; [constructor|]. now apply insert_sorted_by_order.
Qed.

(** The order of code-unit sequences read the other way round. *)
Lemma compare_units_antisym (a b : list N) :
  JsArray.compare_units b a = CompOpp (JsArray.compare_units a b).
Proof.
  revert b. induction a as [|x a IH]; intros [|y b]; cbn; try reflexivity.
  rewrite (N.compare_antisym x y). destruct (N.compare x y); cbn; auto.
Qed.

Lemma compare_units_trans (a b c : list N) :
  JsArray.compare_units a b <> Gt -> JsArray.compare_units b c <> Gt ->
  JsArray.compare_units a c <> Gt.
Proof.
  revert b c. induction a as [|x a IH]; intros [|y b] [|z c]; cbn; try congruence.
  destruct (N.compare_spec x y) as [->|Hxy|Hxy]; [| |congruence].
  - destruct (N.compare_spec y z) as [->|Hyz|Hyz]; [apply IH | congruence | congruence].
  - destruct (N.compare_spec y z) as [->|Hyz|Hyz]; [| |congruence]; intros _ _.
    + apply N.compare_lt_iff in Hxy. now rewrite Hxy.
    + assert (H : (x < z)%N) by lia.
      apply N.compare_lt_iff in H. now rewrite H.
Qed.

(** Insertion with a comparator that orders any two elements one way or
    the other keeps a list sorted. *)
Lemma insert_sorted_Sorted {A} (cmp : A -> A -> Z) (x : A) (l : list A) :
  (forall a b, 0 < cmp a b -> cmp b a <= 0) ->
  Sorted (fun a b => cmp a b <= 0) l ->
  Sorted (fun a b => cmp a b <= 0) (JsArray.insert_sorted cmp x l).
Proof.
  intros Htot. induction l as [|y ys IH]; intros Hs; cbn.
  - repeat constructor.
  - destruct (Z.leb_spec (cmp x y) 0) as [Hle | Hgt].
    + constructor; [exact Hs|]. constructor. exact Hle.
    + apply Sorted_inv in Hs as [Hs Hhd]. constructor; [now apply IH|].
      destruct ys as [|z zs]; cbn.
      * constructor. now apply Htot.
      * destruct (Z.leb_spec (cmp x z) 0).
        -- constructor. now apply Htot.
        -- constructor. now apply HdRel_inv in Hhd.
Qed.

Lemma sort_Sorted {A} (cmp : A -> A -> Z) (l : list A) :
  (forall a b, 0 < cmp a b -> cmp b a <= 0) ->
  Sorted (fun a b => cmp a b <= 0) (JsArray.sort cmp l).
Proof.
  intros Htot. induction l as [|x xs IH]; cbn; [constructor|].
  now apply insert_sorted_Sorted.
Qed.

Lemma Sorted_map {A B} (f : A -> B) (R : A -> A -> Prop) (S : B -> B -> Prop)
  (l : list A) :
  (forall a b, R a b -> S (f a) (f b)) -> Sorted R l -> Sorted S (List.map f l).
Proof.
  intros HRS. induction 1 as [|a l Hs IH Hhd]; cbn; [constructor|].
  constructor; [exact IH|]. destruct Hhd; cbn; constructor. now apply HRS.
Qed.

(** [getAll] hands the records out in the order of their keys. *)
Lemma getAll_sorted {V} (key : V -> string) (m : gmap string V) :
  (forall k v, m !! k = Some v -> key v = k) ->
  StronglySorted key_le (List.map key (getAll m)).
Proof.
  intros Hkey. apply Sorted_StronglySorted.
  { intros a b c. unfold key_le. apply compare_units_trans. }
  unfold getAll. rewrite List.map_map.
  destruct (sorted_map_to_list m) as [_ Hin].
  rewrite (List.map_ext_in _ fst).
  2: { intros [k v] Hkv. cbn. apply Hkey. now apply Hin. }
  apply (Sorted_map fst (fun a b => key_cmp a b <= 0)).
  - intros a b. unfold key_cmp, key_le.
    destruct (JsArray.compare_units _ _); [discriminate | discriminate | lia].
  - apply sort_Sorted. intros a b. unfold key_cmp.
    rewrite (compare_units_antisym (JsArray.utf16 (fst a)) (JsArray.utf16 (fst b))).
    destruct (JsArray.compare_units _ _); cbn; lia.
Qed.

End StoreMoreFacts.

Section StoreProperties.
Import Store.

(** X12.  [deleteOverlay(id)] takes that record out of the store and
    nothing else: what [loadAllOverlays] returns afterwards is what it
    returned before without the overlay of that id; groups are not
    touched; deleting an id that is not stored changes no record.
    Deleting what [saveOverlay] has just stored under a new id gives the
    records back as they were. *)
Theorem deleteOverlay_removes_only_that_record
  (db : IDB) (i : string) (now : Z)
  (Hwf : wf db) (Hv : (version db <= DB_VERSION)%nat) :
  exists db1 before after,
    loadAllOverlays now db = (Some before, {| version := DB_VERSION;
                                             overlays := overlays db;
                                             groups := groups db |}) /\
    deleteOverlay i db = (Some tt, db1) /\
    loadAllOverlays now db1 = (Some after, db1) /\
    overlays db1 = delete i (overlays db) /\ groups db1 = groups db /\
    (forall o, List.In o after <-> List.In o before /\ id o <> i) /\
    (overlays db !! i = None -> overlays db1 = overlays db) /\
    (forall nm bytes o v g t,
       overlays db !! i = None ->
       exists db2 db3,
         saveOverlay i nm bytes o v g t db = (Some tt, db2) /\
         deleteOverlay i db2 = (Some tt, db3) /\
         overlays db3 = overlays db /\ groups db3 = groups db).
Proof.
  destruct Hwf as [Hwf _].
  eexists _, _, _. split.
  { rewrite loadAllOverlays_run.
    destruct (DB_VERSION <? version db)%nat eqn:E; [apply Nat.ltb_lt in E; lia|].
    reflexivity. }
  split; [unfold deleteOverlay; now rewrite run_after_open|].
  split; [rewrite loadAllOverlays_run; reflexivity|].
  cbn [overlays groups delete_overlay].
  split; [reflexivity|]. split; [reflexivity|].
  split; [|split].
  - intros o. rewrite !List.in_map_iff. split.
    + intros (r & <- & Hin). apply getAll_In in Hin as (k & Hk).
      apply lookup_delete_Some in Hk as [Hne Hk]. split.
      * exists r. split; [reflexivity|]. apply getAll_In. now exists k.
      * cbn. rewrite (Hwf _ _ Hk). congruence.
    + intros [(r & <- & Hin) Hne]. apply getAll_In in Hin as (k & Hk).
      exists r. split; [reflexivity|]. apply getAll_In. exists k.
      apply lookup_delete_Some. split; [|exact Hk].
      cbn in Hne. rewrite (Hwf _ _ Hk) in Hne. congruence.
  - intros Hn. now apply delete_id.
  - intros nm bytes o v g t Hn. eexists _, _.
    split; [unfold saveOverlay; now rewrite run_after_open|].
    split; [unfold deleteOverlay; rewrite run_after_open by (cbn; lia); reflexivity|].
    cbn [overlays groups delete_overlay put_overlay raw_id].
    split; [|reflexivity]. rewrite delete_insert_eq. now apply delete_id.
Qed.

Lemma deleteOverlay_removes_only_that_record_witness :
  exists db1, deleteOverlay "a" fresh = (Some tt, db1) /\ overlays db1 = overlays fresh.
Proof.
  assert (Hv : (version fresh <= DB_VERSION)%nat) by (cbn; unfold DB_VERSION; lia).
  destruct (deleteOverlay_removes_only_that_record fresh "a" 0 wf_fresh Hv)
    as (db1 & before & after & _ & H1 & _ & _ & _ & _ & H2 & _).
  exists db1. split; [exact H1|]. apply H2. reflexivity.
Defined.

(** X13.  A database of a later schema version cannot be opened, and then
    every operation of the store rejects without writing: the eleven
    exported functions all open the database first. *)
Theorem unopenable_database_is_never_written
  (db : IDB) (H : unopenable db) :
  (forall i nm bytes o v g t, rejects (saveOverlay i nm bytes o v g t) db) /\
  (forall i nm u o v g t, rejects (saveUrlOverlay i nm u o v g t) db) /\
  (forall now, rejects (loadAllOverlays now) db) /\
  (forall i, rejects (deleteOverlay i) db) /\
  (forall now i o, rejects (updateOverlayOpacity now i o) db) /\
  (forall now i v, rejects (updateOverlayVisibility now i v) db) /\
  (forall now i g, rejects (updateOverlayGroup now i g) db) /\
  (forall now i f, rejects (updateOverlayFilename now i f) db) /\
  (forall g, rejects (saveGroup g) db) /\
  rejects loadAllGroups db /\
  (forall i, rejects (deleteGroup i) db).
Proof.
  pose proof (openDB_rejects db H) as Ho.
  unfold rejects, saveOverlay, saveUrlOverlay, loadAllOverlays, deleteOverlay,
    updateOverlayOpacity, updateOverlayVisibility, updateOverlayGroup,
    updateOverlayFilename, update_field, saveGroup, loadAllGroups, deleteGroup.
  repeat split; intros; now apply reject_after_open.
Qed.

Lemma unopenable_database_is_never_written_witness :
  rejects (saveGroup {| g_id := "g"; g_name := "G"; g_expanded := true; g_order := 1 |})
    {| version := 3; overlays := ∅; groups := ∅ |}.
Proof.
  refine (proj1 (proj2 (proj2 (proj2 (proj2 (proj2 (proj2 (proj2 (proj2
    (unopenable_database_is_never_written {| version := 3; overlays := ∅; groups := ∅ |} _)))))))))
    _).
  unfold unopenable, DB_VERSION. cbn. lia.
Defined.

(** X14.  Records of the first schema lack opacity, visibility, group and
    timestamp.  Reading them ([loadAllOverlays]) shows the defaults 0.8,
    visible, ["default"] and the time of the read, and writes nothing;
    each of the four field updates writes the record back with the
    defaults filled in (the missing timestamp becomes the time of that
    update) and its own field replaced, keeps id, file name (unless it
    is the field), bytes and URL, and leaves the other records and the
    groups alone.  On a complete record filling in the defaults changes
    nothing. *)
Theorem field_updates_fill_in_the_defaults
  (db : IDB) (i : string) (r : RawOverlay) (now : Z)
  (Hwf : wf db) (Hv : (version db <= DB_VERSION)%nat)
  (Hr : overlays db !! i = Some r) :
  (forall g, exists db1,
     updateOverlayGroup now i g db = (Some tt, db1) /\
     overlays db1 = <[i := with_groupId g (with_defaults now r)]> (overlays db) /\
     groups db1 = groups db) /\
  (forall f, exists db1,
     updateOverlayFilename now i f db = (Some tt, db1) /\
     overlays db1 = <[i := with_filename f (with_defaults now r)]> (overlays db) /\
     groups db1 = groups db) /\
  (forall o, exists db1,
     updateOverlayOpacity now i o db = (Some tt, db1) /\
     overlays db1 = <[i := with_opacity o (with_defaults now r)]> (overlays db) /\
     groups db1 = groups db) /\
  (forall v, exists db1,
     updateOverlayVisibility now i v db = (Some tt, db1) /\
     overlays db1 = <[i := with_visible v (with_defaults now r)]> (overlays db) /\
     groups db1 = groups db) /\
  raw_id (with_defaults now r) = i /\
  raw_filename (with_defaults now r) = raw_filename r /\
  raw_data (with_defaults now r) = raw_data r /\
  raw_url (with_defaults now r) = raw_url r /\
  raw_opacity (with_defaults now r) = Some (default 0.8%Q (raw_opacity r)) /\
  raw_visible (with_defaults now r) = Some (default true (raw_visible r)) /\
  raw_groupId (with_defaults now r) = Some (default "default" (raw_groupId r)) /\
  raw_timestamp (with_defaults now r) = Some (default now (raw_timestamp r)) /\
  (all_present r -> with_defaults now r = r) /\
  (exists all db1,
     loadAllOverlays now db = (Some all, db1) /\
     overlays db1 = overlays db /\ groups db1 = groups db /\
     List.In (normalizeOverlay now r) all).
Proof.
  pose proof (proj1 Hwf _ _ Hr) as Hid.
  assert (Hupd : forall assign, (forall u, id (assign u) = id u) -> exists db1,
    update_field now i assign db = (Some tt, db1) /\
    overlays db1 = <[i := to_raw (assign (normalizeOverlay now r))]> (overlays db) /\
    groups db1 = groups db).
  { intros assign Hassign. rewrite (update_field_present now i assign db r Hv Hr).
    eexists. split; [reflexivity|]. split; [|reflexivity].
    unfold put_overlay. cbn [overlays raw_id to_raw].
    replace (id (assign (normalizeOverlay now r))) with i; [reflexivity|].
    rewrite Hassign. symmetry. exact Hid. }
  split; [|split; [|split; [|split]]].
  - intros g. apply (Hupd (fun u =>
      {| id := id u; filename := filename u; data := data u; opacity := opacity u;
         visible := visible u; groupId := g; timestamp := timestamp u; url := url u |})).
    reflexivity.
  - intros f. apply (Hupd (fun u =>
      {| id := id u; filename := f; data := data u; opacity := opacity u;
         visible := visible u; groupId := groupId u; timestamp := timestamp u;
         url := url u |})).
    reflexivity.
  - intros o. apply (Hupd (fun u =>
      {| id := id u; filename := filename u; data := data u; opacity := o;
         visible := visible u; groupId := groupId u; timestamp := timestamp u;
         url := url u |})).
    reflexivity.
  - intros v. apply (Hupd (fun u =>
      {| id := id u; filename := filename u; data := data u; opacity := opacity u;
         visible := v; groupId := groupId u; timestamp := timestamp u; url := url u |})).
    reflexivity.
  - split; [exact Hid|]. do 7 (split; [reflexivity|]).
    split; [apply with_defaults_of_present|].
    eexists _, _. split.
    { rewrite loadAllOverlays_run.
      destruct (DB_VERSION <? version db)%nat eqn:E; [apply Nat.ltb_lt in E; lia|].
      reflexivity. }
    cbn [overlays groups]. split; [reflexivity|]. split; [reflexivity|].
    apply List.in_map. apply getAll_In. now exists i.
Qed.

Lemma field_updates_fill_in_the_defaults_witness :
  exists db1,
    updateOverlayGroup 7 "a" "g"
      {| version := 1;
         overlays := {[ "a" := {| raw_id := "a"; raw_filename := "a.pmtiles";
                                   raw_data := []; raw_opacity := None;
                                   raw_visible := None; raw_groupId := None;
                                   raw_timestamp := None; raw_url := None |} ]};
         groups := ∅ |} = (Some tt, db1) /\
    overlays db1 !! "a" =
      Some {| raw_id := "a"; raw_filename := "a.pmtiles"; raw_data := [];
              raw_opacity := Some 0.8%Q; raw_visible := Some true;
              raw_groupId := Some "g"; raw_timestamp := Some 7; raw_url := None |}.
Proof.
  set (r := {| raw_id := "a"; raw_filename := "a.pmtiles"; raw_data := [];
               raw_opacity := None; raw_visible := None; raw_groupId := None;
               raw_timestamp := None; raw_url := None |}).
  assert (Hwf : wf {| version := 1; overlays := {[ "a" := r ]}; groups := ∅ |}).
  { split; cbn; intros k x Hk.
    - apply lookup_singleton_Some in Hk as [<- <-]. reflexivity.
    - rewrite lookup_empty in Hk. discriminate. }
  assert (Hv : (version {| version := 1; overlays := {[ "a" := r ]}; groups := ∅ |}
                <= DB_VERSION)%nat) by (cbn; unfold DB_VERSION; lia).
  destruct (field_updates_fill_in_the_defaults _ "a" r 7 Hwf Hv (lookup_singleton_eq _ _))
    as (H & _).
  destruct (H "g") as (db1 & H1 & H2 & _).
  exists db1. split; [exact H1|]. rewrite H2. apply lookup_insert_eq.
Defined.

(** X15.  Groups: [saveGroup] stores the group under its id, replacing
    what was there; [loadAllGroups] returns the stored groups, each once,
    in ascending [order]; [deleteGroup] takes the group of that id out
    and no other.  None of the three touches an overlay record. *)
Theorem groups_are_saved_listed_in_order_and_deleted
  (db : IDB) (g : StoredGroup)
  (Hwf : wf db) (Hv : (version db <= DB_VERSION)%nat) :
  exists db1 db2 db3 listed listed',
    saveGroup g db = (Some tt, db1) /\
    loadAllGroups db1 = (Some listed, db2) /\
    deleteGroup (g_id g) db2 = (Some tt, db3) /\
    loadAllGroups db3 = (Some listed', db3) /\
    Sorted by_g_order listed /\ Sorted by_g_order listed' /\
    List.NoDup (List.map g_id listed) /\
    (forall x, List.In x listed <->
               x = g \/ (g_id x <> g_id g /\ exists k, groups db !! k = Some x)) /\
    (forall x, List.In x listed' <-> List.In x listed /\ g_id x <> g_id g) /\
    overlays db1 = overlays db /\ overlays db2 = overlays db /\
    overlays db3 = overlays db /\
    groups db3 = delete (g_id g) (groups db).
Proof.
  destruct Hwf as [_ Hwf].
  assert (Hwf1 : forall k x, <[g_id g := g]> (groups db) !! k = Some x -> g_id x = k).
  { intros k x. rewrite lookup_insert. case_decide; [congruence | apply Hwf]. }
  eexists _, _, _, _, _.
  split; [unfold saveGroup; now rewrite run_after_open|].
  split; [rewrite loadAllGroups_run; reflexivity|].
  split; [unfold deleteGroup; rewrite run_after_open by (cbn; lia); reflexivity|].
  split; [rewrite loadAllGroups_run; reflexivity|].
  cbn [overlays groups put_group delete_group].
  split; [apply sort_by_order|]. split; [apply sort_by_order|].
  assert (Hin : forall (m : gmap string StoredGroup) x,
            List.In x (JsArray.sort (fun a b => g_order a - g_order b) (getAll m))
            <-> exists k, m !! k = Some x).
  { intros m x. rewrite <- getAll_In, <- !list_elem_of_In.
    now rewrite (sort_perm _ (getAll m)). }
  split.
  { apply stored_groups_NoDup. exact Hwf1. }
  split; [|split; [|split; [reflexivity|split; [reflexivity|split; [reflexivity|]]]]].
  - intros x. rewrite Hin. split.
    + intros (k & Hk). rewrite lookup_insert in Hk. case_decide as E.
      * left. congruence.
      * right. split; [rewrite (Hwf _ _ Hk); congruence | now exists k].
    + intros [-> | (Hne & k & Hk)].
      * exists (g_id g). apply lookup_insert_eq.
      * exists k. rewrite lookup_insert_ne; [exact Hk|].
        rewrite <- (Hwf _ _ Hk). congruence.
  - intros x. rewrite !Hin. split.
    + intros (k & Hk). apply lookup_delete_Some in Hk as [Hne Hk]. split.
      * now exists k.
      * rewrite (Hwf1 _ _ Hk). congruence.
    + intros [(k & Hk) Hne]. exists k. apply lookup_delete_Some. split; [|exact Hk].
      rewrite (Hwf1 _ _ Hk) in Hne. congruence.
  - now rewrite delete_insert_eq.
Qed.

Lemma groups_are_saved_listed_in_order_and_deleted_witness :
  exists db1 listed,
    saveGroup {| g_id := "g"; g_name := "G"; g_expanded := true; g_order := 1 |} fresh
    = (Some tt, db1) /\
    fst (loadAllGroups db1) = Some listed /\
    List.In {| g_id := "g"; g_name := "G"; g_expanded := true; g_order := 1 |} listed.
Proof.
  assert (Hv : (version fresh <= DB_VERSION)%nat) by (cbn; unfold DB_VERSION; lia).
  destruct (groups_are_saved_listed_in_order_and_deleted fresh
              {| g_id := "g"; g_name := "G"; g_expanded := true; g_order := 1 |}
              wf_fresh Hv)
    as (db1 & db2 & db3 & listed & listed' & H1 & H2 & _ & _ & _ & _ & _ & H3 & _).
  exists db1, listed. split; [exact H1|]. split; [now rewrite H2|].
  apply H3. now left.
Defined.

End StoreProperties.

(** ** The screen, handler by handler *)

Section ScreenMoreFacts.
Import Renderer Screen.

(** The descriptor [addRasterOverlay] returns carries the id it was
    called with. *)
Lemma addRasterOverlay_id oc i url mref d m1 :
  addRasterOverlay oc i url mref = (Some d, m1) -> d_id d = i.
Proof.
  destruct mref as [m|]; [|discriminate].
  unfold addRasterOverlay, try_catch. rewrite addRasterOverlay_try_run.
  destruct (header oc) as [b|]; [|discriminate]. cbv zeta.
  destruct (addSource_throws oc); [discriminate|].
  destruct (addLayer _ _ _ _) as [[[]|] m3]; [|discriminate].
  destruct (fitBounds _ b m3) as [[[]|] m4]; [|discriminate].
  now intros [= <- _].
Qed.

Lemma in_without i (l : list OverlayInfo) : ~ List.In i (List.map id (without i l)).
Proof.
  unfold without. rewrite List.in_map_iff. intros (x & Hx & Hin).
  apply List.filter_In in Hin as [_ Hne]. rewrite Hx, String.eqb_refl in Hne.
  discriminate.
Qed.

Lemma NoDup_map_filter {A B} (f : A -> B) (P : A -> bool) (l : list A) :
  List.NoDup (List.map f l) -> List.NoDup (List.map f (List.filter P l)).
Proof.
  induction l as [|x l IH]; cbn; [auto|]. intros H.
  apply List.NoDup_cons_iff in H as [Hx Hl]. destruct (P x); cbn; [|now apply IH].
  constructor; [|now apply IH]. intros Hin. apply Hx.
  apply List.in_map_iff in Hin as (y & Hy & Hin). apply List.filter_In in Hin as [Hin _].
  apply List.in_map_iff. now exists y.
Qed.

(** [[...prev.filter((o) => o.id !== id), info]] keeps the ids distinct. *)
Lemma NoDup_replace i (x : OverlayInfo) (l : list OverlayInfo) :
  id x = i -> List.NoDup (List.map id l) ->
  List.NoDup (List.map id (without i l ++ [x])).
Proof.
  intros Hx Hl. rewrite List.map_app. cbn. rewrite Hx.
  apply NoDup_ListNoDup, NoDup_app. split; [|split].
  - apply NoDup_ListNoDup. now apply NoDup_map_filter.
  - intros y Hy Hy'. apply list_elem_of_In in Hy. apply list_elem_of_singleton in Hy'.
    subst y. exact (in_without i l Hy).
  - apply NoDup_singleton.
Qed.

Lemma map_id_updated (P : OverlayInfo -> bool) (f : OverlayInfo -> OverlayInfo)
  (l : list OverlayInfo) :
  (forall x, id (f x) = id x) ->
  List.map id (List.map (fun x => if P x then f x else x) l) = List.map id l.
Proof.
  intros Hf. rewrite List.map_map. apply List.map_ext. intros x.
  destruct (P x); [apply Hf | reflexivity].
Qed.

Lemma restore_entry_NoDup env s e :
  List.NoDup (List.map id (overlays s)) ->
  List.NoDup (List.map id (overlays (restore_entry env s e))).
Proof.
  intros H. unfold restore_entry.
  destruct (addRasterOverlay _ _ _ _) as [[d|] m1] eqn:E; [|exact H].
  cbn [overlays]. apply NoDup_replace; [|exact H].
  cbn. now apply addRasterOverlay_id in E.
Qed.

Lemma restore_entries_NoDup env (l : list Store.StoredOverlay) s :
  List.NoDup (List.map id (overlays s)) ->
  List.NoDup (List.map id (overlays (List.fold_left (restore_entry env) l s))).
Proof.
  revert s. induction l as [|e l IH]; intros s H; [exact H|].
  cbn [List.fold_left]. apply IH. now apply restore_entry_NoDup.
Qed.

Lemma step_NoDup a s :
  List.NoDup (List.map id (overlays s)) ->
  List.NoDup (List.map id (overlays (step a s))).
Proof.
  intros H. destruct a; cbn [step].
  - unfold restore. destruct (mapRef s); [|exact H].
    destruct (Store.loadAllGroups (idb s)) as [[stored|] db1]; [|exact H].
    destruct (Store.loadAllOverlays now db1) as [[all|] db2]; [|exact H].
    now apply restore_entries_NoDup.
  - unfold handleAddOverlay. destruct file as [[fname bytes]|]; [|exact H].
    destruct (addRasterOverlay _ _ _ _) as [[d|] m1] eqn:E; [|exact H].
    cbn [overlays]. apply NoDup_replace; [|exact H].
    cbn. now apply addRasterOverlay_id in E.
  - cbn [handleRemoveOverlay overlays]. now apply NoDup_map_filter.
  - cbn [handleOverlayOpacityChange overlays]. now rewrite map_id_updated.
  - cbn [handleToggleOverlayVisibility overlays]. now rewrite map_id_updated.
  - exact H.
  - unfold handleCreateGroup. now destruct (String.eqb _ "").
  - unfold handleRenameGroup. destruct renameGroupId; [|exact H].
    now destruct (String.eqb _ "").
  - unfold handleDeleteGroup. destruct (String.eqb groupId' "default"); [exact H|].
    cbn [overlays]. unfold reparent.
    now rewrite (map_id_updated (fun o => String.eqb (groupId o) groupId')).
  - cbn [handleMoveOverlayToGroup overlays]. now rewrite map_id_updated.
  - exact H.
  - exact H.
  - exact H.
Qed.

Lemma reachable_NoDup s : reachable s -> List.NoDup (List.map id (overlays s)).
Proof.
  induction 1 as [m db Hwf | a s _ IH]; [constructor | now apply step_NoDup].
Qed.

Lemma NoDup_id_once (i : string) (l : list OverlayInfo) :
  List.NoDup (List.map id l) ->
  (length (List.filter (fun o => String.eqb (id o) i) l) <= 1)%nat.
Proof. apply (NoDup_key_once id). Qed.

(** [Math.max(0, ...orders)] bounds the orders of the user groups. *)
Lemma maxOrder_bound (gs : list OverlayGroup) :
  0 <= maxOrder gs /\
  Forall (fun g => is_default g = false -> order g <= maxOrder gs) gs.
Proof.
  unfold maxOrder. induction gs as [|g gs [IH0 IH]]; [split; [reflexivity | constructor]|].
  cbn [List.filter]. destruct (is_default g) eqn:E; cbn [negb List.map List.fold_right].
  - split; [exact IH0|]. constructor; [cbn; intros Hd; congruence | exact IH].
  - split; [lia|]. constructor; [cbn; intros _; lia|].
    eapply Forall_impl; [exact IH|]. cbn. intros x Hx Hd. specialize (Hx Hd). lia.
Qed.

(** Inserting in front of a tail whose head does not sort before [x]. *)
Lemma insert_sorted_before_tail {A} (cmp : A -> A -> Z) (x t : A) (us rest : list A) :
  cmp x t <= 0 ->
  JsArray.insert_sorted cmp x (us ++ t :: rest)
  = JsArray.insert_sorted cmp x us ++ t :: rest.
Proof.
  intros Hx. induction us as [|u us IH]; cbn.
  - destruct (Z.leb_spec (cmp x t) 0); [reflexivity | lia].
  - destruct (cmp x u <=? 0); [reflexivity|]. now rewrite IH.
Qed.

Lemma sort_before_tail (new dflt : OverlayGroup) (us : list OverlayGroup) :
  is_default new = false -> is_default dflt = true ->
  Forall (fun g => is_default g = false /\ order g <= order new) us ->
  sortedGroups (us ++ [new; dflt]) = sortedGroups us ++ [new; dflt].
Proof.
  intros Hn Hd Hus. unfold is_default in *.
  unfold sortedGroups, JsArray.sort. rewrite List.fold_right_app.
  assert (H0 : List.fold_right (JsArray.insert_sorted group_cmp) [] [new; dflt]
               = [new; dflt]).
  { cbn. unfold group_cmp. now rewrite Hn, Hd. }
  rewrite H0. clear H0. induction Hus as [|u us [Hu Ho] _ IH]; [reflexivity|].
  cbn [List.fold_right]. rewrite IH. apply insert_sorted_before_tail.
  unfold group_cmp. rewrite Hu, Hn. lia.
Qed.

Lemma saveGroup_run g db :
  (Store.version db <= Store.DB_VERSION)%nat ->
  fire_and_forget (Store.saveGroup g) db =
  Store.put_group g {| Store.version := Store.DB_VERSION;
                       Store.overlays := Store.overlays db;
                       Store.groups := Store.groups db |}.
Proof.
  intros Hv. unfold fire_and_forget, Store.saveGroup. now rewrite run_after_open.
Qed.

(** The store after a call whose rejection is only logged. *)
Lemma forget_after_open (f : Store.IDB -> Store.IDB) db :
  (forall d, Store.overlays (f d) = Store.overlays d) ->
  Store.overlays (fire_and_forget (_ ← Store.openDB; modify f) db) = Store.overlays db.
Proof.
  intros Hf. unfold fire_and_forget, mbind, js_bind, modify, Store.openDB.
  destruct (Store.DB_VERSION <? Store.version db)%nat; cbn; [reflexivity|].
  now rewrite Hf.
Qed.

End ScreenMoreFacts.

Section ScreenProperties.
Import Renderer Screen.

Lemma setOverlayOpacity_run i o m :
  setOverlayOpacity i o (Some m) =
  Some (set_layers (List.map (fun l => if String.eqb (layer_id l) (layerId i)
                                       then with_raster_opacity o l else l)) m).
Proof.
  unfold setOverlayOpacity. f_equal.
  destruct (hasLayer m (layerId i)) eqn:E; [reflexivity|].
  symmetry. apply set_layers_same. apply find_none_map_same.
  now apply getLayer_hasLayer.
Qed.

Lemma find_map_opacity (lid : string) (o : Q) (ls : list Layer) (l : Layer) :
  List.find (fun x => String.eqb (layer_id x) lid) ls = Some l ->
  List.find (fun x => String.eqb (layer_id x) lid)
    (List.map (fun x => if String.eqb (layer_id x) lid
                        then with_raster_opacity o x else x) ls)
  = Some (with_raster_opacity o l).
Proof.
  induction ls as [|x xs IH]; cbn; [discriminate|].
  destruct (String.eqb (layer_id x) lid) eqn:E; cbn; rewrite E.
  - now intros [= ->].
  - exact IH.
Qed.

Lemma restore_entry_shows env (stored : list Store.StoredOverlay) (P : OverlayInfo -> Prop)
  s e :
  (forall d m1 o,
     addRasterOverlay (outcome (env (Store.id e))) (Store.id e) (blobUrl (env (Store.id e)))
       (mapRef s) = (Some d, m1) ->
     o = {| id := d_id d; name := Store.filename e; bounds := d_bounds d;
            opacity := Store.opacity e; visible := Store.visible e;
            groupId := Store.groupId e |} -> P o) ->
  Forall P (overlays s) -> Forall P (overlays (restore_entry env s e)).
Proof.
  intros Hnew H. unfold restore_entry.
  destruct (addRasterOverlay _ _ _ _) as [[d|] m1] eqn:E; [|exact H].
  cbn [overlays]. apply Forall_app. split.
  - unfold without. rewrite !Forall_forall in *. intros x Hx.
    apply list_elem_of_In, List.filter_In in Hx as [Hx _].
    apply H. now apply list_elem_of_In.
  - constructor; [|constructor]. now apply (Hnew d m1).
Qed.

(** X16.  In every state of the screen the listed overlays have distinct
    ids, so each handler that looks an overlay up by id (opacity,
    visibility, move to group, remove) finds at most one entry and writes
    the store at most once. *)
Theorem listed_overlays_have_distinct_ids (s : App) (H : reachable s) :
  List.NoDup (List.map id (overlays s)) /\
  forall i, (length (List.filter (fun o => String.eqb (id o) i) (overlays s)) <= 1)%nat.
Proof.
  pose proof (reachable_NoDup s H) as Hnd. split; [exact Hnd|].
  intros i. now apply NoDup_id_once.
Qed.

Lemma listed_overlays_have_distinct_ids_witness :
  List.NoDup
    (List.map id
       (overlays
          (step (AddOverlay (Some ("a.pmtiles", []))
                   {| blobUrl := "blob:2"; outcome := all_fine (0, 0, 1, 1)%Q |} 2)
             (step (AddOverlay (Some ("a.PMTILES", []))
                      {| blobUrl := "blob:1"; outcome := all_fine (0, 0, 1, 1)%Q |} 1)
                (initial (Some (loaded_map example_engine)) Store.fresh))))).
Proof.
  apply listed_overlays_have_distinct_ids.
  do 2 apply reach_step. apply reach_initial. apply wf_fresh.
Defined.

(** X17.  [handleRemoveOverlay(id)] takes the overlay off the list, off
    the map and out of the store, and leaves the other overlays and the
    groups alone; doing it again changes nothing.  When the database
    cannot be opened the list and the map are updated all the same and
    the stored record stays. *)
Theorem handleRemoveOverlay_removes_everywhere (i : string) (s : App) :
  let s' := handleRemoveOverlay i s in
  overlays s' = without i (overlays s) /\
  Forall (fun o => id o <> i) (overlays s') /\
  (forall o, id o <> i -> List.In o (overlays s') <-> List.In o (overlays s)) /\
  (forall m, mapRef s = Some m ->
     exists m', mapRef s' = Some m' /\ no_overlay i m' /\
                layers m' = other_layers i (layers m) /\
                sources m' = delete (sourceId i) (sources m)) /\
  (mapRef s = None -> mapRef s' = None) /\
  overlayGroups s' = overlayGroups s /\
  Store.groups (idb s') = Store.groups (idb s) /\
  ((Store.version (idb s) <= Store.DB_VERSION)%nat ->
   Store.overlays (idb s') = delete i (Store.overlays (idb s))) /\
  (unopenable (idb s) -> idb s' = idb s) /\
  handleRemoveOverlay i s' = s'.
Proof.
  cbv zeta.
  assert (Hdb : forall db,
    fire_and_forget (Store.deleteOverlay i) db =
    if (Store.DB_VERSION <? Store.version db)%nat then db
    else {| Store.version := Store.DB_VERSION;
            Store.overlays := delete i (Store.overlays db);
            Store.groups := Store.groups db |}).
  { intros db. unfold fire_and_forget, Store.deleteOverlay, mbind, js_bind, modify,
      Store.openDB. now destruct (Store.DB_VERSION <? Store.version db)%nat. }
  assert (Hrm : forall m0, removeRasterOverlay i (Some m0) = Some (cleared i m0))
    by reflexivity.
  unfold handleRemoveOverlay. cbn [overlays mapRef overlayGroups idb].
  split; [reflexivity|]. split.
  { unfold without. rewrite Forall_forall. intros o Ho.
    apply list_elem_of_In, List.filter_In in Ho as [_ Ho].
    intros Heq. rewrite Heq, String.eqb_refl in Ho. discriminate. }
  split.
  { intros o Ho. unfold without. rewrite List.filter_In.
    apply String.eqb_neq in Ho. rewrite Ho. cbn. tauto. }
  split.
  { intros m ->. rewrite Hrm, cleared_eq. eexists. split; [reflexivity|].
    cbn [layers sources set_sources set_layers].
    split; [|split; reflexivity].
    split; [apply find_filter_none | unfold getSource; cbn; apply lookup_delete_eq]. }
  split; [now intros ->|]. split; [reflexivity|].
  rewrite !Hdb. split; [|split; [|split]].
  - now destruct (Store.DB_VERSION <? Store.version (idb s))%nat.
  - intros Hv. destruct (Store.DB_VERSION <? Store.version (idb s))%nat eqn:E;
      [apply Nat.ltb_lt in E; lia | reflexivity].
  - unfold unopenable. intros Hv.
    destruct (Store.DB_VERSION <? Store.version (idb s))%nat eqn:E;
      [reflexivity | apply Nat.ltb_ge in E; lia].
  - f_equal.
    + destruct (mapRef s) as [m|]; [|reflexivity].
      rewrite !Hrm, !cleared_eq. f_equal. unfold set_sources, set_layers.
      cbn [layers sources center zoom fitted]. f_equal.
      * now rewrite delete_delete_eq.
      * apply other_layers_twice.
    + unfold without. induction (overlays s) as [|x xs IH]; [reflexivity|].
      cbn. destruct (String.eqb (id x) i) eqn:E; cbn; [exact IH|].
      rewrite E. cbn. now rewrite IH.
    + destruct (Store.DB_VERSION <? Store.version (idb s))%nat eqn:E; [now rewrite E|].
      cbn [Store.version Store.overlays Store.groups].
      change (Store.DB_VERSION <? Store.DB_VERSION)%nat with false. cbv iota.
      now rewrite delete_delete_eq.
Qed.

(** X18.  [handleOverlayOpacityChange(id, opacity)] brings the list, the
    map and the store to the same opacity: the list entry of the overlay,
    its layer on the map and its stored record hold the new value, every
    other entry, layer and record is as before, and an overlay that is
    not listed, not on the map or not stored is not created there. *)
Theorem handleOverlayOpacityChange_reaches_list_map_and_store
  (now : Z) (i : string) (o : Q) (s : App)
  (Hwf : Store.wf (idb s)) (Hv : (Store.version (idb s) <= Store.DB_VERSION)%nat) :
  let s' := handleOverlayOpacityChange now i o s in
  List.map id (overlays s') = List.map id (overlays s) /\
  (forall n x, List.nth_error (overlays s) n = Some x ->
     exists x', List.nth_error (overlays s') n = Some x' /\
       opacity x' = (if String.eqb (id x) i then o else opacity x) /\
       id x' = id x /\ name x' = name x /\ bounds x' = bounds x /\
       visible x' = visible x /\ groupId x' = groupId x) /\
  (forall m, mapRef s = Some m ->
     exists m', mapRef s' = Some m' /\
       List.map layer_id (layers m') = List.map layer_id (layers m) /\
       (forall l, getLayer m (layerId i) = Some l ->
                  getLayer m' (layerId i) = Some (with_raster_opacity o l)) /\
       (getLayer m (layerId i) = None -> m' = m) /\
       (forall x, x <> layerId i -> getLayer m' x = getLayer m x)) /\
  (forall r, Store.overlays (idb s) !! i = Some r ->
     Store.overlays (idb s') =
       <[i := with_opacity o (with_defaults now r)]> (Store.overlays (idb s))) /\
  (Store.overlays (idb s) !! i = None ->
     Store.overlays (idb s') = Store.overlays (idb s)) /\
  Store.groups (idb s') = Store.groups (idb s) /\
  overlayGroups s' = overlayGroups s.
Proof.
  cbv zeta. unfold handleOverlayOpacityChange. cbn [overlays mapRef overlayGroups idb].
  split; [now apply map_id_updated|]. split.
  { intros n x Hx. rewrite List.nth_error_map, Hx. cbn [option_map].
    eexists. split; [reflexivity|].
    destruct (String.eqb (id x) i); cbn; repeat split. }
  split.
  { intros m ->. rewrite setOverlayOpacity_run. eexists. split; [reflexivity|].
    cbn [layers set_layers]. split; [|split; [|split]].
    - rewrite List.map_map. apply List.map_ext. intros l.
      now destruct (String.eqb (layer_id l) (layerId i)).
    - intros l. apply find_map_opacity.
    - intros Hn. apply set_layers_same. now apply find_none_map_same.
    - intros x Hx. unfold getLayer. cbn [layers set_layers].
      induction (layers m) as [|y ys IH]; [reflexivity|]. cbn.
      destruct (String.eqb_spec (layer_id y) (layerId i)) as [Hy | Hy]; cbn.
      + destruct (String.eqb_spec (layer_id y) x); [congruence | exact IH].
      + now rewrite IH. }
  unfold fire_and_forget, Store.updateOverlayOpacity. split; [|split; [|split]].
  - intros r Hr. rewrite (update_field_present now i _ _ r Hv Hr).
    pose proof (proj1 Hwf _ _ Hr) as Hid.
    cbn [snd Store.overlays Store.put_overlay].
    match goal with
    | |- <[?k := _]> _ = _ => replace k with i by (symmetry; exact Hid)
    end.
    reflexivity.
  - intros Hr. now rewrite (update_field_absent now i _ _ Hv Hr).
  - destruct (Store.overlays (idb s) !! i) as [r|] eqn:Hr.
    + now rewrite (update_field_present now i _ _ r Hv Hr).
    + now rewrite (update_field_absent now i _ _ Hv Hr).
  - reflexivity.
Qed.

Lemma handleOverlayOpacityChange_reaches_list_map_and_store_witness :
  Store.overlays
    (idb (handleOverlayOpacityChange 9 "a" 0.3%Q (initial (Some (loaded_map example_engine)) Store.fresh)))
  = Store.overlays Store.fresh.
Proof.
  assert (Hv : (Store.version (idb (initial (Some (loaded_map example_engine)) Store.fresh))
                <= Store.DB_VERSION)%nat) by (cbn; unfold Store.DB_VERSION; lia).
  destruct (handleOverlayOpacityChange_reaches_list_map_and_store 9 "a" 0.3%Q
              (initial (Some (loaded_map example_engine)) Store.fresh) wf_fresh Hv)
    as (_ & _ & _ & _ & H & _).
  apply H. reflexivity.
Defined.

(** X19.  [handleCreateGroup]: a name that is empty once trimmed creates
    nothing; so does a name that is one white space character, be it of
    ASCII or one of the Unicode spaces, the line separators or the byte
    order mark.  Otherwise the new group gets the trimmed name and an order
    one above the largest order of the user groups (at least 1), is put
    after the user groups and before the default group, is listed there
    by [sortedGroups] as well, and is saved under its id; overlays and
    map are not touched. *)
Theorem handleCreateGroup_appends_before_default
  (newGroupName : string) (now : Z) (s : App) :
  let s' := handleCreateGroup newGroupName now s in
  (JsArray.trim newGroupName = "" -> s' = s) /\
  Forall (fun cp => handleCreateGroup (JsArray.of_bytes (JsArray.utf8 cp)) now s = s)
         JsArray.white_space /\
  (JsArray.trim newGroupName <> "" ->
   exists new dflt,
     overlayGroups s' = user_groups (overlayGroups s) ++ [new; dflt] /\
     gid new = "group-" +:+ pretty now /\ gname new = JsArray.trim newGroupName /\
     expanded new = true /\ order new = maxOrder (overlayGroups s) + 1 /\
     1 <= order new /\
     Forall (fun g => order g < order new) (user_groups (overlayGroups s)) /\
     gid dflt = "default" /\
     (forall d, List.find is_default (overlayGroups s) = Some d -> dflt = d) /\
     sortedGroups (overlayGroups s') =
       sortedGroups (user_groups (overlayGroups s)) ++ [new; dflt] /\
     overlays s' = overlays s /\ mapRef s' = mapRef s /\
     Store.overlays (idb s') = Store.overlays (idb s) /\
     ((Store.version (idb s) <= Store.DB_VERSION)%nat ->
      Store.groups (idb s') = <[gid new := to_stored new]> (Store.groups (idb s)))).
Proof.
  cbv zeta.
  assert (Hws : Forall (fun cp => handleCreateGroup (JsArray.of_bytes (JsArray.utf8 cp))
                                    now s = s) JsArray.white_space).
  { assert (Hall : List.forallb
                     (fun cp => String.eqb (JsArray.trim (JsArray.of_bytes (JsArray.utf8 cp))) "")
                     JsArray.white_space = true) by (vm_compute; reflexivity).
    rewrite List.forallb_forall in Hall. rewrite Forall_forall. intros cp Hcp.
    apply list_elem_of_In in Hcp. unfold handleCreateGroup. now rewrite (Hall cp Hcp). }
  unfold handleCreateGroup.
  destruct (String.eqb_spec (JsArray.trim newGroupName) "") as [He | Hne].
  { split; [reflexivity|]. split; [exact Hws | contradiction]. }
  split; [contradiction|]. split; [exact Hws|]. intros _.
  set (new := {| gid := "group-" +:+ pretty now; gname := JsArray.trim newGroupName;
                 expanded := true; order := maxOrder (overlayGroups s) + 1 |}).
  set (dflt := default DEFAULT_GROUP (List.find is_default (overlayGroups s))).
  destruct (maxOrder_bound (overlayGroups s)) as [H0 Hmax].
  assert (Hd : is_default dflt = true).
  { subst dflt. destruct (List.find is_default (overlayGroups s)) eqn:E; [|reflexivity].
    now apply List.find_some in E. }
  assert (Hus : Forall (fun g => is_default g = false /\ order g < order new)
                  (user_groups (overlayGroups s))).
  { unfold user_groups. rewrite Forall_forall in *. intros g Hg.
    apply list_elem_of_In, List.filter_In in Hg as [Hg Hnd].
    apply negb_true_iff in Hnd. split; [exact Hnd|].
    apply list_elem_of_In in Hg. specialize (Hmax g Hg Hnd). cbn. lia. }
  exists new, dflt. cbn [overlayGroups overlays mapRef idb].
  split; [reflexivity|]. do 4 (split; [reflexivity|]).
  split; [cbn; lia|]. split.
  { eapply Forall_impl; [exact Hus|]. cbn. intros g [_ Hle]. exact Hle. }
  split; [apply String.eqb_eq; exact Hd|].
  split; [intros d Hfind; subst dflt; now rewrite Hfind|].
  split.
  { apply sort_before_tail; [reflexivity | exact Hd |].
    eapply Forall_impl; [exact Hus|]. cbn. intros g [Hg Hlt]. split; [exact Hg | lia]. }
  do 2 (split; [reflexivity|]). split.
  - unfold Store.saveGroup. now apply forget_after_open.
  - intros Hv. now rewrite saveGroup_run.
Qed.

Lemma handleCreateGroup_appends_before_default_witness :
  let ideographic_space := JsArray.of_bytes [0xE3; 0x80; 0x80]%N in
  let no_break_space := JsArray.of_bytes [0xC2; 0xA0]%N in
  let s := initial (Some (loaded_map example_engine)) Store.fresh in
  (exists new,
     overlayGroups (handleCreateGroup (ideographic_space +:+ " Survey" +:+ no_break_space)
                      1700000000000 s)
     = [new; DEFAULT_GROUP] /\ gname new = "Survey" /\ order new = 1) /\
  handleCreateGroup ideographic_space 1700000000000 s = s.
Proof.
  cbv zeta.
  destruct (handleCreateGroup_appends_before_default
              (JsArray.of_bytes [0xE3; 0x80; 0x80]%N +:+ " Survey"
               +:+ JsArray.of_bytes [0xC2; 0xA0]%N) 1700000000000
              (initial (Some (loaded_map example_engine)) Store.fresh)) as (_ & _ & H).
  destruct H as (new & dflt & H1 & _ & H3 & _ & H5 & _ & _ & _ & H9 & _).
  { intros E. vm_compute in E. discriminate E. }
  split.
  - exists new. rewrite H1, H3, H5, (H9 DEFAULT_GROUP eq_refl).
    split; [reflexivity|]. split; reflexivity.
  - destruct (handleCreateGroup_appends_before_default
                (JsArray.of_bytes [0xE3; 0x80; 0x80]%N) 1700000000000
                (initial (Some (loaded_map example_engine)) Store.fresh)) as (H & _).
    apply H. reflexivity.
Defined.

Lemma restore_entries_show env (P : OverlayInfo -> Prop)
  (stored : list Store.StoredOverlay) s :
  Forall (fun e => forall d o,
            d_id d = Store.id e ->
            o = {| id := d_id d; name := Store.filename e; bounds := d_bounds d;
                   opacity := Store.opacity e; visible := Store.visible e;
                   groupId := Store.groupId e |} -> P o) stored ->
  Forall P (overlays s) ->
  Forall P (overlays (List.fold_left (restore_entry env) stored s)).
Proof.
  intros Hst. revert s. induction Hst as [|e l He _ IH]; intros s H; [exact H|].
  cbn [List.fold_left]. apply IH. apply (restore_entry_shows env l); [|exact H].
  intros d m1 o Hadd Ho. apply (He d o); [|exact Ho].
  now apply addRasterOverlay_id in Hadd.
Qed.

(** X20.  The restore effect only reads the store: the records and groups
    in the database are as before, whatever the map does with the
    overlays.  Without a map, or with a database that cannot be opened,
    the screen is left as it was; with no stored group the groups on the
    screen are kept.  Every overlay listed afterwards was listed before
    or shows a stored record (its id, file name, opacity, visibility and
    group, with the defaults for what the record lacks); every group
    listed afterwards was listed before, is a stored group, or is the
    default group. *)
Theorem restore_only_reads_and_shows_what_is_stored
  (now : Z) (env : string -> AddEnv) (s : App) (Hwf : Store.wf (idb s)) :
  let s' := restore now env s in
  Store.overlays (idb s') = Store.overlays (idb s) /\
  Store.groups (idb s') = Store.groups (idb s) /\
  (mapRef s = None -> s' = s) /\
  (unopenable (idb s) -> s' = s) /\
  (Store.groups (idb s) = ∅ -> overlayGroups s' = overlayGroups s) /\
  Forall (fun o => List.In o (overlays s) \/
                   exists r, Store.overlays (idb s) !! id o = Some r /\ shows r o)
         (overlays s') /\
  Forall (fun g => List.In g (overlayGroups s) \/ g = DEFAULT_GROUP \/
                   exists sg, Store.groups (idb s) !! gid g = Some sg /\ g = of_stored sg)
         (overlayGroups s').
Proof.
  cbv zeta.
  assert (Hold : Forall (fun o => List.In o (overlays s) \/
                   exists r, Store.overlays (idb s) !! id o = Some r /\ shows r o)
                   (overlays s)).
  { rewrite Forall_forall. intros o Ho. left. now apply list_elem_of_In. }
  assert (Hgold : Forall (fun g => List.In g (overlayGroups s) \/ g = DEFAULT_GROUP \/
                   exists sg, Store.groups (idb s) !! gid g = Some sg /\ g = of_stored sg)
                   (overlayGroups s)).
  { rewrite Forall_forall. intros g Hg. left. now apply list_elem_of_In. }
  unfold restore. destruct (mapRef s) as [m|] eqn:Em.
  2: { repeat split; auto. }
  rewrite loadAllGroups_run. unfold unopenable.
  destruct (Store.DB_VERSION <? Store.version (idb s))%nat eqn:Ev.
  { cbn [idb overlays overlayGroups]. split; [reflexivity|]. split; [reflexivity|].
    split; [discriminate|]. split.
    - intros _. destruct s; cbn in *. now rewrite Em.
    - auto. }
  apply Nat.ltb_ge in Ev.
  rewrite loadAllOverlays_run. cbn [Store.version Store.overlays Store.groups].
  change (Store.DB_VERSION <? Store.DB_VERSION)%nat with false. cbv iota beta.
  set (stored := JsArray.sort _ (Store.getAll (Store.groups (idb s)))).
  set (groups1 := if (0 <? length stored)%nat then _ else overlayGroups s).
  match goal with
  | |- context [List.fold_left (restore_entry env) ?l ?s0] =>
      set (all := l); set (s0' := s0)
  end.
  destruct (restore_entries_keep env all s0') as [Hg Hd]. rewrite Hg, Hd.
  subst s0'. cbn [idb overlayGroups Store.overlays Store.groups].
  split; [reflexivity|]. split; [reflexivity|]. split; [discriminate|].
  split; [intros Hu; lia|]. split; [|split].
  - intros He. subst groups1 stored. rewrite He.
    change (Store.getAll (∅ : gmap string Store.StoredGroup)) with (@nil Store.StoredGroup).
    reflexivity.
  - apply restore_entries_show; [|exact Hold].
    subst all. rewrite Forall_forall. intros e He d o Hdid ->.
    apply list_elem_of_In, List.in_map_iff in He as (r & <- & Hr).
    apply getAll_In in Hr as (k & Hk). right. exists r.
    pose proof (proj1 Hwf _ _ Hk) as Hid. cbn [id]. rewrite Hdid. cbn [Store.id Store.normalizeOverlay].
    split; [now rewrite Hid|]. repeat split.
  - subst groups1. destruct (0 <? length stored)%nat; [|exact Hgold].
    assert (Hst : Forall (fun sg => exists k, Store.groups (idb s) !! k = Some sg) stored).
    { subst stored. rewrite Forall_forall. intros sg Hsg.
      rewrite (sort_perm _ (Store.getAll (Store.groups (idb s)))) in Hsg.
      apply list_elem_of_In in Hsg. now apply getAll_In. }
    assert (Hmap : forall l, Forall (fun sg => exists k, Store.groups (idb s) !! k = Some sg) l ->
              Forall (fun g => List.In g (overlayGroups s) \/ g = DEFAULT_GROUP \/
                 exists sg, Store.groups (idb s) !! gid g = Some sg /\ g = of_stored sg)
                (List.map of_stored l)).
    { intros l Hl. induction Hl as [|sg l (k & Hk) _ IH]; [constructor|].
      cbn. constructor; [|exact IH]. right. right. exists sg.
      split; [|reflexivity]. cbn. now rewrite (proj2 Hwf _ _ Hk). }
    destruct (List.existsb _ stored); [now apply Hmap|].
    rewrite List.map_app. apply Forall_app. split; [now apply Hmap|].
    constructor; [|constructor]. right. left. reflexivity.
Qed.

Lemma restore_only_reads_and_shows_what_is_stored_witness :
  Store.overlays (idb (restore 5 (fun _ => {| blobUrl := "blob:1";
                                              outcome := all_fine (0, 0, 1, 1)%Q |})
                         (initial (Some (loaded_map example_engine)) Store.fresh)))
  = Store.overlays Store.fresh.
Proof.
  exact (proj1 (restore_only_reads_and_shows_what_is_stored 5 _
                  (initial (Some (loaded_map example_engine)) Store.fresh) wf_fresh)).
Defined.

Lemma without_absent i (l : list OverlayInfo) :
  ~ List.In i (List.map id l) -> without i l = l.
Proof.
  unfold without. induction l as [|x l IH]; cbn; [reflexivity|]. intros H.
  destruct (String.eqb_spec (id x) i) as [E | _]; [tauto|]. cbn.
  rewrite IH; [reflexivity | tauto].
Qed.

Lemma mapRef_restore_entry env s e m :
  mapRef s = Some m -> exists m', mapRef (restore_entry env s e) = Some m'.
Proof.
  intros Hm. unfold restore_entry. rewrite Hm.
  destruct (addRasterOverlay_outcomes (outcome (env (Store.id e))) m (Store.id e)
              (blobUrl (env (Store.id e)))) as (res & m1 & -> & _).
  destruct res as [d|]; cbn [mapRef]; [|now exists m1].
  rewrite setOverlayOpacity_run.
  destruct (Store.visible e); [eexists; reflexivity|].
  unfold toggleOverlayVisibility. eexists; reflexivity.
Qed.

(** The loop of the restore effect, when the map accepts every overlay. *)
Lemma restore_entries_list env (stored : list Store.StoredOverlay) :
  (forall i, ~ fails (outcome (env i))) ->
  forall s m,
    mapRef s = Some m ->
    List.NoDup (List.map Store.id stored) ->
    (forall e, List.In e stored -> ~ List.In (Store.id e) (List.map id (overlays s))) ->
    exists new,
      overlays (List.fold_left (restore_entry env) stored s) = overlays s ++ new /\
      Forall2 (fun e o =>
                 id o = Store.id e /\ name o = Store.filename e /\
                 opacity o = Store.opacity e /\ visible o = Store.visible e /\
                 groupId o = Store.groupId e /\
                 header (outcome (env (Store.id e))) = Some (bounds o))
              stored new.
Proof.
  intros Hok. induction stored as [|e l IH]; intros s m Hm Hnd Hfresh.
  - exists []. split; [now rewrite List.app_nil_r | constructor].
  - cbn [List.fold_left]. cbn [List.map] in Hnd.
    apply List.NoDup_cons_iff in Hnd as [He Hnd].
    destruct (mapRef_restore_entry env s e m Hm) as (m' & Hm').
    assert (Hstep : exists o,
              overlays (restore_entry env s e) = overlays s ++ [o] /\
              id o = Store.id e /\ name o = Store.filename e /\
              opacity o = Store.opacity e /\ visible o = Store.visible e /\
              groupId o = Store.groupId e /\
              header (outcome (env (Store.id e))) = Some (bounds o)).
    { unfold restore_entry. rewrite Hm.
      destruct (addRasterOverlay_success (outcome (env (Store.id e))) (Store.id e)
                  (blobUrl (env (Store.id e))) m (Hok _)) as (b & Hb & ->).
      cbn [overlays]. eexists. split.
      - rewrite without_absent; [reflexivity|]. apply Hfresh. now left.
      - cbn. repeat split. exact Hb. }
    destruct Hstep as (o & Ho & Hid & Hrest).
    destruct (IH (restore_entry env s e) m' Hm' Hnd) as (new & Hnew & Hall).
    { intros x Hx. rewrite Ho, List.map_app, List.in_app_iff. cbn. rewrite Hid.
      intros [Hin | [Heq | []]].
      - apply (Hfresh x); [now right | exact Hin].
      - apply He. rewrite Heq. now apply List.in_map. }
    exists (o :: new). split.
    + rewrite Hnew, Ho, <- List.app_assoc. reflexivity.
    + constructor; [|exact Hall]. split; [exact Hid | exact Hrest].
Qed.

(** X26.  On a screen that lists nothing yet, over a database that can be
    opened and a map that accepts every overlay, the restore effect lists
    the stored overlays, each once, in the order of their ids (the key
    order of IndexedDB, by UTF-16 code units), each with its stored file
    name, opacity, visibility and group (the defaults where the record
    lacks them) and the bounds read from its file. *)
Theorem restore_lists_every_stored_overlay
  (now : Z) (env : string -> AddEnv) (s : App) (m : Map)
  (Hwf : Store.wf (idb s)) (Hv : (Store.version (idb s) <= Store.DB_VERSION)%nat)
  (Hm : mapRef s = Some m) (Hempty : overlays s = [])
  (Hok : forall i, ~ fails (outcome (env i))) :
  Forall2 (restored env) (Store.getAll (Store.overlays (idb s)))
          (overlays (restore now env s)) /\
  List.map id (overlays (restore now env s))
  = List.map Store.raw_id (Store.getAll (Store.overlays (idb s))) /\
  List.NoDup (List.map id (overlays (restore now env s))) /\
  StronglySorted key_le (List.map id (overlays (restore now env s))).
Proof.
  assert (Hnd : List.NoDup (List.map Store.raw_id (Store.getAll (Store.overlays (idb s))))).
  { unfold Store.getAll. destruct (sorted_map_to_list (Store.overlays (idb s))) as [Hn Hin].
    rewrite List.map_map. rewrite (List.map_ext_in _ fst); [exact Hn|].
    intros [k r] Hkr. cbn. apply (proj1 Hwf). now apply Hin. }
  assert (Hlist : Forall2 (restored env) (Store.getAll (Store.overlays (idb s)))
                    (overlays (restore now env s))).
  { unfold restore. rewrite Hm, loadAllGroups_run.
    destruct (Store.DB_VERSION <? Store.version (idb s))%nat eqn:Ev;
      [apply Nat.ltb_lt in Ev; lia|].
    rewrite loadAllOverlays_run. cbn [Store.version Store.overlays Store.groups].
    change (Store.DB_VERSION <? Store.DB_VERSION)%nat with false. cbv iota beta.
    match goal with
    | |- context [List.fold_left (restore_entry env) ?l ?s0] =>
        destruct (restore_entries_list env l Hok s0 m eq_refl) as (new & Hnew & Hall)
    end.
    - rewrite List.map_map. exact Hnd.
    - cbn [overlays]. rewrite Hempty. intros e _ [].
    - rewrite Hnew. cbn [overlays]. rewrite Hempty. cbn [List.app].
      clear Hnew. revert new Hall.
      induction (Store.getAll (Store.overlays (idb s))) as [|r rs IH]; intros new Hall.
      + inversion Hall. constructor.
      + cbn [List.map] in Hall. inversion Hall as [|e o l' new' Ho Hrest]; subst.
        cbn in Hnd. apply List.NoDup_cons_iff in Hnd as [_ Hnd'].
        constructor; [|now apply IH].
        destruct Ho as (H1 & H2 & H3 & H4 & H5 & H6).
        split; [|exact H6]. unfold shows. auto. }
  split; [exact Hlist|].
  assert (Hids : List.map id (overlays (restore now env s))
                 = List.map Store.raw_id (Store.getAll (Store.overlays (idb s)))).
  { assert (Hgen : forall rs os, Forall2 (restored env) rs os ->
                       List.map id os = List.map Store.raw_id rs).
    { intros rs os Hf. induction Hf as [|r o rs os [[Hid _] _] _ IH]; [reflexivity|].
      cbn [List.map]. now rewrite Hid, IH. }
    now apply Hgen. }
  split; [exact Hids|]. rewrite Hids. split; [exact Hnd|].
  apply getAll_sorted. apply Hwf.
Qed.

Lemma restore_lists_every_stored_overlay_witness :
  let fullwidth_A := JsArray.of_bytes [0xEF; 0xBC; 0xA1]%N in
  let kanji := JsArray.of_bytes [0xF0; 0xA0; 0xAE; 0xB7]%N in
  let record := fun i =>
    {| Store.raw_id := i; Store.raw_filename := i; Store.raw_data := [];
       Store.raw_opacity := None; Store.raw_visible := None;
       Store.raw_groupId := None; Store.raw_timestamp := None;
       Store.raw_url := None |} in
  JsArray.utf16 fullwidth_A = [0xFF21]%N /\
  JsArray.utf16 kanji = [0xD842; 0xDFB7]%N /\
  List.map id
    (overlays
       (restore 9 (fun _ => {| blobUrl := "blob:1"; outcome := all_fine (0, 0, 1, 1)%Q |})
          (initial (Some (loaded_map example_engine))
             (Store.put_overlay (record kanji)
                (Store.put_overlay (record fullwidth_A)
                   (Store.put_overlay (record "a") Store.fresh))))))
  = ["a"; kanji; fullwidth_A].
Proof.
  cbv zeta. split; [reflexivity|]. split; [reflexivity|].
  match goal with
  | |- List.map id (overlays (restore 9 ?env (initial (Some ?m) ?db))) = _ =>
      rewrite (proj1 (proj2 (restore_lists_every_stored_overlay 9 env
                               (initial (Some m) db) m
                               ltac:(repeat apply wf_put_overlay; apply wf_fresh)
                               ltac:(cbn; unfold Store.DB_VERSION; lia)
                               eq_refl eq_refl
                               ltac:(intros i; unfold fails; cbn;
                                     intros [H|[H|[H|H]]]; discriminate H))))
  end.
  vm_compute. reflexivity.
Defined.

End ScreenProperties.

(** ** The position marker stays on top *)

Section MarkerFacts.
Import Renderer Screen.

Lemma marker_on_top_map (f : Layer -> Layer) (m : Map) :
  (forall l, layer_id (f l) = layer_id l) ->
  marker_on_top m -> marker_on_top (set_layers (List.map f) m).
Proof.
  intros Hf (below & a & p & d & Hl & Ha & Hp & Hd & Hb).
  exists (List.map f below), (f a), (f p), (f d). cbn [layers set_layers].
  rewrite Hl, List.map_app, !Hf. repeat split; try assumption.
  rewrite Forall_forall in *. intros l Hl'.
  apply list_elem_of_In, List.in_map_iff in Hl' as (l0 & <- & Hin).
  rewrite Hf. apply Hb. now apply list_elem_of_In.
Qed.

Lemma marker_on_top_sources (f : gmap string Source -> gmap string Source) (m : Map) :
  marker_on_top m -> marker_on_top (set_sources f m).
Proof. intros H. exact H. Qed.

Lemma overlay_is_no_marker (i : string) : among location_layers (layerId i) = false.
Proof. reflexivity. Qed.

Lemma marker_on_top_other_layers i (m : Map) :
  marker_on_top m -> marker_on_top (set_layers (other_layers i) m).
Proof.
  intros (below & a & p & d & Hl & Ha & Hp & Hd & Hb).
  exists (other_layers i below), a, p, d. cbn [layers set_layers].
  rewrite Hl. unfold other_layers. rewrite List.filter_app. cbn [List.filter].
  rewrite Ha, Hp, Hd. cbn. repeat split; try assumption.
  rewrite Forall_forall in *. intros l Hl'.
  apply list_elem_of_In, List.filter_In in Hl' as [Hin _].
  apply Hb. now apply list_elem_of_In.
Qed.

Lemma marker_on_top_cleared i m : marker_on_top m -> marker_on_top (cleared i m).
Proof.
  intros H. rewrite cleared_eq. apply marker_on_top_sources.
  now apply marker_on_top_other_layers.
Qed.

Lemma insert_before_marker (l a p d : Layer) (below : list Layer) :
  layer_id a = "user-location-accuracy" ->
  Forall (fun x => among location_layers (layer_id x) = false) below ->
  insert_before "user-location-accuracy" l (below ++ [a; p; d])
  = (below ++ [l]) ++ [a; p; d].
Proof.
  intros Ha Hb. induction Hb as [|x xs Hx _ IH]; cbn.
  - now rewrite Ha.
  - destruct (String.eqb_spec (layer_id x) "user-location-accuracy") as [E|_].
    + rewrite E in Hx. discriminate Hx.
    + now rewrite IH.
Qed.

Lemma marker_has_accuracy m :
  marker_on_top m -> hasLayer m "user-location-accuracy" = true.
Proof.
  intros (below & a & p & d & Hl & Ha & _ & _ & Hb).
  unfold hasLayer, getLayer. rewrite Hl.
  rewrite find_app_none.
  - cbn. now rewrite Ha.
  - clear Hl. induction Hb as [|x xs Hx _ IH]; [reflexivity|]. cbn.
    destruct (String.eqb_spec (layer_id x) "user-location-accuracy") as [E|_];
      [rewrite E in Hx; discriminate Hx | exact IH].
Qed.

Lemma marker_on_top_addLayer throws i m :
  marker_on_top m ->
  marker_on_top (snd (addLayer throws (overlay_layer i) (below_location m) m)).
Proof.
  intros H. unfold addLayer. destruct throws; [exact H|].
  destruct (hasLayer m (layer_id (overlay_layer i))); [exact H|].
  unfold below_location. rewrite (marker_has_accuracy m H). cbn [snd].
  destruct H as (below & a & p & d & Hl & Ha & Hp & Hd & Hb).
  exists (below ++ [overlay_layer i]), a, p, d. cbn [layers set_layers].
  rewrite Hl, (insert_before_marker _ a p d below Ha Hb).
  repeat split; try assumption.
  apply Forall_app. split; [exact Hb|]. constructor; [|constructor].
  apply overlay_is_no_marker.
Qed.

Lemma marker_on_top_fitBounds throws b m :
  marker_on_top m -> marker_on_top (snd (fitBounds throws b m)).
Proof. intros H. unfold fitBounds. now destruct throws. Qed.

Lemma marker_on_top_addRasterOverlay oc i url m :
  marker_on_top m ->
  exists m', snd (addRasterOverlay oc i url (Some m)) = Some m' /\ marker_on_top m'.
Proof.
  intros H. unfold addRasterOverlay, try_catch. rewrite addRasterOverlay_try_run.
  destruct (header oc) as [b|]; [|now exists m]. cbv zeta.
  pose proof (marker_on_top_cleared i m H) as H1.
  destruct (addSource_throws oc); [now exists (cleared i m)|].
  set (m2 := set_sources _ (cleared i m)).
  assert (H2 : marker_on_top m2) by exact H1.
  pose proof (marker_on_top_addLayer (addLayer_throws oc) i m2 H2) as H3.
  destruct (addLayer _ _ _ m2) as [[[]|] m3]; cbn [snd] in H3; [|now exists m3].
  pose proof (marker_on_top_fitBounds (fitBounds_throws oc) b m3 H3) as H4.
  destruct (fitBounds _ b m3) as [[[]|] m4]; cbn [snd] in H4; now exists m4.
Qed.

Lemma marker_on_top_updateUserLocation lng lat acc m :
  marker_on_top m -> marker_on_top (updateUserLocation lng lat acc m).
Proof.
  intros H. unfold updateUserLocation.
  destruct (getSource m "user-location") as [[f| |]|]; try exact H.
  rewrite setLocationLayersVisibility_map.
  apply marker_on_top_map; [apply show_only_id|]. exact H.
Qed.

Lemma marker_on_top_flyTo lng lat z m :
  marker_on_top m -> marker_on_top (snd (flyTo lng lat z m)).
Proof.
  unfold marker_on_top. now rewrite (proj1 (flyTo_keeps lng lat z m)).
Qed.

Lemma marker_on_top_setOverlayOpacity i o m :
  marker_on_top m ->
  exists m', setOverlayOpacity i o (Some m) = Some m' /\ marker_on_top m'.
Proof.
  intros H. rewrite setOverlayOpacity_run. eexists. split; [reflexivity|].
  apply marker_on_top_map; [|exact H].
  intros l. now destruct (String.eqb (layer_id l) (layerId i)).
Qed.

Lemma marker_on_top_toggleOverlayVisibility i v m :
  marker_on_top m ->
  exists m', toggleOverlayVisibility i v (Some m) = Some m' /\ marker_on_top m'.
Proof.
  intros H. unfold toggleOverlayVisibility. rewrite guarded_setLayoutVisibility.
  eexists. split; [reflexivity|].
  apply marker_on_top_map; [apply show_only_id | exact H].
Qed.

Lemma marked_restore_entry env s e :
  marked (mapRef s) -> marked (mapRef (restore_entry env s e)).
Proof.
  intros (m & Hm & H). unfold restore_entry. rewrite Hm.
  destruct (marker_on_top_addRasterOverlay (outcome (env (Store.id e))) (Store.id e)
              (blobUrl (env (Store.id e))) m H) as (m1 & H1 & Hm1).
  destruct (addRasterOverlay _ _ _ (Some m)) as [[d|] mr]; cbn [snd] in H1; subst mr;
    cbn [mapRef]; [|now exists m1].
  destruct (marker_on_top_setOverlayOpacity (Store.id e) (Store.opacity e) m1 Hm1)
    as (m2 & -> & Hm2).
  destruct (Store.visible e); [now exists m2|].
  destruct (marker_on_top_toggleOverlayVisibility (Store.id e) false m2 Hm2)
    as (m3 & -> & Hm3).
  now exists m3.
Qed.

Lemma marked_restore_entries env (l : list Store.StoredOverlay) s :
  marked (mapRef s) -> marked (mapRef (List.fold_left (restore_entry env) l s)).
Proof.
  revert s. induction l as [|e l IH]; intros s H; [exact H|].
  cbn [List.fold_left]. apply IH. now apply marked_restore_entry.
Qed.

Lemma marked_toggles i (l : list OverlayInfo) mref :
  marked mref ->
  marked (List.fold_left
            (fun m x => toggleOverlayVisibility i (negb (visible x)) m) l mref).
Proof.
  revert mref. induction l as [|x l IH]; intros mref H; [exact H|].
  cbn [List.fold_left]. apply IH. destruct H as (m & -> & H).
  destruct (marker_on_top_toggleOverlayVisibility i (negb (visible x)) m H)
    as (m' & -> & H').
  now exists m'.
Qed.

Lemma marked_step a s : marked (mapRef s) -> marked (mapRef (step a s)).
Proof.
  intros H. destruct a; cbn [step].
  - unfold restore. destruct H as (m & Hm & H). rewrite Hm.
    assert (Hs : marked (mapRef s)) by (exists m; now split).
    destruct (Store.loadAllGroups (idb s)) as [[stored|] db1]; cbn [mapRef];
      [|now rewrite Hm in Hs].
    destruct (Store.loadAllOverlays now db1) as [[all|] db2]; cbn [mapRef];
      [|exists m; now split].
    apply marked_restore_entries. cbn [mapRef]. exists m. now split.
  - unfold handleAddOverlay. destruct file as [[fname bytes]|]; [|exact H].
    destruct H as (m & Hm & H). rewrite Hm.
    destruct (marker_on_top_addRasterOverlay (outcome env) (JsArray.strip_pmtiles fname)
                (blobUrl env) m H) as (m1 & H1 & Hm1).
    destruct (addRasterOverlay _ _ _ (Some m)) as [[d|] mr]; cbn [snd] in H1; subst mr;
      cbn [mapRef]; now exists m1.
  - destruct H as (m & Hm & H). cbn [handleRemoveOverlay mapRef]. rewrite Hm.
    exists (cleared id' m). split; [reflexivity | now apply marker_on_top_cleared].
  - destruct H as (m & Hm & H). cbn [handleOverlayOpacityChange mapRef]. rewrite Hm.
    destruct (marker_on_top_setOverlayOpacity id' o m H) as (m' & -> & H').
    now exists m'.
  - cbn [handleToggleOverlayVisibility mapRef]. now apply marked_toggles.
  - exact H.
  - unfold handleCreateGroup. now destruct (String.eqb _ "").
  - unfold handleRenameGroup. destruct renameGroupId; [|exact H].
    now destruct (String.eqb _ "").
  - unfold handleDeleteGroup. now destruct (String.eqb groupId' "default").
  - exact H.
  - destruct H as (m & Hm & H). cbn [on_mapRef mapRef]. rewrite Hm.
    exists (updateUserLocation lng lat accuracy m).
    split; [reflexivity | now apply marker_on_top_updateUserLocation].
  - destruct H as (m & Hm & H). cbn [on_mapRef mapRef]. rewrite Hm.
    eexists. split; [reflexivity | now apply marker_on_top_flyTo].
  - destruct H as (m & Hm & H). cbn [on_mapRef mapRef]. rewrite Hm.
    exists (setTileSourceOn source m). split; [reflexivity|].
    rewrite setTileSourceOn_map. apply marker_on_top_map; [apply retile_id | exact H].
Qed.

Lemma marker_on_top_loaded e : marker_on_top (loaded_map e).
Proof.
  exists (layers (initial_map e)), (circle_layer "user-location-accuracy"),
    (circle_layer "user-location-pulse"), (circle_layer "user-location-dot").
  split; [reflexivity|]. do 3 (split; [reflexivity|]).
  repeat constructor.
Qed.

(** X21.  The position marker is painted over everything else.  Once the
    map has loaded, the three marker layers are the topmost layers, halo,
    pulse, dot; every method of the in-process handle keeps them there,
    [addRasterOverlay] however it ends (an overlay goes right below the
    halo), and so does every handler of the screen, in any order. *)
Theorem marker_stays_on_top (m : Map) (H : marker_on_top m) :
  (forall e, marker_on_top (loaded_map e)) /\
  (forall lng lat acc,
     exists m', Renderer.updateLocation lng lat acc (Some m) = Some m' /\
                marker_on_top m') /\
  (forall lng lat z,
     exists m', Renderer.flyToLocation lng lat z (Some m) = Some m' /\ marker_on_top m') /\
  (exists m', Renderer.hideLocation (Some m) = Some m' /\ marker_on_top m') /\
  (forall source,
     exists m', Renderer.setTileSource source (Some m) = Some m' /\ marker_on_top m') /\
  (forall oc i url,
     exists m', snd (Renderer.addRasterOverlay oc i url (Some m)) = Some m' /\
                marker_on_top m') /\
  (forall i,
     exists m', Renderer.removeRasterOverlay i (Some m) = Some m' /\ marker_on_top m') /\
  (forall i o,
     exists m', Renderer.setOverlayOpacity i o (Some m) = Some m' /\ marker_on_top m') /\
  (forall (acts : list Action) db,
     exists m', mapRef (List.fold_left (fun s a => step a s) acts (initial (Some m) db))
                = Some m' /\ marker_on_top m').
Proof.
  split; [apply marker_on_top_loaded|].
  split; [intros; eexists; split; [reflexivity | now apply marker_on_top_updateUserLocation]|].
  split; [intros; eexists; split; [reflexivity | now apply marker_on_top_flyTo]|].
  split.
  { eexists. split; [reflexivity|]. rewrite setLocationLayersVisibility_map.
    apply marker_on_top_map; [apply show_only_id | exact H]. }
  split.
  { intros source. eexists. split; [reflexivity|]. rewrite setTileSourceOn_map.
    apply marker_on_top_map; [apply retile_id | exact H]. }
  split; [intros; now apply marker_on_top_addRasterOverlay|].
  split.
  { intros i. exists (cleared i m). split; [reflexivity | now apply marker_on_top_cleared]. }
  split; [intros; now apply marker_on_top_setOverlayOpacity|].
  intros acts db.
  assert (Hs : marked (mapRef (initial (Some m) db))) by (exists m; now split).
  revert Hs. generalize (initial (Some m) db). induction acts as [|a acts IH]; intros s Hs.
  - exact Hs.
  - cbn [List.fold_left]. apply IH. now apply marked_step.
Qed.

Lemma marker_stays_on_top_witness :
  exists m',
    snd (Renderer.addRasterOverlay
           {| header := Some (0, 0, 1, 1)%Q; addSource_throws := false;
              addLayer_throws := false; fitBounds_throws := true |}
           "a" "blob:a" (Some (loaded_map example_engine))) = Some m' /\
    marker_on_top m'.
Proof.
  destruct (marker_stays_on_top (loaded_map example_engine)
              (marker_on_top_loaded example_engine))
    as (_ & _ & _ & _ & _ & H & _).
  apply H.
Defined.

End MarkerFacts.
(** ** The pulse, frame by frame *)

(** X22.  The pulse repeats every 54 frames, and not earlier: radius and
    direction of frame [n + 54] are the very doubles of frame [n], and so
    is what the layer is painted with; no frame between the first and
    the 54th has the starting radius 18 with the starting direction.  The
    opacity written on a frame lies between 0.09999999999999948 (frame
    20) and 0.4037500000000002 (frame 47). *)
Theorem pulse_repeats_every_54_frames (n : nat) :
  fst (Pulse.frames (n + 54)) = fst (Pulse.frames n) /\
  Pulse.frames (S n + 54) = Pulse.frames (S n) /\
  Forall (fun k => at_start (fst (Pulse.frames k)) = false) (List.seq 1 53) /\
  at_start (fst (Pulse.frames 54)) = true /\
  (exists p o,
     snd (Pulse.frames (S n)) = Some p /\ Pulse.circle_opacity p = Some o /\
     between 0.09999999999999948 0.4037500000000002 o) /\
  (exists p20 p47,
     snd (Pulse.frames 20) = Some p20 /\ snd (Pulse.frames 47) = Some p47 /\
     Pulse.circle_opacity p20 = Some 0.09999999999999948%float /\
     Pulse.circle_opacity p47 = Some 0.4037500000000002%float).
Proof.
  split; [apply frames_period|]. split.
  { apply injective_projections.
    - apply (frames_period (S n)).
    - change (S n + 54)%nat with (S (n + 54)). rewrite !frames_layer.
      now rewrite (frames_period (S n) : fst (Pulse.frames (S (n + 54))) = _). }
  split.
  { assert (Hall : List.forallb
                     (fun k => negb (at_start (fst (Pulse.frames k))))
                     (List.seq 1 53) = true) by (vm_compute; reflexivity).
    rewrite List.forallb_forall in Hall. rewrite Forall_forall. intros k Hk.
    apply list_elem_of_In in Hk. apply negb_true_iff. now apply Hall. }
  split; [vm_compute; reflexivity|]. split.
  { eexists _, _. split; [apply frames_layer|]. cbn [Pulse.circle_opacity].
    split; [reflexivity|].
    pose proof (frames_all
      (fun s =>
         let o := Pulse.pulseOpacity (Pulse.pulseR (Pulse.advance s)) in
         ((0.09999999999999948 <=? o)%float && (o <=? 0.4037500000000002)%float)%bool))
      as H.
    specialize (H ltac:(vm_compute; reflexivity) n).
    apply andb_true_iff in H. exact H. }
  exists {| Pulse.circle_radius := 24.000000000000014;
            Pulse.circle_opacity := Some 0.09999999999999948%float |},
         {| Pulse.circle_radius := 15.899999999999995;
            Pulse.circle_opacity := Some 0.4037500000000002%float |}.
  split; [vm_compute; reflexivity|]. split; [vm_compute; reflexivity|].
  split; reflexivity.
Qed.


(** ** File names *)

Section StringFacts.
Import JsArray.

Lemma app_cons (a : ascii) (s1 s2 : string) :
  String a s1 +:+ s2 = String a (s1 +:+ s2).
Proof. reflexivity. Qed.

Lemma app_empty (s : string) : "" +:+ s = s.
Proof. reflexivity. Qed.

Lemma length_append (s1 s2 : string) :
  String.length (s1 +:+ s2) = (String.length s1 + String.length s2)%nat.
Proof.
  induction s1 as [|a s1 IH]; [reflexivity|].
  rewrite app_cons. cbn. now rewrite IH.
Qed.

Lemma length_lowercase (s : string) : String.length (lowercase s) = String.length s.
Proof. induction s as [|a s IH]; cbn; [reflexivity | now rewrite IH]. Qed.

Lemma substring_all (s : string) : String.substring 0 (String.length s) s = s.
Proof. induction s as [|a s IH]; cbn; [reflexivity | now rewrite IH]. Qed.

Lemma substring_prefix (s1 s2 : string) :
  String.substring 0 (String.length s1) (s1 +:+ s2) = s1.
Proof.
  induction s1 as [|a s1 IH].
  - rewrite app_empty. cbn. now destruct s2.
  - rewrite app_cons. cbn. now rewrite IH.
Qed.

Lemma substring_suffix (s1 s2 : string) :
  String.substring (String.length s1) (String.length s2) (s1 +:+ s2) = s2.
Proof.
  induction s1 as [|a s1 IH].
  - rewrite app_empty. apply substring_all.
  - rewrite app_cons. cbn. exact IH.
Qed.

Lemma substring_split (n : nat) (s : string) :
  (n <= String.length s)%nat ->
  s = String.substring 0 n s +:+ String.substring n (String.length s - n) s.
Proof.
  revert s. induction n as [|n IH]; intros s Hn.
  - rewrite Nat.sub_0_r, substring_all. now destruct s.
  - destruct s as [|a s]; cbn in Hn; [lia|].
    cbn [String.substring String.length Nat.sub]. rewrite app_cons. f_equal.
    apply IH. lia.
Qed.

End StringFacts.

(** X23.  The overlay id is the file name without its extension:
    [name.replace(/\.pmtiles$/i, '')] drops a final [.pmtiles] in any
    mix of upper and lower case and nothing else; a name that does not
    end so is returned as it is.  So [A.pmtiles] and [A.PMTILES] name the
    same overlay. *)
Theorem strip_pmtiles_drops_the_extension_only (name : string) :
  (forall ext, JsArray.lowercase ext = ".pmtiles" ->
               JsArray.strip_pmtiles (name +:+ ext) = name) /\
  (JsArray.strip_pmtiles name = name \/
   exists ext, JsArray.lowercase ext = ".pmtiles" /\
               name = JsArray.strip_pmtiles name +:+ ext).
Proof.
  split.
  - intros ext Hext.
    assert (Hlen : String.length ext = 8%nat).
    { rewrite <- length_lowercase, Hext. reflexivity. }
    assert (Hsuf : String.substring (String.length name) 8 (name +:+ ext) = ext).
    { rewrite <- Hlen. apply substring_suffix. }
    unfold JsArray.strip_pmtiles. cbv zeta. rewrite length_append, Hlen.
    replace (String.length name + 8 - 8)%nat with (String.length name) by lia.
    rewrite Hsuf, Hext, substring_prefix.
    destruct (8 <=? String.length name + 8)%nat eqn:E; [reflexivity|].
    apply Nat.leb_gt in E. lia.
  - unfold JsArray.strip_pmtiles. cbv zeta.
    destruct (8 <=? String.length name)%nat eqn:E; [|now left]. cbn [andb].
    destruct (String.eqb_spec
                (JsArray.lowercase
                   (String.substring (String.length name - 8) 8 name)) ".pmtiles")
      as [Hext | _]; [|now left].
    right. exists (String.substring (String.length name - 8) 8 name).
    split; [exact Hext|]. apply Nat.leb_le in E.
    rewrite (substring_split (String.length name - 8) name) at 1 by lia.
    do 2 f_equal. lia.
Qed.

Lemma strip_pmtiles_drops_the_extension_only_witness :
  JsArray.strip_pmtiles "Survey 2024.PmTiles" = "Survey 2024".
Proof.
  apply (proj1 (strip_pmtiles_drops_the_extension_only "Survey 2024") ".PmTiles").
  reflexivity.
Defined.

(** ** The location hook *)

Section HookFacts.
Import Hook.

Lemma NoDup_filter_nat (P : nat -> bool) (l : list nat) :
  List.NoDup l -> List.NoDup (List.filter P l).
Proof.
  induction l as [|x l IH]; cbn; [auto|]. intros H.
  apply List.NoDup_cons_iff in H as [Hx Hl]. destruct (P x); [|now apply IH].
  constructor; [|now apply IH]. intros Hin. apply Hx.
  now apply List.filter_In in Hin as [Hin _].
Qed.

Lemma Forall_filter_nat (Q : nat -> Prop) (P : nat -> bool) (l : list nat) :
  Forall Q l -> Forall Q (List.filter P l).
Proof.
  rewrite !Forall_forall. intros H x Hx.
  apply list_elem_of_In, List.filter_In in Hx as [Hx _]. apply H.
  now apply list_elem_of_In.
Qed.

Lemma hook_inv_stopTracking s : hook_inv s -> hook_inv (stopTracking s).
Proof.
  intros (Ht & Hr & Hnd & Hlt). unfold hook_inv, stopTracking.
  cbn [isTracking subscriptionRef watching issued].
  split; [split; [discriminate | intros [x Hx]; discriminate Hx]|].
  split; [discriminate|].
  destruct (subscriptionRef s); split; auto using NoDup_filter_nat, Forall_filter_nat.
Qed.

(** A change of the cells that are neither the ref nor [isTracking]. *)
Lemma hook_inv_cells s s' :
  isTracking s' = isTracking s -> subscriptionRef s' = subscriptionRef s ->
  watching s' = watching s -> issued s' = issued s ->
  hook_inv s -> hook_inv s'.
Proof. unfold hook_inv. intros -> -> -> -> H. exact H. Qed.

Lemma hook_inv_step e s : hook_inv s -> hook_inv (step e s).
Proof.
  intros H. destruct e as [| |r|r|sub l|oc]; cbn [step].
  - now apply (hook_inv_cells s).
  - now apply hook_inv_stopTracking.
  - unfold permissionSettled. destruct (awaitingPermission s) as [|n]; [exact H|].
    destruct r as [err|[|]]; cbv zeta.
    + now apply (hook_inv_cells s).
    + match goal with
      | |- hook_inv ?t => apply (hook_inv_cells (stopTracking s) t); try reflexivity
      end.
      now apply hook_inv_stopTracking.
    + now apply (hook_inv_cells s).
  - unfold watchSettled. destruct (awaitingWatch s) as [|n]; [exact H|].
    destruct r as [err|]; [now apply (hook_inv_cells s)|].
    destruct H as (Ht & Hr & Hnd & Hlt). unfold hook_inv.
    cbn [isTracking subscriptionRef watching issued].
    split; [split; [intros _; now eexists | reflexivity]|].
    split.
    { intros sub [= <-]. apply List.in_or_app. right. now left. }
    split.
    { apply NoDup_ListNoDup, NoDup_app. split; [now apply NoDup_ListNoDup|].
      split; [|apply NoDup_singleton].
      intros x Hx Hx'. apply list_elem_of_singleton in Hx'. subst x.
      rewrite Forall_forall in Hlt. specialize (Hlt _ Hx). lia. }
    apply Forall_app. split.
    { eapply Forall_impl; [exact Hlt|]. cbn. intros x Hx. lia. }
    constructor; [lia | constructor].
  - unfold positionReported. destruct (List.existsb _ _); [|exact H].
    now apply (hook_inv_cells s).
  - destruct oc; now apply (hook_inv_cells s).
Qed.

Lemma hook_inv_initial : hook_inv initial.
Proof.
  unfold hook_inv. cbn. split; [split; [discriminate | intros [x Hx]; discriminate Hx]|].
  split; [discriminate|]. split; constructor.
Qed.

Lemma reachable_hook_inv s : reachable s -> hook_inv s.
Proof.
  induction 1 as [|e s _ IH]; [apply hook_inv_initial | now apply hook_inv_step].
Qed.

Lemma filter_only (sub : nat) :
  List.filter (fun x => negb (Nat.eqb x sub)) [sub] = [].
Proof. cbn. now rewrite Nat.eqb_refl. Qed.

End HookFacts.

Section HookProperties.
Import Hook.

(** X24.  In every state of the hook, however calls, permission results,
    subscriptions and position reports interleave: [isTracking] is true
    exactly when the ref holds a subscription; that subscription is one
    the platform still holds; the subscriptions held are distinct.  A
    position report of a subscription that has been removed changes
    nothing, and [stopTracking] always ends with no subscription in the
    ref and [isTracking] false. *)
Theorem hook_tracks_what_it_holds (s : State) (H : reachable s) :
  (isTracking s = true <-> is_Some (subscriptionRef s)) /\
  (forall sub, subscriptionRef s = Some sub -> List.In sub (watching s)) /\
  List.NoDup (watching s) /\
  (forall sub l, ~ List.In sub (watching s) -> positionReported sub l s = s) /\
  subscriptionRef (stopTracking s) = None /\
  isTracking (stopTracking s) = false /\
  (forall sub, subscriptionRef s = Some sub -> ~ List.In sub (watching (stopTracking s))).
Proof.
  destruct (reachable_hook_inv s H) as (Ht & Hr & Hnd & _).
  split; [exact Ht|]. split; [exact Hr|]. split; [exact Hnd|].
  split.
  { intros sub l Hn. unfold positionReported.
    destruct (List.existsb (Nat.eqb sub) (watching s)) eqn:E; [|reflexivity].
    apply List.existsb_exists in E as (x & Hx & Hxs). apply Nat.eqb_eq in Hxs.
    subst x. contradiction. }
  split; [reflexivity|]. split; [reflexivity|].
  intros sub Hs. unfold stopTracking. cbn [watching]. rewrite Hs.
  intros Hin. apply List.filter_In in Hin as [_ Hne].
  rewrite Nat.eqb_refl in Hne. discriminate.
Qed.

Lemma hook_tracks_what_it_holds_witness :
  isTracking (run [StartTracking; PermissionSettled (inr true); WatchSettled None] initial)
  = true <->
  is_Some (subscriptionRef
             (run [StartTracking; PermissionSettled (inr true); WatchSettled None]
                initial)).
Proof.
  apply hook_tracks_what_it_holds. cbn [run List.fold_left].
  do 3 apply hook_step. apply hook_initial.
Defined.

(** X25.  When the hook is at rest (no call of [startTracking] pending,
    the platform holding just the subscription in the ref) a call of
    [startTracking] that runs to its end before anything else is called
    leaves it at rest again: granted, the old subscription is removed
    and a new one is held and tracked, with [isLoading] still true until
    the first position arrives; denied, the subscription and
    [isTracking] are as before, the error says so and [isLoading] is
    false.  [stopTracking] at rest leaves no subscription at all.  Two
    calls of [startTracking] that overlap (both past the permission
    request before either subscription arrives) end with two live
    subscriptions, of which [stopTracking] removes only the later. *)
Theorem startTracking_at_rest (s : State) (H : at_rest s) :
  (let s' := run [StartTracking; PermissionSettled (inr true); WatchSettled None] s in
   at_rest s' /\ subscriptionRef s' = Some (issued s) /\ watching s' = [issued s] /\
   isTracking s' = true /\ isLoading s' = true /\ error s' = None /\
   location s' = location s /\
   forall l, let s'' := positionReported (issued s) l s' in
             location s'' = Some l /\ isLoading s'' = false /\ at_rest s'') /\
  (let s' := run [StartTracking; PermissionSettled (inr false)] s in
   at_rest s' /\ subscriptionRef s' = subscriptionRef s /\ watching s' = watching s /\
   isTracking s' = isTracking s /\ isLoading s' = false /\
   error s' = Some "Location permission denied") /\
  (forall err,
     let s' := run [StartTracking; PermissionSettled (inr true); WatchSettled (Some err)] s in
     at_rest s' /\ subscriptionRef s' = None /\ watching s' = [] /\
     isTracking s' = false /\ isLoading s' = false /\
     error s' = Some (default "Failed to start location tracking" err)) /\
  (at_rest (stopTracking s) /\ watching (stopTracking s) = []) /\
  (let s' := run [StartTracking; StartTracking; PermissionSettled (inr true);
                  PermissionSettled (inr true); WatchSettled None; WatchSettled None] s in
   subscriptionRef s' = Some (S (issued s)) /\
   watching s' = [issued s; S (issued s)] /\
   watching (stopTracking s') = [issued s] /\
   forall l, location (positionReported (issued s) l (stopTracking s')) = Some l).
Proof.
  destruct s as [loc err tr ld ref w iss ap aw]. unfold at_rest in *.
  cbn [awaitingPermission awaitingWatch subscriptionRef watching] in H.
  destruct H as (-> & -> & ->).
  assert (Hne : Nat.eqb iss (S iss) = false) by (apply Nat.eqb_neq; lia).
  destruct ref as [sub|]; cbv -[Nat.eqb]; rewrite ?Nat.eqb_refl; cbv -[Nat.eqb];
    rewrite ?Nat.eqb_refl, ?Hne; cbv -[Nat.eqb]; rewrite ?Nat.eqb_refl;
    repeat split.
Qed.

Lemma startTracking_at_rest_witness :
  watching (run [StartTracking; PermissionSettled (inr true); WatchSettled None] initial)
  = [0%nat].
Proof.
  assert (H : at_rest initial) by (repeat split).
  destruct (startTracking_at_rest initial H) as ((_ & _ & Hw & _) & _).
  exact Hw.
Defined.

End HookProperties.

(** ** What the page reports *)

Section PageEventProperties.
Import Renderer Bridge.

(** X27.  What the page reports reaches the callbacks of the bridged
    component.  After [flyToLocation] has been delivered, the next
    [moveend] of the page calls [onMapMoved] once, with the centre and
    zoom at which the page's map rests: where the engine has landed the
    flight to the centre asked for and the zoom the page chose (the zoom
    asked for, or 16 when none or 0 was given), and the camera of before
    when the engine has refused it.  The [load] of a page holding the
    initial style registers the position marker and calls [onMapLoaded]
    once.  Without the callback prop nothing is called.  Neither event
    touches the promise state of the bridge or the injected commands. *)
Theorem page_events_reach_the_callbacks
  (props : Props) (s : System) (lng lat : Q) (zoomLevel : option Q) (H : caught_up s) :
  (let s1 := delivered_call props (Bridge.flyToLocation lng lat zoomLevel) s in
   let s2 := sys_step props (SysPage PageMoveEnd) s1 in
   let z := match zoomLevel with
            | Some z => if Qeq_bool z 0 then 16%Q else z
            | None => 16%Q
            end in
   let landing := flyTo_lands (engine (shown s)) (camera (shown s)) ((lng, lat), z) in
   notified (rn s2) =
     notified (rn s) ++ (if onMapMoved props
                         then [OnMapMoved (center (shown s1)) (zoom (shown s1))]
                         else []) /\
   camera (shown s1) = default (camera (shown s)) landing /\
   shown s1 = snd (flyTo lng lat z (shown s)) /\
   page s2 = page s1 /\ same_promises (rn s1) (rn s2) /\
   injected (rn s2) = injected (rn s1)) /\
  (forall e, shown s = initial_map e ->
   let s2 := sys_step props (SysPage PageLoad) s in
   notified (rn s2) = notified (rn s) ++ (if onMapLoaded props then [OnMapLoaded] else []) /\
   shown s2 = loaded_map e /\ same_promises (rn s) (rn s2) /\
   injected (rn s2) = injected (rn s)).
Proof.
  split.
  - cbv zeta. unfold delivered_call, Bridge.flyToLocation, shown.
    rewrite (deliver_sent props _ s H).
    cbn [sys_step page_event page rn handleCommand on_map page_map
         List.fold_left handleMessage].
    assert (Hz : (if Qeq_bool (default 16%Q zoomLevel) 0 then 16%Q
                  else default 16%Q zoomLevel)
                 = match zoomLevel with
                   | Some z => if Qeq_bool z 0 then 16%Q else z
                   | None => 16%Q
                   end) by (destruct zoomLevel; reflexivity).
    rewrite Hz.
    set (z := match zoomLevel with Some z => _ | None => _ end).
    assert (Hcam : camera (snd (flyTo lng lat z (page_map (page s))))
                   = default (camera (page_map (page s)))
                       (flyTo_lands (engine (page_map (page s)))
                          (camera (page_map (page s))) ((lng, lat), z))).
    { unfold flyTo. destruct (flyTo_lands _ _ _) as [[c zc]|]; reflexivity. }
    destruct H as [Hw _]. unfold sendCommand. rewrite Hw.
    destruct (onMapMoved props); cbn [notified rn page injected];
      unfold same_promises; cbn [overlayResolveRef timers resolved];
      rewrite ?List.app_nil_r; repeat split; exact Hcam.
  - intros e Hs. cbv zeta. unfold shown in *. cbn [sys_step page_event]. rewrite Hs.
    assert (Hreg : register_location (initial_map e) = (Some tt, loaded_map e))
      by reflexivity.
    rewrite Hreg.
    cbn [List.fold_left handleMessage rn page on_map page_map].
    destruct (onMapLoaded props); cbn [notified injected];
      unfold same_promises; cbn [overlayResolveRef timers resolved];
      rewrite ?List.app_nil_r; repeat split.
Qed.

Lemma page_events_reach_the_callbacks_witness :
  notified
    (rn (sys_step {| onMapMoved := true; onMapLoaded := true |} (SysPage PageMoveEnd)
           (delivered_call {| onMapMoved := true; onMapLoaded := true |}
              (Bridge.flyToLocation 139.7 35.7 (Some 0%Q))
              {| rn := Bridge.initial;
                 page := {| page_map := loaded_map example_engine;
                            currentTileSource := "osm" |};
                 delivered := 0 |})))
  = [OnMapMoved (139.7, 35.7)%Q 16%Q].
Proof.
  assert (Hc : caught_up {| rn := Bridge.initial;
                            page := {| page_map := loaded_map example_engine;
                                       currentTileSource := "osm" |};
                            delivered := 0 |}) by (split; reflexivity).
  destruct (page_events_reach_the_callbacks
              {| onMapMoved := true; onMapLoaded := true |} _ 139.7 35.7 (Some 0%Q) Hc)
    as [(Hn & _) _].
  exact Hn.
Defined.

End PageEventProperties.

(** ** The Drive wrapper *)

Section DriveFacts.
Import Drive.

Lemma driveRequest_refused net m e b s :
  truthy (accessToken s) = false -> driveRequest net m e b s = (None, s).
Proof. intros H. unfold driveRequest. now rewrite H. Qed.

Lemma driveRequest_sent net m e b s tok :
  accessToken s = Some tok -> tok <> "" ->
  driveRequest net m e b s =
  let s1 := {| accessToken := Some tok; currentUser := currentUser s;
               appFolderId := appFolderId s;
               sent := sent s ++ [{| method := m; endpoint := e; bearer := tok;
                                     body := b |}];
               revoked := revoked s |} in
  match net with
  | None => (None, s1)
  | Some res =>
      if status res =? 401 then
        (None, {| accessToken := None; currentUser := None;
                  appFolderId := appFolderId s; sent := sent s1;
                  revoked := revoked s |})
      else (Some res, s1)
  end.
Proof.
  intros Ht Hne. unfold driveRequest, truthy. rewrite Ht.
  apply String.eqb_neq in Hne. rewrite Hne. reflexivity.
Qed.

Lemma skipn_app_length {A} (l1 l2 : list A) : List.skipn (length l1) (l1 ++ l2) = l2.
Proof. induction l1 as [|x l1 IH]; [reflexivity | exact IH]. Qed.

Lemma firstn_app_length {A} (l1 l2 : list A) : List.firstn (length l1) (l1 ++ l2) = l1.
Proof. induction l1 as [|x l1 IH]; cbn; [reflexivity | now rewrite IH]. Qed.

Lemma skipn_zeros (n k : nat) : List.skipn n (zeros (n + k)) = zeros k.
Proof. unfold zeros. induction n as [|n IH]; [reflexivity | exact IH]. Qed.

Lemma length_zeros n : length (zeros n) = n.
Proof. apply List.repeat_length. Qed.

(** Writing [src] right after the first [length done] bytes. *)
Lemma set_after {done : list Byte.byte} (src rest : list Byte.byte) :
  (length src <= length rest)%nat ->
  set src (length done) (done ++ rest)
  = Some (done ++ src ++ List.skipn (length src) rest).
Proof.
  intros Hle. unfold set. rewrite List.length_app.
  destruct (Nat.leb_spec (length done + length src) (length done + length rest))
    as [_|Hlt]; [|lia].
  rewrite firstn_app_length. do 3 f_equal.
  rewrite List.skipn_app, List.skipn_all2 by lia.
  now replace (length done + length src - length done)%nat with (length src) by lia.
Qed.

End DriveFacts.

Section DriveProperties.
Import Drive.

(** X28.  Without a token nothing goes out: a request, a folder lookup
    that is not answered from the cache, a delete and a download all
    reject before anything is sent, and the module state stays as it is.
    A response with status 401 ends the session: the request has gone out
    with the token, the call rejects, token and user are cleared (so
    [isSignedIn] is false and the next call sends nothing), while the
    cached folder id is kept; [signOut] clears the cache as well and
    revokes the token. *)
Theorem drive_needs_a_token_and_drops_it_on_401 (s : Session) :
  (truthy (accessToken s) = false ->
   (forall net m e b, refused (driveRequest net m e b) s) /\
   (truthy (appFolderId s) = false ->
    forall search create, refused (getOrCreateAppFolder search create) s) /\
   (forall net f, refused (deletePMTilesFile net f) s) /\
   (forall net f, refused (downloadPMTiles net f) s)) /\
  (forall tok res m e b,
     accessToken s = Some tok -> tok <> "" -> status res = 401 ->
     exists s',
       driveRequest (Some res) m e b s = (None, s') /\
       sent s' = sent s ++ [{| method := m; endpoint := e; bearer := tok; body := b |}] /\
       isSignedIn s' = false /\ getUser s' = None /\
       appFolderId s' = appFolderId s /\
       (forall net m' e' b', refused (driveRequest net m' e' b') s')) /\
  (isSignedIn (signOut s) = false /\ getUser (signOut s) = None /\
   appFolderId (signOut s) = None /\ sent (signOut s) = sent s /\
   (forall tok, accessToken s = Some tok -> tok <> "" ->
                revoked (signOut s) = revoked s ++ [tok]) /\
   (accessToken s = None -> revoked (signOut s) = revoked s)).
Proof.
  split; [|split].
  - intros Ht.
    assert (Hreq : forall net m e b, driveRequest net m e b s = (None, s))
      by (intros; now apply driveRequest_refused).
    split; [exact Hreq|]. split; [|split].
    + intros Hf search create. unfold refused, getOrCreateAppFolder, mbind, js_bind,
        get_state. rewrite Hf. now rewrite Hreq.
    + intros net f. unfold refused, deletePMTilesFile, mbind, js_bind. now rewrite Hreq.
    + intros net f. unfold refused, downloadPMTiles, mbind, js_bind. now rewrite Hreq.
  - intros tok res m e b Ht Hne Hs. eexists. split.
    { rewrite (driveRequest_sent _ _ _ _ _ tok Ht Hne). cbv zeta. rewrite Hs.
      reflexivity. }
    cbn [sent isSignedIn getUser accessToken currentUser appFolderId].
    do 4 (split; [reflexivity|]).
    intros net m' e' b'. now apply driveRequest_refused.
  - unfold signOut, isSignedIn, getUser. cbn [accessToken currentUser appFolderId sent revoked].
    repeat split.
    + intros tok Ht Hne. rewrite Ht. cbn. apply String.eqb_neq in Hne. now rewrite Hne.
    + intros Ht. rewrite Ht. cbn. now rewrite List.app_nil_r.
Qed.

Lemma drive_needs_a_token_and_drops_it_on_401_witness :
  refused (deletePMTilesFile None "f")
    {| accessToken := None; currentUser := None; appFolderId := Some "folder";
       sent := []; revoked := [] |}.
Proof.
  destruct (drive_needs_a_token_and_drops_it_on_401
              {| accessToken := None; currentUser := None; appFolderId := Some "folder";
                 sent := []; revoked := [] |}) as [H _].
  destruct (H eq_refl) as (_ & _ & Hd & _). apply Hd.
Defined.

(** X29.  [getOrCreateAppFolder] asks Drive at most once per session.
    With a folder id cached it answers from the cache and sends nothing.
    Otherwise it searches; if the search finds folders it caches and
    returns the first and sends nothing more; if it finds none it
    creates one with a second request, a POST whose body is the JSON of
    the folder's name ([field-note-app]) and MIME type (spelt out below
    in character codes), and caches and returns the id of the answer.
    After either, the next call sends nothing and returns the same id. *)
Theorem getOrCreateAppFolder_asks_once
  (s : Session) (tok : string) (Htok : accessToken s = Some tok) (Hne : tok <> "") :
  (truthy (appFolderId s) = true ->
   forall search create,
     getOrCreateAppFolder search create s = (Some (appFolderId s), s)) /\
  (truthy (appFolderId s) = false ->
   forall res data f rest create,
     status res <> 401 -> json res = Some data -> files data = Some (f :: rest) ->
     exists s',
       getOrCreateAppFolder (Some res) create s = (Some (Some f), s') /\
       appFolderId s' = Some f /\
       sent_by (getOrCreateAppFolder (Some res) create) s =
         [{| method := GET; endpoint := FolderSearch; bearer := tok; body := [] |}] /\
       (f <> "" -> forall search' create',
          getOrCreateAppFolder search' create' s' = (Some (Some f), s'))) /\
  (truthy (appFolderId s) = false ->
   forall res data res' folder,
     status res <> 401 -> json res = Some data ->
     (files data = None \/ files data = Some []) ->
     status res' <> 401 -> json res' = Some folder ->
     exists s',
       getOrCreateAppFolder (Some res) (Some res') s = (Some (id folder), s') /\
       appFolderId s' = id folder /\
       sent_by (getOrCreateAppFolder (Some res) (Some res')) s =
         [{| method := GET; endpoint := FolderSearch; bearer := tok; body := [] |};
          {| method := POST; endpoint := Files; bearer := tok;
             body := folder_metadata |}] /\
       List.map Byte.to_N folder_metadata =
         [123; 34; 110; 97; 109; 101; 34; 58; 34; 102; 105; 101; 108; 100;
          45; 110; 111; 116; 101; 45; 97; 112; 112; 34; 44; 34; 109; 105;
          109; 101; 84; 121; 112; 101; 34; 58; 34; 97; 112; 112; 108; 105;
          99; 97; 116; 105; 111; 110; 47; 118; 110; 100; 46; 103; 111; 111;
          103; 108; 101; 45; 97; 112; 112; 115; 46; 102; 111; 108; 100;
          101; 114; 34; 125]%N /\
       (truthy (id folder) = true -> forall search' create',
          getOrCreateAppFolder search' create' s' = (Some (id folder), s'))).
Proof.
  assert (Hcached : forall s0, truthy (appFolderId s0) = true ->
            forall search create,
              getOrCreateAppFolder search create s0 = (Some (appFolderId s0), s0)).
  { intros s0 H search create. unfold getOrCreateAppFolder, mbind, js_bind, get_state.
    now rewrite H. }
  split; [apply Hcached|]. split.
  - intros Hf res data f rest create Hs Hj Hfiles.
    apply Z.eqb_neq in Hs.
    assert (Hrun : getOrCreateAppFolder (Some res) create s =
              (Some (Some f),
               {| accessToken := Some tok; currentUser := currentUser s;
                  appFolderId := Some f;
                  sent := sent s ++ [{| method := GET; endpoint := FolderSearch;
                                        bearer := tok; body := [] |}];
                  revoked := revoked s |})).
    { unfold getOrCreateAppFolder, mbind, js_bind, get_state. rewrite Hf.
      rewrite (driveRequest_sent _ _ _ _ _ tok Htok Hne). cbv zeta. rewrite Hs.
      unfold parsed. rewrite Hj, Hfiles. reflexivity. }
    eexists. split; [exact Hrun|]. split; [reflexivity|]. split.
    + unfold sent_by. rewrite Hrun. cbn [snd sent]. apply skipn_app_length.
    + intros Hfne search' create'.
      match goal with |- getOrCreateAppFolder _ _ ?s1 = _ =>
        rewrite (Hcached s1) by (cbn; apply String.eqb_neq in Hfne; now rewrite Hfne)
      end.
      reflexivity.
  - intros Hf res data res' folder Hs Hj Hfiles Hs' Hj'.
    apply Z.eqb_neq in Hs, Hs'.
    assert (Hrun : getOrCreateAppFolder (Some res) (Some res') s =
              (Some (id folder),
               {| accessToken := Some tok; currentUser := currentUser s;
                  appFolderId := id folder;
                  sent := (sent s ++ [{| method := GET; endpoint := FolderSearch;
                                         bearer := tok; body := [] |}])
                          ++ [{| method := POST; endpoint := Files;
                                 bearer := tok; body := folder_metadata |}];
                  revoked := revoked s |})).
    { unfold getOrCreateAppFolder, mbind, js_bind, get_state. rewrite Hf.
      rewrite (driveRequest_sent _ _ _ _ _ tok Htok Hne). cbv zeta. rewrite Hs.
      unfold parsed at 1. rewrite Hj.
      destruct Hfiles as [Hfiles | Hfiles]; rewrite Hfiles;
        match goal with
        | |- context [driveRequest _ _ _ _ ?s1] =>
            rewrite (driveRequest_sent (Some res') POST Files folder_metadata s1 tok
                       eq_refl Hne)
        end;
        cbv zeta; rewrite Hs'; unfold parsed; rewrite Hj'; reflexivity. }
    eexists. split; [exact Hrun|]. split; [reflexivity|]. split; [|split].
    + unfold sent_by. rewrite Hrun. cbn [snd sent]. rewrite <- List.app_assoc.
      apply skipn_app_length.
    + reflexivity.
    + intros Hid search' create'.
      match goal with |- getOrCreateAppFolder _ _ ?s1 = _ =>
        rewrite (Hcached s1) by exact Hid
      end.
      reflexivity.
Qed.

Lemma getOrCreateAppFolder_asks_once_witness :
  let s := {| accessToken := Some "t"; currentUser := None; appFolderId := None;
              sent := []; revoked := [] |} in
  let found_none := {| status := 200; json := Some {| files := Some []; id := None |};
                       bytes := [] |} in
  let created := {| status := 200; json := Some {| files := None; id := Some "F1" |};
                    bytes := [] |} in
  exists s',
    getOrCreateAppFolder (Some found_none) (Some created) s = (Some (Some "F1"), s') /\
    sent s' =
      [{| method := GET; endpoint := FolderSearch; bearer := "t"; body := [] |};
       {| method := POST; endpoint := Files; bearer := "t"; body := folder_metadata |}] /\
    getOrCreateAppFolder None None s' = (Some (Some "F1"), s').
Proof.
  cbv zeta.
  assert (Hne : "t" <> "") by discriminate.
  destruct (getOrCreateAppFolder_asks_once
              {| accessToken := Some "t"; currentUser := None;
                 appFolderId := None; sent := []; revoked := [] |}
              "t" eq_refl Hne) as (_ & _ & H).
  destruct (H eq_refl
              {| status := 200; json := Some {| files := Some []; id := None |};
                 bytes := [] |}
              {| files := Some []; id := None |}
              {| status := 200; json := Some {| files := None; id := Some "F1" |};
                 bytes := [] |}
              {| files := None; id := Some "F1" |})
    as (s' & Hrun & _ & Hsent & _ & Hnext);
    [discriminate | reflexivity | right; reflexivity | discriminate | reflexivity |].
  exists s'. split; [exact Hrun|]. split.
  - unfold sent_by in Hsent. rewrite Hrun in Hsent. exact Hsent.
  - apply Hnext. reflexivity.
Defined.

(** X30.  The multipart body of an upload is the encoded prefix, the
    bytes of the file and the encoded suffix, one after the other: the
    three [set] calls on the zero-filled array all fit and overwrite every
    byte of it.  A [set] that does not fit is a [RangeError]; one that
    fits keeps the length and the bytes outside the range it writes. *)
Theorem multipart_body_is_prefix_data_suffix (prefix data suffix : list Byte.byte) :
  assemble prefix data suffix = Some (prefix ++ data ++ suffix) /\
  (forall src offset b,
     (length b < offset + length src)%nat -> set src offset b = None) /\
  (forall src offset b b',
     set src offset b = Some b' ->
     length b' = length b /\
     List.firstn offset b' = List.firstn offset b /\
     List.firstn (length src) (List.skipn offset b') = src /\
     List.skipn (offset + length src) b' = List.skipn (offset + length src) b).
Proof.
  split; [|split].
  - unfold assemble.
    assert (H1 : set prefix 0 (zeros (length prefix + length data + length suffix))
                 = Some (prefix ++ zeros (length data + length suffix))).
    { pose proof (set_after (done := []) prefix
                    (zeros (length prefix + length data + length suffix))) as H0.
      cbn [List.app length] in H0. rewrite H0 by (rewrite length_zeros; lia).
      now rewrite <- Nat.add_assoc, skipn_zeros. }
    assert (H2 : set data (length prefix) (prefix ++ zeros (length data + length suffix))
                 = Some (prefix ++ data ++ zeros (length suffix))).
    { rewrite set_after by (rewrite length_zeros; lia). now rewrite skipn_zeros. }
    assert (H3 : set suffix (length prefix + length data)
                   (prefix ++ data ++ zeros (length suffix))
                 = Some (prefix ++ data ++ suffix)).
    { rewrite <- List.length_app, List.app_assoc.
      rewrite set_after by (rewrite length_zeros; lia).
      rewrite List.skipn_all2 by (rewrite length_zeros; lia).
      now rewrite List.app_nil_r, <- List.app_assoc. }
    rewrite H1. cbn [mbind option_bind]. rewrite H2. cbn [mbind option_bind]. exact H3.
  - intros src offset b Hlt. unfold set.
    destruct (Nat.leb_spec (offset + length src) (length b)); [lia | reflexivity].
  - intros src offset b b'. unfold set.
    destruct (Nat.leb_spec (offset + length src) (length b)) as [Hle|]; [|discriminate].
    intros [= <-].
    assert (Hfl : length (List.firstn offset b) = offset)
      by (apply List.firstn_length_le; lia).
    split; [|split; [|split]].
    + rewrite !List.length_app, Hfl, List.length_skipn. lia.
    + rewrite <- Hfl at 1. apply firstn_app_length.
    + rewrite <- Hfl at 1. rewrite skipn_app_length. apply firstn_app_length.
    + rewrite List.app_assoc.
      replace (offset + length src)%nat
        with (length (List.firstn offset b ++ src)) at 1
        by (rewrite List.length_app, Hfl; reflexivity).
      apply skipn_app_length.
Qed.

End DriveProperties.
